(** * konflux-build-cli: input resolution and validation layer

    A shallow embedding of the four input-resolution components of the
    build helper, and the properties of them that the design document
    states:

    - [SearchDockerfile] and [isRelativeTo]  (pkg/common/dockerfile.go)
    - [SelectRegistryAuth] and [findAuth]    (pkg/common, registry auth)
    - [processSecretDirs] and [isRegular]    (pkg/commands/build.go)
    - [containsRPM], [injectSummaryInSBOMField], [injectSSLOptions]
                                             (pkg/commands/prefetch_dependencies)

    Paths, scopes and ids are Go strings and stay strings here.  Go maps
    are finite maps ([gmap]).  The operating system (symlink resolution,
    directory listing, stat, the auth file) is an explicit record of
    oracles passed to every function that touches it. *)

From Stdlib Require Import ZArith Ascii String List Bool Lia.
From stdpp Require Import base option gmap strings list fin_maps.
From Equations Require Import Equations.

Open Scope string_scope.

(** Let [simpl] compute the append of a literal. *)
#[local] Arguments String.append !s1 s2 : simpl nomatch.

(* ===================================================================== *)
(** * Part I: definitions                                                 *)
(* ===================================================================== *)

(** ** Results and operating-system errors *)

(** A Go [(value, error)] pair whose error is either nil or not. *)
Inductive result (E A : Type) : Type :=
| Ok (a : A)
| Err (e : E).
Arguments Ok {E A} a.
Arguments Err {E A} e.

(** What the code asks of an [error] coming from the [os] package:
    [os.IsNotExist(err)] or not. *)
Inductive oserr : Type :=
| ENOENT
| EOther (msg : string).

Definition IsNotExist (e : oserr) : bool :=
  match e with
  | ENOENT => true
  | EOther _ => false
  end.

(** ** Go's [strings] package, as far as the code uses it *)

Definition slash : ascii := "/"%char.

(** [strings.HasPrefix(s, pre)]. *)
Fixpoint strings_HasPrefix (s pre : string) {struct pre} : bool :=
  match pre with
  | EmptyString => true
  | String a pre' =>
      match s with
      | EmptyString => false
      | String b s' => Ascii.eqb a b && strings_HasPrefix s' pre'
      end
  end.

(** [strings.Split(s, string(sep))] for a one-byte separator: a string
    with no separator is returned whole, also the empty one. *)
Fixpoint strings_Split (sep : ascii) (s : string) : list string :=
  match s with
  | EmptyString => [EmptyString]
  | String c s' =>
      if Ascii.eqb c sep then EmptyString :: strings_Split sep s'
      else match strings_Split sep s' with
           | h :: t => String c h :: t
           | [] => [String c EmptyString]
           end
  end.

(** [strings.Join(elems, sep)]. *)
Fixpoint strings_Join (elems : list string) (sep : string) : string :=
  match elems with
  | [] => EmptyString
  | [e] => e
  | e :: rest => e +:+ sep +:+ strings_Join rest sep
  end.

(** [strings.LastIndex(s, string(sep))]: [None] stands for -1. *)
Fixpoint strings_LastIndex (s : string) (sep : ascii) : option nat :=
  match s with
  | EmptyString => None
  | String c s' =>
      match strings_LastIndex s' sep with
      | Some i => Some (S i)
      | None => if Ascii.eqb c sep then Some 0 else None
      end
  end.

(** The slice [s[:n]]. *)
Fixpoint string_take (n : nat) (s : string) : string :=
  match n, s with
  | S n', String c s' => String c (string_take n' s')
  | _, _ => EmptyString
  end.

(** ** Go's [path/filepath] package on Unix *)

Definition is_dot (e : string) : bool := String.eqb e ".".
Definition is_dotdot (e : string) : bool := String.eqb e "..".
Definition is_empty (e : string) : bool := String.eqb e "".

(** The element loop of [filepath.Clean].  [out] is the output written so
    far, last element first.  An empty element and ["."] are dropped; [".."]
    removes the last element written, unless there is none (dropped on a
    rooted path, kept otherwise) or only [".."] elements were written. *)
Fixpoint clean_elems (rooted : bool) (out elems : list string) : list string :=
  match elems with
  | [] => rev out
  | e :: rest =>
      if is_empty e || is_dot e then clean_elems rooted out rest
      else if is_dotdot e then
        match out with
        | top :: out' =>
            if is_dotdot top then clean_elems rooted (e :: out) rest
            else clean_elems rooted out' rest
        | [] =>
            if rooted then clean_elems rooted [] rest
            else clean_elems rooted [e] rest
        end
      else clean_elems rooted (e :: out) rest
  end.

Definition filepath_Clean (path : string) : string :=
  if is_empty path then "."
  else
    let rooted := strings_HasPrefix path "/" in
    let out := clean_elems rooted [] (strings_Split slash path) in
    if rooted then "/" +:+ strings_Join out "/"
    else match out with
         | [] => "."
         | _ => strings_Join out "/"
         end.

(** [filepath.Join]: leading empty elements are ignored, the rest is
    joined with the separator and cleaned; nothing but empty elements gives
    the empty string. *)
Fixpoint filepath_Join (elem : list string) : string :=
  match elem with
  | [] => ""
  | e :: rest =>
      if is_empty e then filepath_Join rest
      else filepath_Clean (strings_Join elem "/")
  end.

Definition filepath_IsAbs (path : string) : bool := strings_HasPrefix path "/".

(** [filepath.Base]: the last element of the path, trailing separators
    removed first; ["."] for the empty path, ["/"] for a path of separators
    only. *)
Definition filepath_Base (path : string) : string :=
  if is_empty path then "."
  else
    match rev (List.filter (fun e => negb (is_empty e)) (strings_Split slash path)) with
    | e :: _ => e
    | [] => "/"
    end.

(** The elements that the loop of [filepath.Rel] walks over: those of
    [strings.Split], except that a separator at the very end opens no
    further (empty) element, and the empty string has none. *)
Definition rel_elems (s : string) : list string :=
  match rev (strings_Split slash s) with
  | e :: r => if is_empty e then rev r else strings_Split slash s
  | [] => []
  end.

(** Position two element lists at their first differing elements. *)
Fixpoint strip_common (bs ts : list string) : list string * list string :=
  match bs, ts with
  | b :: bs', t :: ts' =>
      if String.eqb b t then strip_common bs' ts' else (bs, ts)
  | _, _ => (bs, ts)
  end.

(** [filepath.Rel(basepath, targpath)]; [None] is its error
    ("can't make targpath relative to basepath"). *)
Definition filepath_Rel (basepath targpath : string) : option string :=
  let base := filepath_Clean basepath in
  let targ := filepath_Clean targpath in
  if String.eqb targ base then Some "."
  else
    let base := if is_dot base then "" else base in
    if negb (Bool.eqb (strings_HasPrefix base "/") (strings_HasPrefix targ "/"))
    then None
    else
      match strip_common (rel_elems base) (rel_elems targ) with
      | ([], trem) => Some (strings_Join trem "/")
      | (b :: brem, []) => Some (strings_Join (repeat ".." (S (List.length brem))) "/")
      | (b :: brem, t :: trem) =>
          if is_dotdot b then None
          else Some (strings_Join (repeat ".." (S (List.length brem)) ++ t :: trem) "/")
      end.

(** ** The operating system, as the code sees it *)

(** [os.FileMode] is a 32-bit mask; these are the type bits of [io/fs]. *)
Definition FileMode : Type := Z.

Definition ModeDir        : FileMode := Z.shiftl 1 31.
Definition ModeSymlink    : FileMode := Z.shiftl 1 27.
Definition ModeDevice     : FileMode := Z.shiftl 1 26.
Definition ModeNamedPipe  : FileMode := Z.shiftl 1 25.
Definition ModeSocket     : FileMode := Z.shiftl 1 24.
Definition ModeCharDevice : FileMode := Z.shiftl 1 21.
Definition ModeIrregular  : FileMode := Z.shiftl 1 19.

Definition ModeType : FileMode :=
  Z.lor ModeDir (Z.lor ModeSymlink (Z.lor ModeNamedPipe (Z.lor ModeSocket
    (Z.lor ModeDevice (Z.lor ModeCharDevice ModeIrregular))))).

(** [m.IsRegular()]: no type bit is set. *)
Definition IsRegular (m : FileMode) : bool := Z.eqb (Z.land m ModeType) 0.

(** [m.IsDir()]. *)
Definition IsDir (m : FileMode) : bool := negb (Z.eqb (Z.land m ModeDir) 0).

(** An [os.DirEntry]: its name and [Type()], the type bits of its mode
    (of the entry itself: a symbolic link is not followed). *)
Record DirEntry : Type := mkDirEntry {
  Name : string;
  Type_ : FileMode
}.

Record FileSys : Type := mkFileSys {
  (** [os.Getwd], used by [filepath.Abs] on a relative path *)
  getwd : result oserr string;
  (** [filepath.EvalSymlinks] *)
  EvalSymlinks : string -> result oserr string;
  (** [os.ReadDir]: the entries, sorted by file name *)
  ReadDir : string -> result oserr (list DirEntry);
  (** [os.Stat] (follows symbolic links), reduced to the mode *)
  Stat : string -> result oserr FileMode
}.

(** [filepath.Abs]. *)
Definition filepath_Abs (fs : FileSys) (path : string) : result oserr string :=
  if filepath_IsAbs path then Ok (filepath_Clean path)
  else match getwd fs with
       | Ok wd => Ok (filepath_Join [wd; path])
       | Err e => Err e
       end.

(** ** pkg/common/dockerfile.go *)

Record DockerfileSearchOpts : Type := mkDockerfileSearchOpts {
  SourceDir : string;
  ContextDir : string;
  Dockerfile : string
}.

(** The errors [SearchDockerfile] returns, each with the values its
    message is formatted from. *)
Inductive SearchError : Type :=
| MissingSourceDirectory
| AbsError (e : oserr)
| SourceSymlinkError (absSourceDir : string) (e : oserr)
| DockerfileSymlinkError (dockerfilePath : string) (e : oserr)
| NotUnderSource (dockerfile : string) (actualAbsSourcePath : string).

Definition isRelativeTo (path base : string) : bool :=
  match filepath_Rel base path with
  | None => false
  | Some rel => negb (strings_HasPrefix rel "..")
  end.

(** The loop [for _, dockerfilePath := range possibleDockerfiles] of the
    closure [_search]. *)
Fixpoint search_paths (fs : FileSys) (actualAbsSourcePath dockerfile : string)
    (possibleDockerfiles : list string) : result SearchError string :=
  match possibleDockerfiles with
  | [] => Ok ""
  | dockerfilePath :: rest =>
      match EvalSymlinks fs dockerfilePath with
      | Err e =>
          if negb (IsNotExist e) then Err (DockerfileSymlinkError dockerfilePath e)
          else search_paths fs actualAbsSourcePath dockerfile rest
      | Ok actualDockerfilePath =>
          if negb (isRelativeTo actualDockerfilePath actualAbsSourcePath)
          then Err (NotUnderSource dockerfile actualAbsSourcePath)
          else Ok actualDockerfilePath
      end
  end.

Definition _search (fs : FileSys) (actualAbsSourcePath contextDir dockerfile : string)
    : result SearchError string :=
  search_paths fs actualAbsSourcePath dockerfile
    [ filepath_Join [actualAbsSourcePath; contextDir; dockerfile];
      filepath_Join [actualAbsSourcePath; dockerfile] ].

(** The loop over the default names when no Dockerfile is given. *)
Fixpoint search_names (fs : FileSys) (actualAbsSourcePath contextDir : string)
    (names : list string) : result SearchError string :=
  match names with
  | [] => Ok ""
  | dockerfile :: rest =>
      match _search fs actualAbsSourcePath contextDir dockerfile with
      | Err e => Err e
      | Ok dockerfilePath =>
          if negb (is_empty dockerfilePath) then Ok dockerfilePath
          else search_names fs actualAbsSourcePath contextDir rest
      end
  end.

(** The context directory after its default is applied. *)
Definition contextDir_of (opts : DockerfileSearchOpts) : string :=
  if is_empty (ContextDir opts) then "." else ContextDir opts.

(** The part of [SearchDockerfile] before the search: the symlink-free
    absolute source directory. *)
Definition resolveSource (fs : FileSys) (opts : DockerfileSearchOpts)
    : result SearchError string :=
  if is_empty (SourceDir opts) then Err MissingSourceDirectory
  else
    match filepath_Abs fs (SourceDir opts) with
    | Err e => Err (AbsError e)
    | Ok absSourceDir =>
        match EvalSymlinks fs absSourceDir with
        | Err e => Err (SourceSymlinkError absSourceDir e)
        | Ok actualAbsSourcePath => Ok actualAbsSourcePath
        end
    end.

Definition SearchDockerfile (fs : FileSys) (opts : DockerfileSearchOpts)
    : result SearchError string :=
  match resolveSource fs opts with
  | Err e => Err e
  | Ok actualAbsSourcePath =>
      let contextDir := contextDir_of opts in
      if is_empty (Dockerfile opts) then
        search_names fs actualAbsSourcePath contextDir ["./Containerfile"; "./Dockerfile"]
      else
        _search fs actualAbsSourcePath contextDir (Dockerfile opts)
  end.

(** ** Image references and registry authentication (pkg/common) *)

(** The slice [s[n:]]. *)
Fixpoint string_drop (n : nat) (s : string) : string :=
  match n, s with
  | S n', String c s' => string_drop n' s'
  | _, _ => s
  end.

Fixpoint string_forallb (p : ascii -> bool) (s : string) : bool :=
  match s with
  | EmptyString => true
  | String c s' => p c && string_forallb p s'
  end.

Definition in_range (lo hi c : ascii) : bool :=
  (nat_of_ascii lo <=? nat_of_ascii c)%nat && (nat_of_ascii c <=? nat_of_ascii hi)%nat.

Definition is_digit (c : ascii) : bool := in_range "0" "9" c.
Definition is_alnum (c : ascii) : bool :=
  in_range "a" "z" c || in_range "A" "Z" c || is_digit c.
(** The class [[a-fA-F0-9]]. *)
Definition is_hex (c : ascii) : bool :=
  in_range "a" "f" c || in_range "A" "F" c || is_digit c.
(** The class [[a-zA-Z0-9_]]. *)
Definition is_tag_start (c : ascii) : bool := is_alnum c || Ascii.eqb c "_".
(** The class [[a-zA-Z0-9_.-]]. *)
Definition is_tag_char (c : ascii) : bool :=
  is_tag_start c || Ascii.eqb c "." || Ascii.eqb c "-".

(** [imageDigestSuffixRegex.ReplaceAllString(s, "")] for the regular
    expression [@sha256:[a-fA-F0-9]{64}$]: a match ends the string and is
    72 bytes long. *)
Definition trim_digest_suffix (s : string) : string :=
  let n := String.length s in
  if (72 <=? n)%nat
     && String.eqb (string_take 8 (string_drop (n - 72) s)) "@sha256:"
     && string_forallb is_hex (string_drop (n - 64) s)
  then string_take (n - 72) s
  else s.

(** A match of [[a-zA-Z0-9_][a-zA-Z0-9_.-]{0,127}] on the whole of [t]. *)
Definition is_tag (t : string) : bool :=
  match t with
  | EmptyString => false
  | String c t' =>
      is_tag_start c && string_forallb is_tag_char t'
      && (String.length t' <=? 127)%nat
  end.

(** [imageTagSuffixRegex.ReplaceAllString(s, "")] for the regular
    expression [:[a-zA-Z0-9_][a-zA-Z0-9_.-]{0,127}$]: no byte of the class
    is a colon, so a match starts at the last colon of the string. *)
Definition trim_tag_suffix (s : string) : string :=
  match strings_LastIndex s ":" with
  | Some i => if is_tag (string_drop (S i) s) then string_take i s else s
  | None => s
  end.

(** GetImageName trims tag and/or digest from given image reference. *)
Definition GetImageName (imageURL : string) : string :=
  let imageWithoutDigest := trim_digest_suffix imageURL in
  let image := trim_tag_suffix imageWithoutDigest in
  image.

Definition registryDockerIO : string := "docker.io".
Definition registryIndexDockerIO : string := "https://index.docker.io/v1/".

Record RegistryAuth : Type := mkRegistryAuth {
  Registry : string;
  Token : string
}.

Record AuthEntry : Type := mkAuthEntry {
  Auth : string
}.

Record RegistryAuths : Type := mkRegistryAuths {
  Auths : gmap string AuthEntry
}.

Inductive AuthError : Type :=
| InvalidImageReference (imageRef : string)
| AuthFileError (e : oserr)
| AuthNotConfigured (imageRepo : string).

Lemma strings_LastIndex_lt s sep i :
  strings_LastIndex s sep = Some i -> (i < String.length s)%nat.
Proof.
  revert i. induction s as [|c s IH]; intros i; simpl; [discriminate|].
  destruct (strings_LastIndex s sep) as [j|].
  - intros [= <-]. specialize (IH j eq_refl). lia.
  - destruct (Ascii.eqb c sep); [intros [= <-]; lia | discriminate].
Qed.

Lemma string_take_length n s :
  String.length (string_take n s) = Nat.min n (String.length s).
Proof.
  revert s. induction n as [|n IH]; intros [|c s]; simpl; auto.
Qed.

(** A value together with the equation that names it, for the
    termination proof of a loop that branches on a computed value. *)
Definition inspect {A : Type} (a : A) : {b : A | a = b} := exist _ a eq_refl.

(** The [for] loop of [findAuth]: look the key up, on a miss cut it at
    its last slash and go round again; [None] when the loop is left by
    [break]. *)
Equations? findAuth_loop (auths : gmap string AuthEntry) (authKey : string)
    : option string by wf (String.length authKey) lt :=
  findAuth_loop auths authKey with auths !! authKey := {
    | Some authEntry => Some (Auth authEntry)
    | None with inspect (strings_LastIndex authKey slash) := {
        | exist _ None _ => None
        | exist _ (Some index) Hindex =>
            findAuth_loop auths (string_take index authKey)
      }
  }.
Proof.
  apply strings_LastIndex_lt in Hindex. rewrite string_take_length. lia.
Qed.

(** The first element of [strings.Split(s, "/")]. *)
Definition first_segment (s : string) : string :=
  match strings_Split slash s with
  | e :: _ => e
  | [] => ""
  end.

(** findAuth finds out authentication credential string by image
    repository.  If nothing is found, returns an empty string. *)
Definition findAuth (registryAuths : RegistryAuths) (imageRepo : string) : string :=
  match findAuth_loop (Auths registryAuths) imageRepo with
  | Some auth => auth
  | None =>
      let registry := first_segment imageRepo in
      if String.eqb registry registryDockerIO then
        match Auths registryAuths !! registryIndexDockerIO with
        | Some authEntry => Auth authEntry
        | None => ""
        end
      else ""
  end.

(** [readAuthFile] is [os.ReadFile] followed by [json.Unmarshal]; the
    argument [readAuthFile] below stands for both. *)
Definition SelectRegistryAuth
    (readAuthFile : string -> result oserr RegistryAuths)
    (imageRef authFilePath : string) : result AuthError RegistryAuth :=
  let imageRepo := GetImageName imageRef in
  if is_empty imageRepo then Err (InvalidImageReference imageRef)
  else
    match readAuthFile authFilePath with
    | Err e => Err (AuthFileError e)
    | Ok registryAuths =>
        let token := findAuth registryAuths imageRepo in
        if is_empty token then Err (AuthNotConfigured imageRepo)
        else Ok {| Registry := first_segment imageRepo; Token := token |}
    end.

(** ** Secret directories (pkg/commands/build.go) *)

Record secretDir : Type := mkSecretDir {
  src : string;
  name : string;
  optional : bool
}.

(** [cliWrappers.BuildahSecret]. *)
Record BuildahSecret : Type := mkBuildahSecret {
  Src : string;
  Id : string
}.

Inductive SecretError : Type :=
| ReadSecretDirError (dir : string) (e : oserr)
| StatError (path : string) (e : oserr)
| DuplicateSecretID (fullID : string).

Definition isRegular (fs : FileSys) (entry : DirEntry) (dir : string)
    : result SecretError bool :=
  let t := Type_ entry in
  if IsRegular t then Ok true
  else if Z.eqb t ModeSymlink then
    let path := filepath_Join [dir; Name entry] in
    match Stat fs path with
    | Err e => Err (StatError path e)
    | Ok stat => Ok (IsRegular stat)
    end
  else Ok false.

(** What the two loops of [processSecretDirs] carry along: the secrets
    appended so far and the ids in use ([usedIDs], a [map[string]bool]
    that only ever holds [true]). *)
Definition SecretState : Type := (list BuildahSecret * gset string)%type.

(** The loop [for _, entry := range entries]. *)
Fixpoint process_entries (fs : FileSys) (dirSrc idPrefix : string)
    (entries : list DirEntry) (st : SecretState) : result SecretError SecretState :=
  match entries with
  | [] => Ok st
  | entry :: rest =>
      match isRegular fs entry dirSrc with
      | Err e => Err e
      | Ok false => process_entries fs dirSrc idPrefix rest st
      | Ok true =>
          let filename := Name entry in
          let fullID := filepath_Join [idPrefix; filename] in
          if bool_decide (fullID ∈ st.2) then Err (DuplicateSecretID fullID)
          else
            let secretPath := filepath_Join [dirSrc; filename] in
            process_entries fs dirSrc idPrefix rest
              (st.1 ++ [ {| Src := secretPath; Id := fullID |} ], {[ fullID ]} ∪ st.2)%list
      end
  end.

Definition idPrefix_of (d : secretDir) : string :=
  if is_empty (name d) then filepath_Base (src d) else name d.

(** The loop [for _, secretDir := range secretDirs]. *)
Fixpoint process_dirs (fs : FileSys) (secretDirs : list secretDir) (st : SecretState)
    : result SecretError SecretState :=
  match secretDirs with
  | [] => Ok st
  | d :: rest =>
      let idPrefix := idPrefix_of d in
      match ReadDir fs (src d) with
      | Err e =>
          if IsNotExist e && optional d then process_dirs fs rest st
          else Err (ReadSecretDirError (src d) e)
      | Ok entries =>
          match process_entries fs (src d) idPrefix entries st with
          | Err e => Err e
          | Ok st' => process_dirs fs rest st'
          end
      end
  end.

(** processSecretDirs processes secret directories and returns buildah
    --secret arguments. *)
Definition processSecretDirs (fs : FileSys) (secretDirs : list secretDir)
    : result SecretError (list BuildahSecret) :=
  match process_dirs fs secretDirs ([], ∅) with
  | Err e => Err e
  | Ok st => Ok st.1
  end.

(** ** The prefetch input (pkg/commands/prefetch_dependencies) *)

(** What [json.Unmarshal] into an [any] produces: [nil], [bool],
    [float64] (kept as its bit pattern), [string], [[]any] and
    [map[string]any]. *)
#[local] Set Warnings "-register-all".
Inductive json : Type :=
| JNull
| JBool (b : bool)
| JNum (bits : Z)
| JStr (s : string)
| JArr (items : list json)
| JObj (fields : gmap string json).

(** [typeValue, ok := data["type"]; ok && typeValue == "rpm"]: the field
    is there and holds the string ["rpm"]. *)
Definition is_rpm_type (data : gmap string json) : bool :=
  match data !! "type" with
  | Some (JStr s) => String.eqb s "rpm"
  | _ => false
  end.

(** [packages, ok := data["packages"].([]any)]. *)
Definition packages_of (data : gmap string json) : option (list json) :=
  match data !! "packages" with
  | Some (JArr packages) => Some packages
  | _ => None
  end.

(** Check if the user input contains an RPM package.

    The recursive call on the elements of [packages] goes through
    [containsRPM <$> data], which is where structural recursion can see
    it: the value of that map at ["packages"] is [containsRPM] of the
    array, the [slices.ContainsFunc] of the source.  [containsRPM_obj]
    below restates the case as the source has it. *)
Fixpoint containsRPM (input : json) : bool :=
  match input with
  | JArr data => existsb containsRPM data
  | JObj data =>
      if match packages_of data with
         | Some _ => default false ((containsRPM <$> data) !! "packages")
         | None => false
         end
      then true
      else is_rpm_type data
  | _ => false
  end.

(** Inject a flag to enable RPM summary in the SBOM.

    The source writes into the array and the map it was given and returns
    them; here the rewritten value is returned.  The recursion on
    [packages] goes through [<$>] as in [containsRPM]. *)
Fixpoint injectSummaryInSBOMField (input : json) : json :=
  match input with
  | JArr data => JArr (map injectSummaryInSBOMField data)
  | JObj data =>
      match packages_of data with
      | Some _ =>
          JObj (<["packages" :=
                   default JNull ((injectSummaryInSBOMField <$> data) !! "packages")]> data)
      | None =>
          if is_rpm_type data
          then JObj (<["include_summary_in_sbom" := JBool true]> data)
          else input
      end
  | _ => input
  end.

(** The leaf case of [injectSSLOptions]: [data] is an object whose type
    is ["rpm"].  [maps.Copy(existingSSL, ssl)] writes every key of [ssl]
    into the existing map, which is the union that prefers [ssl]. *)
Definition inject_ssl_leaf (data ssl : gmap string json) : gmap string json :=
  match data !! "options" with
  | Some (JObj existingOptions) =>
      match existingOptions !! "ssl" with
      | Some (JObj existingSSL) =>
          <["options" := JObj (<["ssl" := JObj (ssl ∪ existingSSL)]> existingOptions)]> data
      | _ => <["options" := JObj {["ssl" := JObj ssl]}]> data
      end
  | _ => <["options" := JObj {["ssl" := JObj ssl]}]> data
  end.

(** Inject SSL options for all RPM packages. *)
Fixpoint injectSSLOptions (input : json) (ssl : gmap string json) : json :=
  match input with
  | JArr data => JArr (map (fun item => injectSSLOptions item ssl) data)
  | JObj data =>
      match packages_of data with
      | Some _ =>
          JObj (<["packages" :=
                   default JNull (((fun item => injectSSLOptions item ssl) <$> data)
                                    !! "packages")]> data)
      | None =>
          if is_rpm_type data then JObj (inject_ssl_leaf data ssl) else input
      end
  | _ => input
  end.

(** ** Notions the properties are stated with *)

(** The string holds no separator. *)
Definition no_slash (e : string) : Prop :=
  string_forallb (fun c => negb (Ascii.eqb c slash)) e = true.

(** An element of a clean path: not empty, not ["."], not [".."]. *)
Definition is_normal_elem (e : string) : bool :=
  negb (is_empty e || is_dot e || is_dotdot e).

(** A canonical path, as [filepath.EvalSymlinks] returns one for an
    absolute argument: absolute and clean. *)
Definition is_canonical (s : string) : bool :=
  match s with
  | String c rest =>
      Ascii.eqb c slash
      && (is_empty rest || forallb is_normal_elem (strings_Split slash rest))
  | EmptyString => false
  end.

(** [p] is [b] itself or lies below it. *)
Definition under (p b : string) : Prop :=
  p = b \/
  exists rest, rest <> "" /\
    p = (if String.eqb b "/" then "/" else b +:+ "/") +:+ rest.

(** Every path the file system resolves is canonical. *)
Definition fs_canonical (fs : FileSys) : Prop :=
  forall p q, EvalSymlinks fs p = Ok q -> is_canonical q = true.

(** The places [SearchDockerfile] looks at, in the order it looks at
    them, each with the name it is looked up under. *)
Definition two_candidates (boundary contextDir dockerfile : string)
    : list (string * string) :=
  [ (dockerfile, filepath_Join [boundary; contextDir; dockerfile]);
    (dockerfile, filepath_Join [boundary; dockerfile]) ].

Definition candidates (opts : DockerfileSearchOpts) (boundary : string)
    : list (string * string) :=
  if is_empty (Dockerfile opts) then
    (two_candidates boundary (contextDir_of opts) "./Containerfile"
     ++ two_candidates boundary (contextDir_of opts) "./Dockerfile")%list
  else two_candidates boundary (contextDir_of opts) (Dockerfile opts).

(** The search as the design document words it: the candidates are tried
    in order; one that does not exist is passed over, the first that
    exists decides (returned when contained, an escape error otherwise),
    any other failure to resolve one is returned, and nothing found is the
    empty result. *)
Fixpoint first_hit (fs : FileSys) (boundary : string)
    (cands : list (string * string)) : result SearchError string :=
  match cands with
  | [] => Ok ""
  | (dockerfile, path) :: rest =>
      match EvalSymlinks fs path with
      | Err ENOENT => first_hit fs boundary rest
      | Err e => Err (DockerfileSymlinkError path e)
      | Ok actual =>
          if isRelativeTo actual boundary then Ok actual
          else Err (NotUnderSource dockerfile boundary)
      end
  end.

(** The candidate does not exist. *)
Definition absent (fs : FileSys) (c : string * string) : Prop :=
  EvalSymlinks fs (snd c) = Err ENOENT.

(** The scopes of a repository path, longest first: the path itself,
    then the path with its last element removed, and so on down to its
    first element.  [rsegs] holds the elements last first. *)
Fixpoint prefix_scopes (rsegs : list string) : list string :=
  match rsegs with
  | [] => []
  | _ :: r => strings_Join (rev rsegs) "/" :: prefix_scopes r
  end.

Definition scopes (imageRepo : string) : list string :=
  prefix_scopes (rev (strings_Split slash imageRepo)).

(** The auth string of the first scope in the list that the auth file
    has. *)
Fixpoint first_match (auths : gmap string AuthEntry) (keys : list string)
    : option string :=
  match keys with
  | [] => None
  | k :: ks =>
      match auths !! k with
      | Some authEntry => Some (Auth authEntry)
      | None => first_match auths ks
      end
  end.

(** Credential selection as the design document words it: the longest
    scope that matches, and when none does and the registry is docker.io,
    the scope of the index host. *)
Definition matched_auth (auths : gmap string AuthEntry) (imageRepo : string)
    : option string :=
  match first_match auths (scopes imageRepo) with
  | Some auth => Some auth
  | None =>
      if String.eqb (first_segment imageRepo) "docker.io"
      then Auth <$> auths !! "https://index.docker.io/v1/"
      else None
  end.

(** The entries of a secret directory that are taken: those for which
    [isRegular] answers true. *)
Definition is_accepted (fs : FileSys) (d : secretDir) (entry : DirEntry) : bool :=
  match isRegular fs entry (src d) with
  | Ok true => true
  | _ => false
  end.

(** What [ReadDir] lists for a spec; nothing when it fails. *)
Definition listed (fs : FileSys) (d : secretDir) : list DirEntry :=
  match ReadDir fs (src d) with
  | Ok entries => entries
  | Err _ => []
  end.

(** The mapping that [processSecretDirs] appends for an entry of a spec. *)
Definition mapping_of (d : secretDir) (entry : DirEntry) : BuildahSecret :=
  {| Src := filepath_Join [src d; Name entry];
     Id := filepath_Join [idPrefix_of d; Name entry] |}.

(** The mappings of all specs: spec after spec in the order given, and
    for each spec its accepted entries in the order listed. *)
Definition expected_secrets (fs : FileSys) (secretDirs : list secretDir)
    : list BuildahSecret :=
  flat_map (fun d => map (mapping_of d) (List.filter (is_accepted fs d) (listed fs d)))
           secretDirs.

(** The first id of a list that was seen before it. *)
Fixpoint first_dup (seen : gset string) (ids : list string) : option string :=
  match ids with
  | [] => None
  | id :: rest =>
      if bool_decide (id ∈ seen) then Some id
      else first_dup ({[ id ]} ∪ seen) rest
  end.

(** Nothing fails to be read: every directory is listed, or is missing
    and optional, and [isRegular] succeeds on every entry listed. *)
Definition reads_ok (fs : FileSys) (d : secretDir) : Prop :=
  match ReadDir fs (src d) with
  | Ok entries =>
      Forall (fun entry => exists b, isRegular fs entry (src d) = Ok b) entries
  | Err e => IsNotExist e = true /\ optional d = true
  end.

(** The number of nodes of a value, the measure for induction on it. *)
Fixpoint json_size (input : json) : nat :=
  match input with
  | JArr items => S (list_sum (map json_size items))
  | JObj fields =>
      S (map_fold (fun _ n acc => (n + acc)%nat) 0%nat (json_size <$> fields))
  | _ => 1%nat
  end.

(** What [containsRPM] finds: an object whose type is ["rpm"], reached
    through the elements of arrays and of [packages] arrays. *)
Inductive rpm_found : json -> Prop :=
| rpm_found_array data item :
    In item data -> rpm_found item -> rpm_found (JArr data)
| rpm_found_packages data packages item :
    packages_of data = Some packages -> In item packages -> rpm_found item ->
    rpm_found (JObj data)
| rpm_found_type data :
    is_rpm_type data = true -> rpm_found (JObj data).

(** A leaf match of the injection functions: as [rpm_found], but an
    object with a [packages] array is never itself the match. *)
Inductive leaf_match : json -> Prop :=
| leaf_match_array data item :
    In item data -> leaf_match item -> leaf_match (JArr data)
| leaf_match_packages data packages item :
    packages_of data = Some packages -> In item packages -> leaf_match item ->
    leaf_match (JObj data)
| leaf_match_leaf data :
    packages_of data = None -> is_rpm_type data = true -> leaf_match (JObj data).

(** A file system given by a table of resolved paths: a path not in the
    table does not exist. *)
Definition table_lookup {A : Type} (tbl : list (string * A)) (p : string)
    : result oserr A :=
  match find (fun e => String.eqb (fst e) p) tbl with
  | Some e => Ok (snd e)
  | None => Err ENOENT
  end.

(** A file system given by tables: the working directory, what
    [EvalSymlinks] resolves, what [ReadDir] lists and what [Stat] sees. *)
Definition table_fs (wd : string) (links : list (string * string))
    (dirs : list (string * list DirEntry)) (stats : list (string * FileMode))
    : FileSys :=
  {| getwd := Ok wd;
     EvalSymlinks := table_lookup links;
     ReadDir := table_lookup dirs;
     Stat := table_lookup stats |}.

(** ** Example inputs *)

(** The escape of the design document: [/tmp/s/ctx] is a symbolic link to
    [/tmp/outside], which holds a Dockerfile. *)
Definition fs_escape : FileSys :=
  table_fs "/work"
    [ ("/tmp/s", "/tmp/s");
      ("/tmp/s/ctx/Dockerfile", "/tmp/outside/Dockerfile") ] [] [].

Definition opts_escape : DockerfileSearchOpts :=
  {| SourceDir := "/tmp/s"; ContextDir := "ctx"; Dockerfile := "" |}.

(** A source tree with both default names in both places. *)
Definition fs_both : FileSys :=
  table_fs "/work"
    [ ("/tmp/s", "/tmp/s");
      ("/tmp/s/ctx/Containerfile", "/tmp/s/ctx/Containerfile");
      ("/tmp/s/Containerfile", "/tmp/s/Containerfile");
      ("/tmp/s/ctx/Dockerfile", "/tmp/s/ctx/Dockerfile");
      ("/tmp/s/Dockerfile", "/tmp/s/Dockerfile") ] [] [].

Definition opts_both : DockerfileSearchOpts :=
  {| SourceDir := "/tmp/s"; ContextDir := "ctx"; Dockerfile := "" |}.

(** A source tree with no build file at all. *)
Definition fs_bare : FileSys :=
  table_fs "/work" [ ("/tmp/s", "/tmp/s") ] [] [].

(** A source tree whose context directory cannot be searched. *)
Definition fs_denied : FileSys :=
  {| getwd := Ok "/work";
     EvalSymlinks := fun p =>
       if String.eqb p "/tmp/s/ctx/Containerfile"
       then Err (EOther "permission denied")
       else table_lookup [ ("/tmp/s", "/tmp/s");
                           ("/tmp/s/Dockerfile", "/tmp/s/Dockerfile") ] p;
     ReadDir := fun _ => Err ENOENT;
     Stat := fun _ => Err ENOENT |}.

(** An auth file with a registry scope, a repository scope and the scope
    that a login to Docker Hub leaves behind. *)
Definition test_auths : RegistryAuths :=
  {| Auths := <["reg.io" := mkAuthEntry "reg.io token"]>
             (<["reg.io/foo/bar" := mkAuthEntry "reg.io-foo-bar token"]>
             (<["https://index.docker.io/v1/" := mkAuthEntry "index token"]> ∅)) |}.

(** A regular file and what [ReadDir] reports for it. *)
Definition file_entry (n : string) : DirEntry := {| Name := n; Type_ := 0%Z |}.

(** Secret directories: two directories of the same base name that both
    hold [token]; a Kubernetes secret volume, where [token] is a link to
    [..data/token] and [data] a link to the directory [..data]; and the
    working directory itself. *)
Definition fs_secrets : FileSys :=
  table_fs "/work" []
    [ ("/run/a/secret1", [ file_entry "token" ]);
      ("/run/b/secret1", [ file_entry "token" ]);
      ("/run/k8s", [ {| Name := "..data"; Type_ := ModeDir |};
                     {| Name := "data"; Type_ := ModeSymlink |};
                     {| Name := "token"; Type_ := ModeSymlink |} ]);
      (".", [ file_entry "token" ]) ]
    [ ("/run/k8s/data", Z.lor ModeDir 493%Z);
      ("/run/k8s/token", 420%Z) ].

Definition dir_a : secretDir :=
  {| src := "/run/a/secret1"; name := ""; optional := false |}.
Definition dir_b : secretDir :=
  {| src := "/run/b/secret1"; name := ""; optional := false |}.
Definition dir_k8s : secretDir :=
  {| src := "/run/k8s"; name := "custom"; optional := false |}.
Definition dir_cwd : secretDir :=
  {| src := "."; name := ""; optional := false |}.
Definition dir_missing (opt : bool) : secretDir :=
  {| src := "/nonexistent/path"; name := ""; optional := opt |}.

(** An rpm object that also carries a (here empty) [packages] array. *)
Definition rpm_with_packages : json :=
  JObj (<["type" := JStr "rpm"]> (<["packages" := JArr []]> ∅)).

(** An rpm object with ssl options and another option beside them. *)
Definition rpm_with_ssl : gmap string json :=
  <["type" := JStr "rpm"]>
  (<["options" := JObj (<["ssl" := JObj {["client_key" := JStr "old"]}]>
                        (<["dnf" := JObj ∅]> ∅))]> ∅).

(** An rpm object with an option but no ssl options. *)
Definition rpm_without_ssl : gmap string json :=
  <["type" := JStr "rpm"]>
  (<["options" := JObj (<["dnf" := JObj ∅]> ∅)]> ∅).

Definition new_ssl : gmap string json :=
  <["client_key" := JStr "new"]> (<["ca_bundle" := JStr "cb"]> ∅).

(** ** Further notions: paths *)

(** The base with the separator that precedes what lies below it. *)
Definition dir_prefix (b : string) : string :=
  if String.eqb b "/" then "/" else b +:+ "/".

(** No byte of the string is [sep]. *)
Definition lacks (sep : ascii) (s : string) : Prop :=
  string_forallb (fun c => negb (Ascii.eqb c sep)) s = true.

(** ** Further definitions: image names, tags and digests (pkg/common) *)

(** [strings.Index(s, string(sep))]: [None] stands for -1. *)
Fixpoint strings_Index (s : string) (sep : ascii) : option nat :=
  match s with
  | EmptyString => None
  | String c s' =>
      if Ascii.eqb c sep then Some 0%nat
      else match strings_Index s' sep with
           | Some i => Some (S i)
           | None => None
           end
  end.

(** [strings.Contains(s, substr)]. *)
Fixpoint strings_Contains (s substr : string) : bool :=
  strings_HasPrefix s substr
  || match s with
     | EmptyString => false
     | String _ s' => strings_Contains s' substr
     end.

(** The last byte of a string. *)
Fixpoint string_last (s : string) : option ascii :=
  match s with
  | EmptyString => None
  | String c EmptyString => Some c
  | String _ s' => string_last s'
  end.

(** The class [[a-z0-9]]. *)
Definition is_lower_alnum (c : ascii) : bool := in_range "a" "z" c || is_digit c.
(** The class [[a-z0-9_.-]]. *)
Definition is_part_char (c : ascii) : bool :=
  is_lower_alnum c || Ascii.eqb c "_" || Ascii.eqb c "." || Ascii.eqb c "-".
(** The class [[a-f0-9]]. *)
Definition is_lower_hex (c : ascii) : bool := in_range "a" "f" c || is_digit c.

(** [imagePartRegex.MatchString(s)] for
    [^[a-z0-9](?:[a-z0-9_.-]*[a-z0-9])?$]. *)
Definition match_imagePart (s : string) : bool :=
  match s with
  | EmptyString => false
  | String c rest =>
      is_lower_alnum c
      && (is_empty rest
          || (string_forallb is_part_char rest
              && match string_last rest with
                 | Some l => is_lower_alnum l
                 | None => false
                 end))
  end.

(** [imageRegistryAddressAndPortRegex.FindStringSubmatch(s)] for
    [^([a-z0-9](?:[a-z0-9_.-]*[a-z0-9])?)(?::(\d+))?$]: the two groups of
    a match (the second empty when there is no port), [None] for no match.
    No byte of the first group's class is a colon, so the port starts
    after the first colon. *)
Definition match_registry (s : string) : option (string * string) :=
  match strings_Index s ":" with
  | None => if match_imagePart s then Some (s, "") else None
  | Some i =>
      let address := string_take i s in
      let port := string_drop (S i) s in
      if match_imagePart address && negb (is_empty port)
         && string_forallb is_digit port
      then Some (address, port)
      else None
  end.

(** The value of a string of decimal digits. *)
Fixpoint digits_value (acc : N) (s : string) : N :=
  match s with
  | EmptyString => acc
  | String c s' =>
      digits_value (acc * 10 + N.of_nat (nat_of_ascii c - nat_of_ascii "0"))%N s'
  end.

(** [strconv.Atoi] on a string of digits, as the port check uses it:
    the check passes when the number is at most 65535 (a number too large
    for an [int] is an error, which fails the check as well). *)
Definition port_in_range (portString : string) : bool :=
  (digits_value 0 portString <=? 65535)%N.

(** isImageNameValid validates image name without tag and digest. *)
Definition IsImageNameValid (imageName : string) : bool :=
  if is_empty imageName then false
  else if (128 <? String.length imageName)%nat then false
  else if strings_Contains imageName "___"
          || strings_Contains imageName "//"
          || strings_Contains imageName ".."
          || strings_Contains imageName "--"
          || strings_Contains imageName "_."
          || strings_Contains imageName "._"
          || strings_Contains imageName "-."
          || strings_Contains imageName ".-"
          || strings_Contains imageName "-_"
          || strings_Contains imageName "_-"
  then false
  else
    match strings_Split slash imageName with
    | [] => false
    | [part] => match_imagePart part
    | first :: rest =>
        match match_registry first with
        | None => false
        | Some (registryAddress, portString) =>
            if negb (match_imagePart registryAddress) then false
            else if negb (is_empty portString) && negb (port_in_range portString)
            then false
            else forallb match_imagePart rest
        end
    end.

(** isTagValid validates image tag: [^[a-zA-Z0-9_][a-zA-Z0-9_.-]{0,127}$]. *)
Definition IsImageTagValid (tagName : string) : bool := is_tag tagName.

(** [^sha256:[a-f0-9]{64}$]. *)
Definition IsImageDigestValid (digest : string) : bool :=
  String.eqb (string_take 7 digest) "sha256:"
  && Nat.eqb (String.length (string_drop 7 digest)) 64
  && string_forallb is_lower_hex (string_drop 7 digest).

(** ** Further definitions: credentials (pkg/common) *)

Inductive CredentialError : Type :=
| DecodeError
| InvalidCredentialFormat.

(** ExtractCredentials extracts and returns username and password from
    argument authCred.  [decode] stands for
    [base64.StdEncoding.DecodeString]; [strings.SplitN(decoded, ":", 2)]
    has two parts exactly when [decoded] holds a colon, and then they are
    what is before and what is after the first one. *)
Definition ExtractCredentials (decode : string -> option string)
    (authCred : string) : result CredentialError (string * string) :=
  match decode authCred with
  | None => Err DecodeError
  | Some decoded =>
      match strings_Index decoded ":" with
      | None => Err InvalidCredentialFormat
      | Some i => Ok (string_take i decoded, string_drop (S i) decoded)
      end
  end.

(** ** Further definitions: pushing a Containerfile
       (pkg/commands/push_dockerfile.go) *)

(** [strings.Replace(s, string(old), string(new), 1)]. *)
Fixpoint replace_first (old new : ascii) (s : string) : string :=
  match s with
  | EmptyString => EmptyString
  | String c s' =>
      if Ascii.eqb c old then String new s'
      else String c (replace_first old new s')
  end.

(** [tagSuffixRegex], [^[a-zA-Z0-9._-]{1,57}$]. *)
Definition match_tagSuffix (s : string) : bool :=
  negb (is_empty s) && (String.length s <=? 57)%nat
  && string_forallb is_tag_char s.

Module PushContainerfile.

Record Params : Type := mkParams {
  ImageUrl : string;
  ImageDigest : string;
  Containerfile : string;
  Context : string;
  TagSuffix : string;
  ArtifactType : string;
  Source : string;
  ResultPathImageRef : string
}.

Inductive ParamError : Type :=
| InvalidImageName (imageName : string)
| InvalidImageDigest (digest : string)
| InvalidTagSuffix.

Definition generateContainerfileImageTag (params : Params) : string :=
  let digest := replace_first ":" "-" (ImageDigest params) in
  digest +:+ TagSuffix params.

(** [imageName] is the field that [Run] sets from the image URL before
    it validates. *)
Definition validateParams (imageName : string) (params : Params)
    : result ParamError unit :=
  if negb (IsImageNameValid imageName) then Err (InvalidImageName imageName)
  else if negb (IsImageDigestValid (ImageDigest params))
  then Err (InvalidImageDigest (ImageDigest params))
  else if negb (match_tagSuffix (TagSuffix params)) then Err InvalidTagSuffix
  else Ok tt.

End PushContainerfile.

(** ** Further definitions: parsing secret directories
       (pkg/commands/build.go) *)

(** [strings.Cut(s, string(sep))]. *)
Definition strings_Cut (s : string) (sep : ascii) : string * string * bool :=
  match strings_Index s sep with
  | Some i => (string_take i s, string_drop (S i) s, true)
  | None => (s, "", false)
  end.

Inductive SecretParseError : Type :=
| InvalidOptionalValue (value : string)
| InvalidAttribute (key : string).

Definition set_src (d : secretDir) (value : string) : secretDir :=
  {| src := value; name := name d; optional := optional d |}.
Definition set_name (d : secretDir) (value : string) : secretDir :=
  {| src := src d; name := value; optional := optional d |}.
Definition set_optional (d : secretDir) (value : bool) : secretDir :=
  {| src := src d; name := name d; optional := value |}.

(** The loop [for _, kv := range keyValues] of [parseSecretDirs].
    [TrimSpace] is [strings.TrimSpace]. *)
Fixpoint parse_keyValues (TrimSpace : string -> string) (keyValues : list string)
    (d : secretDir) : result SecretParseError secretDir :=
  match keyValues with
  | [] => Ok d
  | kv :: rest =>
      let '(key, value, hasSep) := strings_Cut kv "=" in
      let key := TrimSpace key in
      let value := TrimSpace value in
      let value := if hasSep then value else key in
      let key := if hasSep then key else "src" in
      if String.eqb key "src" then
        parse_keyValues TrimSpace rest (set_src d value)
      else if String.eqb key "name" then
        parse_keyValues TrimSpace rest (set_name d value)
      else if String.eqb key "optional" then
        if String.eqb value "true" then
          parse_keyValues TrimSpace rest (set_optional d true)
        else if String.eqb value "false" then
          parse_keyValues TrimSpace rest (set_optional d false)
        else Err (InvalidOptionalValue value)
      else Err (InvalidAttribute key)
  end.

(** The loop [for _, arg := range secretDirArgs]; [secretDirs] is the
    slice appended to. *)
Fixpoint parse_args (TrimSpace : string -> string) (secretDirArgs : list string)
    (secretDirs : list secretDir) : result SecretParseError (list secretDir) :=
  match secretDirArgs with
  | [] => Ok secretDirs
  | arg :: rest =>
      let keyValues := strings_Split "," arg in
      match parse_keyValues TrimSpace keyValues
              {| src := ""; name := ""; optional := false |} with
      | Err e => Err e
      | Ok d => parse_args TrimSpace rest (secretDirs ++ [d])%list
      end
  end.

Definition parseSecretDirs (TrimSpace : string -> string)
    (secretDirArgs : list string) : result SecretParseError (list secretDir) :=
  parse_args TrimSpace secretDirArgs [].

(** The argument syntax in full, as the command documents it:
    [src=DIR_PATH,name=ALIAS,optional=true|false]. *)
Definition secretDir_arg (d : secretDir) : string :=
  "src=" +:+ src d +:+ ",name=" +:+ name d
  +:+ ",optional=" +:+ (if optional d then "true" else "false").

(** [strings.TrimSpace] for a string of ASCII bytes: the white space
    [\t \n \v \f \r] and the blank are cut off both ends. *)
Definition is_ascii_space (c : ascii) : bool :=
  (Nat.leb 9 (nat_of_ascii c) && Nat.leb (nat_of_ascii c) 13)
  || Nat.eqb (nat_of_ascii c) 32.

Fixpoint trim_left (s : string) : string :=
  match s with
  | EmptyString => EmptyString
  | String c s' => if is_ascii_space c then trim_left s' else s
  end.

Fixpoint trim_right (s : string) : string :=
  match s with
  | EmptyString => EmptyString
  | String c s' =>
      match trim_right s' with
      | EmptyString => if is_ascii_space c then EmptyString else String c EmptyString
      | t => String c t
      end
  end.

Definition ascii_TrimSpace (s : string) : string := trim_right (trim_left s).

(** [os.Getwd] returns an absolute path. *)
Definition getwd_absolute (fs : FileSys) : Prop :=
  forall wd, getwd fs = Ok wd -> filepath_IsAbs wd = true.

(** ** Further definitions: the buildah wrapper (pkg/cliwrappers) *)

Module Buildah.

(** Represents a buildah --volume argument:
    HOST-DIR:CONTAINER-DIR[:OPTIONS] *)
Record BuildahVolume : Type := mkBuildahVolume {
  HostDir : string;
  ContainerDir : string;
  Options : string
}.

Record BuildahBuildArgs : Type := mkBuildahBuildArgs {
  Containerfile : string;
  ContextDir : string;
  OutputRef : string;
  Secrets : list BuildahSecret;
  Volumes : list BuildahVolume;
  ExtraArgs : list string
}.

Inductive BuildahError : Type :=
| ContainerfileEmpty
| ContextDirEmpty
| OutputRefEmpty
| ColonInSource (hostDir : string)
| ColonInTarget (containerDir : string)
| AbsolutePathError (path baseDir : string) (e : oserr).

(** [strings.ContainsRune(s, ':')]. *)
Definition has_colon (s : string) : bool :=
  match strings_Index s ":" with
  | Some _ => true
  | None => false
  end.

(** The loop over the volumes of [Validate]. *)
Fixpoint validate_volumes (volumes : list BuildahVolume) : option BuildahError :=
  match volumes with
  | [] => None
  | volume :: rest =>
      if has_colon (HostDir volume) then Some (ColonInSource (HostDir volume))
      else if has_colon (ContainerDir volume)
      then Some (ColonInTarget (ContainerDir volume))
      else validate_volumes rest
  end.

(** Check that the build arguments are valid, e.g. required arguments
    are set.  [None] is the nil error. *)
Definition Validate (args : BuildahBuildArgs) : option BuildahError :=
  if is_empty (Containerfile args) then Some ContainerfileEmpty
  else if is_empty (ContextDir args) then Some ContextDirEmpty
  else if is_empty (OutputRef args) then Some OutputRefEmpty
  else validate_volumes (Volumes args).

(** The closure [ensureAbsolute] of [MakePathsAbsolute]: the new value
    of the path, or the error (the path is then left as it was). *)
Definition ensureAbsolute (fs : FileSys) (baseDir path : string)
    : result BuildahError string :=
  if filepath_IsAbs path then Ok path
  else match filepath_Abs fs (filepath_Join [baseDir; path]) with
       | Err e => Err (AbsolutePathError path baseDir e)
       | Ok abspath => Ok abspath
       end.

(** The loop [for i := range args.Secrets]: the slice after the loop
    (written up to the element that failed) and the error. *)
Fixpoint absolute_secrets (fs : FileSys) (baseDir : string)
    (secrets : list BuildahSecret) : list BuildahSecret * option BuildahError :=
  match secrets with
  | [] => ([], None)
  | secret :: rest =>
      match ensureAbsolute fs baseDir (Src secret) with
      | Err e => (secret :: rest, Some e)
      | Ok abspath =>
          let '(rest', err) := absolute_secrets fs baseDir rest in
          ({| Src := abspath; Id := Id secret |} :: rest', err)
      end
  end.

(** The loop [for i := range args.Volumes]. *)
Fixpoint absolute_volumes (fs : FileSys) (baseDir : string)
    (volumes : list BuildahVolume) : list BuildahVolume * option BuildahError :=
  match volumes with
  | [] => ([], None)
  | volume :: rest =>
      match ensureAbsolute fs baseDir (HostDir volume) with
      | Err e => (volume :: rest, Some e)
      | Ok abspath =>
          let '(rest', err) := absolute_volumes fs baseDir rest in
          ({| HostDir := abspath; ContainerDir := ContainerDir volume;
              Options := Options volume |} :: rest', err)
      end
  end.

(** Make all paths (containerfile, context dir, secret files, ...)
    absolute.  The arguments are written in place: what is returned is
    their state when the method returns, and its error. *)
Definition MakePathsAbsolute (fs : FileSys) (baseDir : string)
    (args : BuildahBuildArgs) : BuildahBuildArgs * option BuildahError :=
  match ensureAbsolute fs baseDir (Containerfile args) with
  | Err e => (args, Some e)
  | Ok containerfile =>
      let args1 := {| Containerfile := containerfile; ContextDir := ContextDir args;
                      OutputRef := OutputRef args; Secrets := Secrets args;
                      Volumes := Volumes args; ExtraArgs := ExtraArgs args |} in
      match ensureAbsolute fs baseDir (ContextDir args1) with
      | Err e => (args1, Some e)
      | Ok contextDir =>
          let '(secrets, err) := absolute_secrets fs baseDir (Secrets args1) in
          let args2 := {| Containerfile := containerfile; ContextDir := contextDir;
                          OutputRef := OutputRef args; Secrets := secrets;
                          Volumes := Volumes args; ExtraArgs := ExtraArgs args |} in
          match err with
          | Some e => (args2, Some e)
          | None =>
              let '(volumes, err) := absolute_volumes fs baseDir (Volumes args2) in
              ({| Containerfile := containerfile; ContextDir := contextDir;
                  OutputRef := OutputRef args; Secrets := secrets;
                  Volumes := volumes; ExtraArgs := ExtraArgs args |}, err)
          end
      end
  end.

(** The [--volume] argument of a volume. *)
Definition volumeArg (volume : BuildahVolume) : string :=
  let volumeArg := HostDir volume +:+ ":" +:+ ContainerDir volume in
  if negb (is_empty (Options volume)) then volumeArg +:+ ":" +:+ Options volume
  else volumeArg.

(** The arguments that [Build] runs buildah with. *)
Definition buildahArgs (args : BuildahBuildArgs) : list string :=
  (["build"; "--file"; Containerfile args; "--tag"; OutputRef args]
   ++ map (fun secret => "--secret=" +:+ ("src=" +:+ Src secret +:+ ",id=" +:+ Id secret))
          (Secrets args)
   ++ map (fun volume => "--volume=" +:+ volumeArg volume) (Volumes args)
   ++ ExtraArgs args
   ++ [ContextDir args])%list.

End Buildah.

(** Build arguments with relative paths, as the build command forms
    them in the context directory. *)
Definition build_args_relative : Buildah.BuildahBuildArgs :=
  {| Buildah.Containerfile := "Containerfile";
     Buildah.ContextDir := ".";
     Buildah.OutputRef := "quay.io/konflux-ci/foo:latest";
     Buildah.Secrets := [ {| Src := "secrets/token"; Id := "secrets/token" |};
                          {| Src := "/run/k8s/token"; Id := "custom/token" |} ];
     Buildah.Volumes := [ {| Buildah.HostDir := "."; Buildah.ContainerDir := "/workdir";
                             Buildah.Options := "z" |} ];
     Buildah.ExtraArgs := ["--layers"] |}.

(** ** Further notions: the packages that the injections rewrite *)

(** [leaf_of input leaf]: the object [leaf] is a leaf match in [input], an
    object of type ["rpm"] without a [packages] array, reached through
    the elements of arrays and of [packages] arrays. *)
Inductive leaf_of : json -> gmap string json -> Prop :=
| leaf_of_array data item leaf :
    In item data -> leaf_of item leaf -> leaf_of (JArr data) leaf
| leaf_of_packages data packages item leaf :
    packages_of data = Some packages -> In item packages -> leaf_of item leaf ->
    leaf_of (JObj data) leaf
| leaf_of_leaf data :
    packages_of data = None -> is_rpm_type data = true -> leaf_of (JObj data) data.

(** The traversal that [injectSummaryInSBOMField] and [injectSSLOptions]
    share, with the rewriting of a leaf left open. *)
Fixpoint map_leaves (f : gmap string json -> gmap string json) (input : json) : json :=
  match input with
  | JArr data => JArr (map (map_leaves f) data)
  | JObj data =>
      match packages_of data with
      | Some _ =>
          JObj (<["packages" := default JNull ((map_leaves f <$> data) !! "packages")]> data)
      | None => if is_rpm_type data then JObj (f data) else input
      end
  | _ => input
  end.

(** A rewriting of leaves that leaves them leaves. *)
Definition keeps_leaf (f : gmap string json -> gmap string json) : Prop :=
  forall data, packages_of data = None -> is_rpm_type data = true ->
    packages_of (f data) = None /\ is_rpm_type (f data) = true.

Definition set_summary_flag (data : gmap string json) : gmap string json :=
  <["include_summary_in_sbom" := JBool true]> data.

(** ** Further definitions: the run of the push of a Containerfile *)

(** A call of [OrasClient.Push], with the repository and the credentials
    that [NewRepository] is given. *)
Record PushCall : Type := mkPushCall {
  push_imageRepo : string;
  push_username : string;
  push_password : string;
  push_tag : string;
  push_localFilePath : string;
  push_artifactType : string
}.

(** The errors of [Run]; [E] is the type of the errors of the oras client
    and of the results writer. *)
Inductive PushRunError (E : Type) : Type :=
| RunParamError (e : PushContainerfile.ParamError)
| RunGetwdError (e : oserr)
| RunSearchError (e : SearchError)
| RunAuthError (e : AuthError)
| RunCredentialError (e : CredentialError)
| RunAbsError (containerfilePath : string) (e : oserr)
| RunPushError (containerfilePath : string) (e : E)
| RunResultsJsonError (e : E)
| RunWriteResultError (e : E).
Arguments RunParamError {E} e.
Arguments RunGetwdError {E} e.
Arguments RunSearchError {E} e.
Arguments RunAuthError {E} e.
Arguments RunCredentialError {E} e.
Arguments RunAbsError {E} containerfilePath e.
Arguments RunPushError {E} containerfilePath e.
Arguments RunResultsJsonError {E} e.
Arguments RunWriteResultError {E} e.

(** [Run] of the push of a Containerfile: the call of the oras client
    that it makes, if any, the image reference of the results, and the
    error.  [defaultAuthFile] is what [GetDefaultAuthFile] returns;
    [Push] is the outcome of [OrasClient.Push]; [CreateResultJson] and
    [WriteResultString] are those of the results writer. *)
Definition PushContainerfile_Run {E : Type} (fs : FileSys)
    (readAuthFile : string -> result oserr RegistryAuths) (defaultAuthFile : string)
    (decode : string -> option string)
    (Push : PushCall -> result E string)
    (CreateResultJson : string -> result E string)
    (WriteResultString : string -> string -> option E)
    (params : PushContainerfile.Params)
    : option PushCall * string * option (PushRunError E) :=
  let imageUrl := PushContainerfile.ImageUrl params in
  let imageName := GetImageName imageUrl in
  match PushContainerfile.validateParams imageName params with
  | Err e => (None, "", Some (RunParamError e))
  | Ok _ =>
  match getwd fs with
  | Err e => (None, "", Some (RunGetwdError e))
  | Ok curDir =>
  match SearchDockerfile fs
          {| SourceDir := PushContainerfile.Source params;
             ContextDir := PushContainerfile.Context params;
             Dockerfile := PushContainerfile.Containerfile params |} with
  | Err e => (None, "", Some (RunSearchError e))
  | Ok containerfilePath =>
  if is_empty containerfilePath then (None, "", None)
  else
  match SelectRegistryAuth readAuthFile imageUrl defaultAuthFile with
  | Err e => (None, "", Some (RunAuthError e))
  | Ok registryAuth =>
  match ExtractCredentials decode (Token registryAuth) with
  | Err e => (None, "", Some (RunCredentialError e))
  | Ok (username, password) =>
  let tag := PushContainerfile.generateContainerfileImageTag params in
  match filepath_Abs fs containerfilePath with
  | Err e => (None, "", Some (RunAbsError containerfilePath e))
  | Ok absContainerfilePath =>
  let call := {| push_imageRepo := imageName; push_username := username;
                 push_password := password; push_tag := tag;
                 push_localFilePath := absContainerfilePath;
                 push_artifactType := PushContainerfile.ArtifactType params |} in
  match Push call with
  | Err e => (Some call, "", Some (RunPushError containerfilePath e))
  | Ok digest =>
  let artifactImageRef := imageName +:+ "@" +:+ digest in
  match CreateResultJson artifactImageRef with
  | Err e => (Some call, artifactImageRef, Some (RunResultsJsonError e))
  | Ok _ =>
  if negb (is_empty (PushContainerfile.ResultPathImageRef params)) then
    match WriteResultString artifactImageRef
            (PushContainerfile.ResultPathImageRef params) with
    | Some e => (Some call, artifactImageRef, Some (RunWriteResultError e))
    | None => (Some call, artifactImageRef, None)
    end
  else (Some call, artifactImageRef, None)
  end end end end end end end end.

(** ** Further definitions: the parameters of the build command *)

Module Build.

Inductive ParamError : Type :=
| InvalidOutputRef (outputRef : string)
| ContextDoesNotExist (context : string)
| ContextStatError (e : oserr)
| ContextNotDirectory (context : string).

(** [validateParams], of the output reference and the context directory
    of the parameters.  [None] is the nil error. *)
Definition validateParams (fs : FileSys) (OutputRef Context : string) : option ParamError :=
  if negb (IsImageNameValid (GetImageName OutputRef))
  then Some (InvalidOutputRef OutputRef)
  else match Stat fs Context with
       | Err e =>
           if IsNotExist e then Some (ContextDoesNotExist Context)
           else Some (ContextStatError e)
       | Ok stat =>
           if negb (IsDir stat) then Some (ContextNotDirectory Context) else None
       end.


(** [platforms.DefaultSpec()]. *)
Record Platform : Type := mkPlatform {
  OS : string;
  Architecture : string;
  Variant : string
}.

(** The built-in ARG variables.  [Format] is [platforms.Format]. *)
Definition builtin_args (Format : Platform -> string) (platform : Platform)
    : gmap string string :=
  <["TARGETPLATFORM" := Format platform]>
    (<["TARGETOS" := OS platform]>
       (<["TARGETARCH" := Architecture platform]>
          (<["TARGETVARIANT" := Variant platform]>
             (<["BUILDPLATFORM" := Format platform]>
                (<["BUILDOS" := OS platform]>
                   (<["BUILDARCH" := Architecture platform]>
                      (<["BUILDVARIANT" := Variant platform]> ∅))))))).

(** The body of the loop over the [--build-args]. *)
Definition set_build_arg (LookupEnv : string -> option string)
    (args : gmap string string) (arg : string) : gmap string string :=
  let '(key, value, hasValue) := strings_Cut arg "=" in
  if hasValue then <[key := value]> args
  else match LookupEnv key with
       | Some valueFromEnv => <[key := valueFromEnv]> args
       | None => args
       end.

(** The map [args] of [createBuildArgExpander] when the expander is
    made.  [ParseBuildArgFile] is [buildargs.ParseBuildArgFile],
    [LookupEnv] is [os.LookupEnv]. *)
Definition build_arg_map {E : Type} (Format : Platform -> string) (platform : Platform)
    (ParseBuildArgFile : string -> result E (gmap string string))
    (LookupEnv : string -> option string)
    (BuildArgsFile : string) (BuildArgs : list string)
    : result E (gmap string string) :=
  let args := builtin_args Format platform in
  match (if negb (is_empty BuildArgsFile) then
           match ParseBuildArgFile BuildArgsFile with
           | Err e => Err e
           | Ok fileArgs => Ok (fileArgs ∪ args)
           end
         else Ok args) with
  | Err e => Err e
  | Ok args => Ok (fold_left (set_build_arg LookupEnv) BuildArgs args)
  end.

(** The expander over a map of build args: the value of a build arg, or
    the name that is not defined. *)
Definition argExp (args : gmap string string) (word : string) : result string string :=
  match args !! word with
  | Some value => Ok value
  | None => Err word
  end.

Definition createBuildArgExpander {E : Type} (Format : Platform -> string)
    (platform : Platform)
    (ParseBuildArgFile : string -> result E (gmap string string))
    (LookupEnv : string -> option string)
    (BuildArgsFile : string) (BuildArgs : list string)
    : result E (string -> result string string) :=
  match build_arg_map Format platform ParseBuildArgFile LookupEnv BuildArgsFile
          BuildArgs with
  | Err e => Err e
  | Ok args => Ok (argExp args)
  end.

(** The name that a [--build-args] entry sets, if it sets one. *)
Definition build_arg_key (arg : string) : string := fst (fst (strings_Cut arg "=")).


Inductive DetectError : Type :=
| ContainerfileNotFound (Containerfile : string)
| NoContainerfileInContext (Context : string).

(** [stat, err := os.Stat(path); err == nil && !stat.IsDir()]. *)
Definition is_file (fs : FileSys) (path : string) : bool :=
  match Stat fs path with
  | Ok stat => negb (IsDir stat)
  | Err _ => false
  end.

(** The loop of the auto-detection. *)
Fixpoint detect_candidates (fs : FileSys) (Context : string) (candidates : list string)
    : option string :=
  match candidates with
  | [] => None
  | candidate :: rest =>
      let candidatePath := filepath_Join [Context; candidate] in
      if is_file fs candidatePath then Some candidatePath
      else detect_candidates fs Context rest
  end.

(** [detectContainerfile]: the containerfile path that it sets, or the
    error. *)
Definition detectContainerfile (fs : FileSys) (Containerfile Context : string)
    : result DetectError string :=
  if negb (is_empty Containerfile) then
    if is_file fs Containerfile then Ok Containerfile
    else
      let fallbackPath := filepath_Join [Context; Containerfile] in
      if is_file fs fallbackPath then Ok fallbackPath
      else Err (ContainerfileNotFound Containerfile)
  else
    match detect_candidates fs Context ["Containerfile"; "Dockerfile"] with
    | Some candidatePath => Ok candidatePath
    | None => Err (NoContainerfileInContext Context)
    end.

(** The paths at which a containerfile is looked for, in order. *)
Definition containerfile_places (Containerfile Context : string) : list string :=
  if is_empty Containerfile
  then [ filepath_Join [Context; "Containerfile"]; filepath_Join [Context; "Dockerfile"] ]
  else [ Containerfile; filepath_Join [Context; Containerfile] ].

End Build.

(** ** Further definitions: the apply-tags command *)

Module ApplyTags.

Record ApplyTagsParams : Type := mkApplyTagsParams {
  ImageUrl : string;
  Digest : string;
  NewTags : list string;
  LabelWithTags : string
}.

(** The errors of [Run]; [E] is the type of the errors of skopeo and of
    the results writer. *)
Inductive ApplyTagsError (E : Type) : Type :=
| InvalidImage (imageName : string)
| InvalidDigest (digest : string)
| InvalidTag (tag : string)
| InvalidLabelName (imageLabelName : string)
| InspectError (e : E)
| InvalidTagFromLabel (tag : string)
| CopyError (e : E)
| ResultsError (e : E).
Arguments InvalidImage {E} imageName.
Arguments InvalidDigest {E} digest.
Arguments InvalidTag {E} tag.
Arguments InvalidLabelName {E} imageLabelName.
Arguments InspectError {E} e.
Arguments InvalidTagFromLabel {E} tag.
Arguments CopyError {E} e.
Arguments ResultsError {E} e.

(** The class [[/._-]]. *)
Definition is_label_separator (c : ascii) : bool :=
  Ascii.eqb c "/" || Ascii.eqb c "." || Ascii.eqb c "_" || Ascii.eqb c "-".

(** The class [[a-z0-9/._-]]. *)
Definition is_label_char (c : ascii) : bool :=
  in_range "a" "z" c || is_digit c || is_label_separator c.

(** [doubleSeparatorRegex.MatchString(s)] for [[/._-]{2}]: two
    separators side by side somewhere in [s]. *)
Fixpoint match_doubleSeparator (s : string) : bool :=
  match s with
  | String a ((String b _) as rest) =>
      (is_label_separator a && is_label_separator b) || match_doubleSeparator rest
  | _ => false
  end.

(** [imageLabelNameRegex.MatchString(s)] for
    [^[a-z](?:[a-z0-9/._-]*[a-z])$]. *)
Definition match_imageLabelName (s : string) : bool :=
  match s with
  | EmptyString => false
  | String c rest =>
      in_range "a" "z" c
      && string_forallb is_label_char rest
      && match string_last rest with
         | Some l => in_range "a" "z" l
         | None => false
         end
  end.

(** isImageLabelNameValid checks if label key for docker image is
    valid. *)
Definition isImageLabelNameValid (imageLabelName : string) : bool :=
  if (String.length imageLabelName =? 0)%nat
     || (256 <? String.length imageLabelName)%nat
  then false
  else if match_doubleSeparator imageLabelName then false
  else match_imageLabelName imageLabelName.

(** [validateParams], with the image name that [Run] has set. *)
Definition validateParams {E : Type} (params : ApplyTagsParams) (imageName : string)
    : option (ApplyTagsError E) :=
  if negb (IsImageNameValid imageName) then Some (InvalidImage imageName)
  else if negb (IsImageDigestValid (Digest params)) then Some (InvalidDigest (Digest params))
  else match find (fun tag => negb (IsImageTagValid tag)) (NewTags params) with
       | Some tag => Some (InvalidTag tag)
       | None =>
           if negb (is_empty (LabelWithTags params))
              && negb (isImageLabelNameValid (LabelWithTags params))
           then Some (InvalidLabelName (LabelWithTags params))
           else None
       end.

(** The class [[\s,]]: tab, line feed, form feed, carriage return,
    space, and the comma. *)
Definition is_tag_separator (c : ascii) : bool :=
  Ascii.eqb c "009" || Ascii.eqb c "010" || Ascii.eqb c "012" || Ascii.eqb c "013"
  || Ascii.eqb c " " || Ascii.eqb c ",".

(** [tagSeparatorRegex.Split(s, -1)] for [[\s,]+]: the pieces of [s]
    between the longest runs of separators.  [inSeparator] tells that the
    byte before was a separator. *)
Fixpoint tagSeparator_Split (inSeparator : bool) (s : string) : list string :=
  match s with
  | EmptyString => [EmptyString]
  | String c s' =>
      if is_tag_separator c then
        if inSeparator then tagSeparator_Split true s'
        else EmptyString :: tagSeparator_Split true s'
      else match tagSeparator_Split false s' with
           | piece :: pieces => String c piece :: pieces
           | [] => [String c EmptyString]
           end
  end.

(** [retrieveTagsFromImageLabel].  [Inspect imageRef labelName] is the
    outcome of inspecting [imageRef] with skopeo for the value of the
    label. *)
Definition retrieveTagsFromImageLabel {E : Type}
    (Inspect : string -> string -> result E string) (TrimSpace : string -> string)
    (imageByDigest labelName : string) : result E (list string) :=
  match Inspect imageByDigest labelName with
  | Err e => Err e
  | Ok tagsLabelValue =>
      let tagsLabelValue := TrimSpace tagsLabelValue in
      if is_empty tagsLabelValue then Ok []
      else Ok (tagSeparator_Split false tagsLabelValue)
  end.

(** [applyTags]: the copies asked of skopeo, as pairs of a source and a
    destination, and the error.  [Copy source destination] is the outcome
    of the copy. *)
Fixpoint applyTags {E : Type} (Copy : string -> string -> option E)
    (imageName imageByDigest : string) (tags : list string)
    : list (string * string) * option E :=
  match tags with
  | [] => ([], None)
  | tag :: rest =>
      let DestinationImage := imageName +:+ ":" +:+ tag in
      match Copy imageByDigest DestinationImage with
      | Some e => ([(imageByDigest, DestinationImage)], Some e)
      | None =>
          let '(copies, err) := applyTags Copy imageName imageByDigest rest in
          ((imageByDigest, DestinationImage) :: copies, err)
      end
  end.

(** Run executes the command logic: the copies asked of skopeo, the tags
    of the results, and the error. *)
Definition Run {E : Type} (Inspect : string -> string -> result E string)
    (Copy : string -> string -> option E) (TrimSpace : string -> string)
    (CreateResultJson : list string -> result E string) (params : ApplyTagsParams)
    : list (string * string) * list string * option (ApplyTagsError E) :=
  let imageName := GetImageName (ImageUrl params) in
  match validateParams params imageName with
  | Some err => ([], [], Some err)
  | None =>
      let imageByDigest := imageName +:+ "@" +:+ Digest params in
      let fromLabel : result (ApplyTagsError E) (list string) :=
        if negb (is_empty (LabelWithTags params)) then
          match retrieveTagsFromImageLabel Inspect TrimSpace imageByDigest
                  (LabelWithTags params) with
          | Err e => Err (InspectError e)
          | Ok tagsFromLabel =>
              match find (fun tag => negb (IsImageTagValid tag)) tagsFromLabel with
              | Some tag => Err (InvalidTagFromLabel tag)
              | None => Ok tagsFromLabel
              end
          end
        else Ok [] in
      match fromLabel with
      | Err err => ([], [], Some err)
      | Ok tagsFromLabel =>
          let tags := (NewTags params ++ tagsFromLabel)%list in
          match applyTags Copy imageName imageByDigest tags with
          | (copies, Some e) => (copies, [], Some (CopyError e))
          | (copies, None) =>
              match CreateResultJson tags with
              | Ok _ => (copies, tags, None)
              | Err e => (copies, tags, Some (ResultsError e))
              end
          end
      end
  end.

End ApplyTags.

(** ** Further definitions: the input of the prefetch command *)

(** [strings.HasSuffix(s, suffix)]. *)
Definition strings_HasSuffix (s suffix : string) : bool :=
  (String.length suffix <=? String.length s)%nat
  && String.eqb (string_drop (String.length s - String.length suffix) s) suffix.

Module PrefetchDependencies.

Inductive RPMInputError (E : Type) : Type :=
| RegisterError (e : E)
| NoEntitlementFiles.
Arguments RegisterError {E} e.
Arguments NoEntitlementFiles {E}.

(** The loop over the entitlement files: the client key path and the
    client cert path after it, both empty before it. *)
Definition entitlement_paths (entitlementFiles : list string) : string * string :=
  fold_left
    (fun '(clientKeyPath, clientCertPath) file =>
       if strings_HasSuffix file "-key.pem" then (file, clientCertPath)
       else (clientKeyPath, file))
    entitlementFiles ("", "").

Definition rhsmCaBundlePath : string := "/etc/rhsm/ca/redhat-uep.pem".

(** Modify the user input for RPM packages.  [register] is
    [registerSubscriptionManager], whose outcome is that of the
    subscription-manager command; [Glob] is [filepath.Glob]. *)
Definition injectRPMInput {E : Type} (register : string -> string -> option E)
    (Glob : string -> list string) (input : json)
    (rhsmOrgPath rhsmActivationKeyPath : string) : json * option (RPMInputError E) :=
  let withSummary := injectSummaryInSBOMField input in
  if is_empty rhsmOrgPath || is_empty rhsmActivationKeyPath then (withSummary, None)
  else match register rhsmOrgPath rhsmActivationKeyPath with
       | Some e => (withSummary, Some (RegisterError e))
       | None =>
           let entitlementFiles := Glob "/etc/pki/entitlement/*.pem" in
           let '(clientKeyPath, clientCertPath) := entitlement_paths entitlementFiles in
           if is_empty clientKeyPath || is_empty clientCertPath
           then (withSummary, Some NoEntitlementFiles)
           else
             let ssl : gmap string json :=
               <["client_key" := JStr clientKeyPath]>
                 (<["client_cert" := JStr clientCertPath]>
                    (<["ca_bundle" := JStr rhsmCaBundlePath]> ∅)) in
             (injectSSLOptions withSummary ssl, None)
       end.


(** The line feed that [dropGoProxyFrom] splits and joins at. *)
Definition newline : ascii := "010"%char.
Definition tab : string := String "009"%char "".

(** The loop over the lines of [dropGoProxyFrom]: the lines appended to
    [modifiedConfigFileContent], from the state [inGomodBlock]. *)
Fixpoint dropGoProxy_loop (TrimSpace : string -> string) (inGomodBlock : bool)
    (lines : list string) : list string :=
  match lines with
  | [] => []
  | line :: rest =>
      let trimmed := TrimSpace line in
      if strings_HasPrefix trimmed "goproxy_url:"
      then dropGoProxy_loop TrimSpace inGomodBlock rest
      else if strings_HasPrefix trimmed "gomod:"
      then line :: dropGoProxy_loop TrimSpace true rest
      else if inGomodBlock then
        if negb (strings_HasPrefix line " ") && negb (strings_HasPrefix line tab)
        then line :: dropGoProxy_loop TrimSpace false rest
        else if strings_HasPrefix trimmed "proxy_url:"
        then dropGoProxy_loop TrimSpace inGomodBlock rest
        else line :: dropGoProxy_loop TrimSpace inGomodBlock rest
      else line :: dropGoProxy_loop TrimSpace inGomodBlock rest
  end.

(** What [dropGoProxyFrom] writes for the content it has read. *)
Definition dropGoProxy_content (TrimSpace : string -> string) (configFileContent : string)
    : string :=
  strings_Join
    (dropGoProxy_loop TrimSpace false (strings_Split newline configFileContent))
    (String newline "").

(** Temporarily drop Go proxy URL.  The files are a map from paths to
    contents: reading a path that is not there fails, and [write_error]
    tells whether writing a path fails. *)
Definition dropGoProxyFrom (TrimSpace : string -> string)
    (write_error : string -> option oserr)
    (files : gmap string string) (configFile : string)
    : gmap string string * option oserr :=
  if is_empty configFile then (files, None)
  else match files !! configFile with
       | None => (files, Some ENOENT)
       | Some configFileContent =>
           match write_error configFile with
           | Some e => (files, Some e)
           | None =>
               (<[configFile := dropGoProxy_content TrimSpace configFileContent]> files,
                None)
           end
       end.

End PrefetchDependencies.

(** The entitlement files of a registered system. *)
Definition entitlement_glob (pattern : string) : list string :=
  [ "/etc/pki/entitlement/42-key.pem"; "/etc/pki/entitlement/42.pem" ].

(** A registration that succeeds. *)
Definition register_ok (rhsmOrgPath rhsmActivationKeyPath : string) : option unit := None.

(** An input with two rpm packages and a package of another type. *)
Definition rpm_input : json :=
  JObj (<["packages" := JArr [ JObj rpm_with_ssl; JObj {["type" := JStr "gomod"]};
                               JObj rpm_without_ssl ]]> ∅).

(** A configuration file with both proxy settings. *)
Definition config_content : string :=
  strings_Join [ "gomod:"; "  proxy_url: https://example.com"; "  foo: bar";
                 "goproxy_url: https://example.com" ]
    (String PrefetchDependencies.newline "").

Definition config_files : gmap string string := {[ "/config.yaml" := config_content ]}.

Definition config_files_dropped : gmap string string :=
  {[ "/config.yaml" :=
       strings_Join ["gomod:"; "  foo: bar"] (String PrefetchDependencies.newline "") ]}.

Definition write_ok (path : string) : option oserr := None.

(** A file system in which the context directory ["app"] exists. *)
Definition fs_context : FileSys :=
  table_fs "/work" [] [] [("app", ModeDir)].

(** A run of apply-tags with one tag given and two tags in the label of
    the image; skopeo and the results writer succeed. *)
Definition apply_tags_params : ApplyTags.ApplyTagsParams :=
  {| ApplyTags.ImageUrl := "quay.io/konflux-ci/foo:build";
     ApplyTags.Digest :=
       "sha256:0123456789abcdef0123456789abcdef0123456789abcdef0123456789abcdef";
     ApplyTags.NewTags := ["v1"];
     ApplyTags.LabelWithTags := "konflux.additional-tags" |}.

Definition apply_tags_run
    : list (string * string) * list string * option (ApplyTags.ApplyTagsError unit) :=
  ApplyTags.Run (fun _ _ => Ok " v2, latest ") (fun _ _ => None) ascii_TrimSpace
    (fun _ => Ok "{}") apply_tags_params.

(** A push of the Containerfile found in [fs_both], with the credentials
    of [test_auths]; the oras client and the results writer succeed. *)
Definition push_run_params : PushContainerfile.Params :=
  {| PushContainerfile.ImageUrl := "reg.io/foo/bar:latest";
     PushContainerfile.ImageDigest :=
       "sha256:0123456789abcdef0123456789abcdef0123456789abcdef0123456789abcdef";
     PushContainerfile.Containerfile := "";
     PushContainerfile.Context := "ctx";
     PushContainerfile.TagSuffix := ".containerfile";
     PushContainerfile.ArtifactType := "application/vnd.konflux.containerfile";
     PushContainerfile.Source := "/tmp/s";
     PushContainerfile.ResultPathImageRef := "" |}.

Definition push_run
    : option PushCall * string * option (PushRunError unit) :=
  PushContainerfile_Run fs_both (fun _ => Ok test_auths) "/home/user/.docker/config.json"
    (fun _ => Some "user:pass:word") (fun _ => Ok "sha256:feed") (fun _ => Ok "{}")
    (fun _ _ => None) push_run_params.

(** The call of the oras client that [push_run] makes. *)
Definition push_run_call : PushCall :=
  {| push_imageRepo := "reg.io/foo/bar";
     push_username := "user";
     push_password := "pass:word";
     push_tag :=
       "sha256-0123456789abcdef0123456789abcdef0123456789abcdef0123456789abcdef.containerfile";
     push_localFilePath := "/tmp/s/ctx/Containerfile";
     push_artifactType := "application/vnd.konflux.containerfile" |}.

(** Build args from a file, from the command line and from the
    environment. *)
Definition build_args_file (path : string) : result unit (gmap string string) :=
  Ok (<["VERSION" := "1"]> (<["TARGETOS" := "plan9"]> ∅)).

Definition build_env (key : string) : option string :=
  if String.eqb key "HOME" then Some "/root" else None.

Definition build_platform : Build.Platform :=
  {| Build.OS := "linux"; Build.Architecture := "amd64"; Build.Variant := "" |}.

Definition build_expander : string -> result string string :=
  match Build.createBuildArgExpander (fun p => Build.OS p +:+ "/" +:+ Build.Architecture p)
          build_platform build_args_file build_env "build-args.conf"
          ["VERSION=2"; "HOME"; "VERSION=3=x"] with
  | Ok expander => expander
  | Err _ => fun word => Err word
  end.

(** Parameters of a push with the default tag suffix. *)
Definition push_params : PushContainerfile.Params :=
  {| PushContainerfile.ImageUrl := "quay.io/konflux-ci/foo:latest";
     PushContainerfile.ImageDigest :=
       "sha256:0123456789abcdef0123456789abcdef0123456789abcdef0123456789abcdef";
     PushContainerfile.Containerfile := "";
     PushContainerfile.Context := ".";
     PushContainerfile.TagSuffix := ".containerfile";
     PushContainerfile.ArtifactType := "application/vnd.konflux.containerfile";
     PushContainerfile.Source := "source";
     PushContainerfile.ResultPathImageRef := "" |}.

(** An auth file as [test_auths] with one more scope, of another
    registry. *)
Definition test_auths_more : RegistryAuths :=
  {| Auths := <["quay.io/konflux-ci" := mkAuthEntry "quay token"]> (Auths test_auths) |}.

(* ===================================================================== *)
(** * Part II: properties                                                 *)
(* ===================================================================== *)

Example Clean_examples :
  filepath_Clean "" = "." /\
  filepath_Clean "/" = "/" /\
  filepath_Clean "a//b/./c/.." = "a/b" /\
  filepath_Clean "/../a/" = "/a" /\
  filepath_Clean "../../a/.." = "../.." /\
  filepath_Clean "a/.." = ".".
Proof. repeat split; reflexivity. Qed.

Example Rel_examples :
  filepath_Rel "/a" "/a/b/c" = Some "b/c" /\
  filepath_Rel "/a" "/b/c" = Some "../b/c" /\
  filepath_Rel "/a" "./b/c" = None /\
  filepath_Rel "/a/b/c/d" "/a/b" = Some "../.." /\
  filepath_Rel "a/b" "c/d" = Some "../../c/d" /\
  filepath_Rel "." "a/b" = Some "a/b" /\
  filepath_Rel ".." "a" = None /\
  filepath_Rel "/" "/a" = Some "a" /\
  filepath_Rel "/a" "/" = Some ".." /\
  filepath_Rel "/a/b" "/a/b" = Some ".".
Proof. repeat split; reflexivity. Qed.

Example Base_examples :
  filepath_Base "" = "." /\ filepath_Base "/" = "/" /\
  filepath_Base "/a/b/" = "b" /\ filepath_Base "." = "." /\
  filepath_Base "secret1" = "secret1".
Proof. repeat split; reflexivity. Qed.

Example Join_examples :
  filepath_Join ["/s"; "."; "./Containerfile"] = "/s/Containerfile" /\
  filepath_Join ["/s"; "../Dockerfile"] = "/Dockerfile" /\
  filepath_Join [""; ""] = "" /\
  filepath_Join ["."; "token"] = "token".
Proof. repeat split; reflexivity. Qed.

Example GetImageName_examples :
  GetImageName "quay.io/foo:0.1" = "quay.io/foo" /\
  GetImageName "quay.io/konflux-ci/foo:0.3@sha256:0123456789abcdef0123456789abcdef0123456789abcdef0123456789abcdef"
    = "quay.io/konflux-ci/foo" /\
  GetImageName "localhost:5000/foo" = "localhost:5000/foo" /\
  GetImageName "reg.io" = "reg.io".
Proof. repeat split; vm_compute; reflexivity. Qed.

Example findAuth_examples :
  findAuth test_auths "reg.io/foo/bar/baz" = "reg.io-foo-bar token" /\
  findAuth test_auths "reg.io/foo/qux" = "reg.io token" /\
  findAuth test_auths "docker.io/library/x" = "index token" /\
  findAuth test_auths "quay.io/x" = "".
Proof. repeat split; vm_compute; reflexivity. Qed.

(** ** Splitting and joining on the separator *)

Lemma strings_Split_nonempty sep s : strings_Split sep s <> [].
Proof.
  destruct s as [|c s]; simpl; [discriminate|].
  destruct (Ascii.eqb c sep); [discriminate|].
  destruct (strings_Split sep s); discriminate.
Qed.

Lemma strings_Join_cons e l sep :
  l <> [] -> strings_Join (e :: l) sep = e +:+ sep +:+ strings_Join l sep.
Proof. destruct l; [congruence | reflexivity]. Qed.

Lemma strings_Join_Split s : strings_Join (strings_Split slash s) "/" = s.
Proof.
  induction s as [|c s IH]; [reflexivity|]. simpl.
  destruct (Ascii.eqb_spec c slash) as [->|Hc].
  - rewrite strings_Join_cons by apply strings_Split_nonempty.
    simpl. now rewrite IH.
  - pose proof (strings_Split_nonempty slash s) as Hne.
    destruct (strings_Split slash s) as [|h t]; [congruence|].
    rewrite <- IH. destruct t; reflexivity.
Qed.

Lemma strings_Split_no_slash s : Forall no_slash (strings_Split slash s).
Proof.
  induction s as [|c s IH]; simpl.
  - repeat constructor.
  - destruct (Ascii.eqb_spec c slash) as [->|Hc].
    + constructor; [reflexivity | exact IH].
    + destruct (strings_Split slash s) as [|h t]; [repeat constructor|].
      * unfold no_slash. simpl. destruct (Ascii.eqb_spec c slash); [congruence | reflexivity].
      * inversion IH as [|? ? Hh Ht]; subst. constructor; [|exact Ht].
        unfold no_slash in *. simpl.
        destruct (Ascii.eqb_spec c slash); [congruence | exact Hh].
Qed.

Lemma strings_Split_single e : no_slash e -> strings_Split slash e = [e].
Proof.
  unfold no_slash. induction e as [|c e IH]; simpl; [reflexivity|].
  intros H. apply andb_prop in H as [Hc He].
  apply negb_true_iff in Hc. rewrite Hc, (IH He). reflexivity.
Qed.

Lemma strings_Split_app e s :
  no_slash e ->
  strings_Split slash (e +:+ "/" +:+ s) = e :: strings_Split slash s.
Proof.
  unfold no_slash. induction e as [|c e IH]; simpl; [reflexivity|].
  intros H. apply andb_prop in H as [Hc He].
  apply negb_true_iff in Hc. rewrite Hc. simpl in IH. rewrite (IH He). reflexivity.
Qed.

Lemma strings_Split_Join l :
  l <> [] -> Forall no_slash l -> strings_Split slash (strings_Join l "/") = l.
Proof.
  induction l as [|e l IH]; [congruence|]. intros _ Hall.
  inversion Hall as [|? ? He Hl]; subst.
  destruct l as [|e' l].
  - simpl. now apply strings_Split_single.
  - rewrite strings_Join_cons by discriminate.
    rewrite strings_Split_app by exact He.
    f_equal. apply IH; [discriminate | exact Hl].
Qed.

(** ** Canonical paths *)

Lemma is_normal_elem_inv e :
  is_normal_elem e = true -> is_empty e = false /\ is_dot e = false /\ is_dotdot e = false.
Proof.
  unfold is_normal_elem. intros H. apply negb_true_iff in H.
  apply orb_false_iff in H as [H H3]. apply orb_false_iff in H as [H1 H2]. auto.
Qed.

Lemma canonical_segs s :
  is_canonical s = true ->
  exists segs, s = "/" +:+ strings_Join segs "/"
    /\ Forall no_slash segs /\ forallb is_normal_elem segs = true.
Proof.
  destruct s as [|c rest]; simpl; [discriminate|]. intros H.
  apply andb_prop in H as [Hc H]. apply Ascii.eqb_eq in Hc. subst c.
  apply orb_prop in H as [H|H].
  - apply String.eqb_eq in H. subst rest. exists []. repeat split; constructor.
  - exists (strings_Split slash rest). split; [|split].
    + now rewrite strings_Join_Split.
    + apply strings_Split_no_slash.
    + exact H.
Qed.

Lemma clean_elems_normal rooted out segs :
  forallb is_normal_elem segs = true ->
  clean_elems rooted out segs = (rev out ++ segs)%list.
Proof.
  revert out. induction segs as [|e segs IH]; intros out H; simpl.
  - now rewrite app_nil_r.
  - simpl in H. apply andb_prop in H as [He H].
    apply is_normal_elem_inv in He as (H1 & H2 & H3).
    rewrite H1, H2, H3. simpl. rewrite (IH _ H). simpl.
    now rewrite <- app_assoc.
Qed.

Lemma Split_render segs :
  segs <> [] -> Forall no_slash segs ->
  strings_Split slash ("/" +:+ strings_Join segs "/") = "" :: segs.
Proof.
  intros Hne Hall.
  change (strings_Split slash ("/" +:+ strings_Join segs "/"))
    with ("" :: strings_Split slash (strings_Join segs "/")).
  now rewrite strings_Split_Join.
Qed.

Lemma Clean_render segs :
  Forall no_slash segs -> forallb is_normal_elem segs = true ->
  filepath_Clean ("/" +:+ strings_Join segs "/") = "/" +:+ strings_Join segs "/".
Proof.
  intros Hall Hnorm. destruct segs as [|e segs]; [reflexivity|].
  unfold filepath_Clean.
  change (is_empty ("/" +:+ strings_Join (e :: segs) "/")) with false.
  change (strings_HasPrefix ("/" +:+ strings_Join (e :: segs) "/") "/") with true.
  cbv iota. rewrite Split_render by (discriminate || assumption).
  change (clean_elems true [] ("" :: e :: segs)) with (clean_elems true [] (e :: segs)).
  now rewrite clean_elems_normal.
Qed.

Lemma rel_elems_render segs :
  Forall no_slash segs -> forallb is_normal_elem segs = true ->
  rel_elems ("/" +:+ strings_Join segs "/") = "" :: segs.
Proof.
  intros Hall Hnorm. destruct segs as [|e segs]; [reflexivity|].
  unfold rel_elems. rewrite Split_render by (discriminate || assumption).
  change (rev ("" :: e :: segs)) with (rev (e :: segs) ++ [""])%list.
  destruct (rev (e :: segs)) as [|x r] eqn:Hrev.
  - apply (f_equal (@rev string)) in Hrev. rewrite rev_involutive in Hrev. discriminate.
  - assert (Hin : In x (e :: segs)).
    { apply in_rev. rewrite Hrev. now left. }
    rewrite forallb_forall in Hnorm. apply Hnorm in Hin.
    apply is_normal_elem_inv in Hin as (H1 & _). simpl. now rewrite H1.
Qed.

Lemma strip_common_spec bs ts brem trem :
  strip_common bs ts = (brem, trem) ->
  exists common, bs = (common ++ brem)%list /\ ts = (common ++ trem)%list.
Proof.
  revert ts. induction bs as [|b bs IH]; intros ts H.
  - exists []. simpl in H. destruct ts; inversion H; auto.
  - destruct ts as [|t ts]; simpl in H.
    + exists []. inversion H; auto.
    + destruct (String.eqb_spec b t) as [->|Hne].
      * destruct (IH _ H) as (common & -> & ->). now exists (t :: common).
      * exists []. inversion H; auto.
Qed.

Lemma HasPrefix_Join_dotdot l :
  strings_HasPrefix (strings_Join (".." :: l) "/") ".." = true.
Proof. destruct l; reflexivity. Qed.

Lemma string_app_assoc (a b c : string) : (a +:+ b) +:+ c = a +:+ (b +:+ c).
Proof. induction a as [|x a IH]; simpl; [reflexivity | now rewrite IH]. Qed.

Lemma strings_Join_app l1 l2 :
  l1 <> [] -> l2 <> [] ->
  strings_Join (l1 ++ l2) "/" = strings_Join l1 "/" +:+ "/" +:+ strings_Join l2 "/".
Proof.
  intros H1 H2. induction l1 as [|e l1 IH]; [congruence|].
  destruct l1 as [|e' l1].
  - simpl app. now rewrite strings_Join_cons.
  - change ((e :: e' :: l1) ++ l2)%list with (e :: ((e' :: l1) ++ l2))%list.
    rewrite strings_Join_cons by discriminate.
    rewrite IH by discriminate.
    rewrite (strings_Join_cons e (e' :: l1)) by discriminate.
    now rewrite !string_app_assoc.
Qed.

Lemma strings_Join_nonempty l :
  l <> [] -> forallb is_normal_elem l = true -> strings_Join l "/" <> "".
Proof.
  destruct l as [|e l]; [congruence|]. intros _ H. simpl in H.
  apply andb_prop in H as [He _]. apply is_normal_elem_inv in He as (He & _).
  apply String.eqb_neq in He.
  destruct l; simpl; [exact He|]. destruct e; [congruence | discriminate].
Qed.

(** The check accepts only what is the base or below it. *)
Lemma isRelativeTo_sound p b :
  is_canonical p = true -> is_canonical b = true ->
  isRelativeTo p b = true -> under p b.
Proof.
  intros Hp Hb.
  destruct (canonical_segs _ Hp) as (ps & -> & Hps & Hpn).
  destruct (canonical_segs _ Hb) as (bs & -> & Hbs & Hbn).
  unfold isRelativeTo, filepath_Rel.
  rewrite !Clean_render by assumption.
  destruct (String.eqb_spec ("/" +:+ strings_Join ps "/") ("/" +:+ strings_Join bs "/"))
    as [Heq|Hneq]; [intros _; now left|].
  change (is_dot ("/" +:+ strings_Join bs "/")) with false. cbv iota.
  change (strings_HasPrefix ("/" +:+ strings_Join bs "/") "/") with true.
  change (strings_HasPrefix ("/" +:+ strings_Join ps "/") "/") with true.
  cbn [Bool.eqb negb]. rewrite !rel_elems_render by assumption.
  cbn [strip_common String.eqb].
  destruct (strip_common bs ps) as [brem trem] eqn:Hstrip.
  apply strip_common_spec in Hstrip as (common & -> & ->).
  destruct brem as [|b0 brem].
  - intros _. rewrite app_nil_r in *. right.
    destruct trem as [|t trem]; [rewrite app_nil_r in Hneq; congruence|].
    exists (strings_Join (t :: trem) "/"). split.
    + apply strings_Join_nonempty; [discriminate|].
      rewrite forallb_app in Hpn. now apply andb_prop in Hpn as [_ ?].
    + destruct common as [|c common]; [reflexivity|].
      replace (String.eqb ("/" +:+ strings_Join (c :: common) "/") "/") with false.
      * rewrite strings_Join_app by discriminate.
        simpl. now rewrite !string_app_assoc.
      * symmetry. apply String.eqb_neq. intros H.
        change (String slash (strings_Join (c :: common) "/") = String slash "") in H.
        injection H as H.
        exact (strings_Join_nonempty (c :: common) ltac:(discriminate) Hbn H).
  - destruct trem as [|t trem].
    + change (repeat ".." (S (length brem))) with (".." :: repeat ".." (length brem)).
      now rewrite HasPrefix_Join_dotdot.
    + destruct (is_dotdot b0); [discriminate|].
      change (repeat ".." (S (length brem)) ++ t :: trem)%list
        with (".." :: (repeat ".." (length brem) ++ t :: trem))%list.
      now rewrite HasPrefix_Join_dotdot.
Qed.

(** ** The Dockerfile search *)

Lemma table_lookup_canonical links :
  forallb (fun e => is_canonical (snd e)) links = true ->
  forall p q, table_lookup links p = Ok q -> is_canonical q = true.
Proof.
  intros Hall p q. unfold table_lookup.
  destruct (find _ links) as [e|] eqn:Hfind; [|discriminate].
  intros [= <-]. apply find_some in Hfind as [Hin _].
  rewrite forallb_forall in Hall. exact (Hall _ Hin).
Qed.

Lemma table_fs_canonical wd links dirs stats :
  forallb (fun e => is_canonical (snd e)) links = true ->
  fs_canonical (table_fs wd links dirs stats).
Proof. intros H p q. now apply table_lookup_canonical. Qed.

Lemma canonical_not_empty q : is_canonical q = true -> is_empty q = false.
Proof. destruct q; [discriminate | reflexivity]. Qed.

Lemma search_paths_first_hit fs boundary dockerfile paths :
  search_paths fs boundary dockerfile paths
  = first_hit fs boundary (map (fun p => (dockerfile, p)) paths).
Proof.
  induction paths as [|p paths IH]; [reflexivity|]. simpl.
  destruct (EvalSymlinks fs p) as [q|[|msg]]; simpl.
  - now destruct (isRelativeTo q boundary).
  - exact IH.
  - reflexivity.
Qed.

Lemma _search_first_hit fs boundary contextDir dockerfile :
  _search fs boundary contextDir dockerfile
  = first_hit fs boundary (two_candidates boundary contextDir dockerfile).
Proof. unfold _search. now rewrite search_paths_first_hit. Qed.

(** A search that finds nothing in its first candidates goes on with the
    others; one that is decided there is decided. *)
Lemma first_hit_app fs boundary l1 l2 :
  fs_canonical fs ->
  first_hit fs boundary (l1 ++ l2)
  = match first_hit fs boundary l1 with
    | Ok p => if is_empty p then first_hit fs boundary l2 else Ok p
    | Err e => Err e
    end.
Proof.
  intros Hfs. induction l1 as [|[n p] l1 IH]; simpl.
  - now destruct (first_hit fs boundary l2).
  - destruct (EvalSymlinks fs p) as [q|[|msg]] eqn:Hq; [|exact IH|reflexivity].
    destruct (isRelativeTo q boundary); [|reflexivity].
    now rewrite (canonical_not_empty _ (Hfs _ _ Hq)).
Qed.

Lemma search_names_first_hit fs boundary contextDir names :
  fs_canonical fs ->
  search_names fs boundary contextDir names
  = first_hit fs boundary (flat_map (two_candidates boundary contextDir) names).
Proof.
  intros Hfs. induction names as [|n names IH]; [reflexivity|].
  cbn [search_names flat_map]. rewrite first_hit_app by exact Hfs.
  rewrite _search_first_hit, IH.
  destruct (first_hit fs boundary (two_candidates boundary contextDir n)) as [p|e];
    [|reflexivity].
  now destruct (is_empty p).
Qed.

(** [SearchDockerfile], once the source directory is resolved, is the
    first hit among its candidates. *)
Lemma SearchDockerfile_first_hit fs opts boundary :
  fs_canonical fs -> resolveSource fs opts = Ok boundary ->
  SearchDockerfile fs opts = first_hit fs boundary (candidates opts boundary).
Proof.
  intros Hfs Hsrc. unfold SearchDockerfile, candidates. rewrite Hsrc.
  destruct (is_empty (Dockerfile opts)).
  - now rewrite search_names_first_hit.
  - apply _search_first_hit.
Qed.

Lemma first_hit_absent fs boundary pre rest :
  Forall (absent fs) pre ->
  first_hit fs boundary (pre ++ rest) = first_hit fs boundary rest.
Proof.
  induction 1 as [|[n p] pre Hp _ IH]; [reflexivity|].
  simpl. unfold absent in Hp. simpl in Hp. now rewrite Hp.
Qed.

Lemma first_hit_contained fs boundary cands p :
  fs_canonical fs -> is_canonical boundary = true ->
  first_hit fs boundary cands = Ok p -> p = "" \/ under p boundary.
Proof.
  intros Hfs Hb. induction cands as [|[n c] cands IH]; simpl.
  - intros [= <-]. now left.
  - destruct (EvalSymlinks fs c) as [q|[|msg]] eqn:Hq; [|exact IH|discriminate].
    destruct (isRelativeTo q boundary) eqn:Hrel; [|discriminate].
    intros [= <-]. right. apply isRelativeTo_sound; eauto.
Qed.

Lemma resolveSource_canonical fs opts boundary :
  fs_canonical fs -> resolveSource fs opts = Ok boundary ->
  is_canonical boundary = true.
Proof.
  intros Hfs. unfold resolveSource.
  destruct (is_empty (SourceDir opts)); [discriminate|].
  destruct (filepath_Abs fs (SourceDir opts)) as [a|e]; [|discriminate].
  destruct (EvalSymlinks fs a) as [q|e] eqn:Hq; [|discriminate].
  intros [= <-]. eauto.
Qed.

(** C5 (as the code has it).  [isRelativeTo] rejects a path that lies below
    the base when the first element below the base begins with two dots:
    for the canonical paths [/src/..data/Containerfile] and [/src] the
    relative path is [..data/Containerfile], which has the prefix [..], so
    the check answers false although the path is a descendant of the
    base. *)
Theorem isRelativeTo_dotdot_name :
  is_canonical "/src/..data/Containerfile" = true
  /\ is_canonical "/src" = true
  /\ filepath_Rel "/src" "/src/..data/Containerfile" = Some "..data/Containerfile"
  /\ under "/src/..data/Containerfile" "/src"
  /\ isRelativeTo "/src/..data/Containerfile" "/src" = false.
Proof.
  repeat split; try reflexivity.
  right. exists "..data/Containerfile". split; [discriminate | reflexivity].
Qed.

(** C1 (amended).  Once the source directory is resolved to [boundary]:
    a build file that [SearchDockerfile] returns is the boundary or lies
    below it, and when the candidate that decides the search (every
    candidate before it is absent) exists but resolves to a path that is
    not the boundary and not below it, the search fails with the escape
    error, which carries the name the file was asked under and the
    boundary, and returns no path. *)
Theorem SearchDockerfile_contained fs opts boundary :
  fs_canonical fs -> resolveSource fs opts = Ok boundary ->
  (forall p, SearchDockerfile fs opts = Ok p -> p = "" \/ under p boundary)
  /\ (forall pre dockerfile path rest q,
        candidates opts boundary = (pre ++ (dockerfile, path) :: rest)%list ->
        Forall (absent fs) pre ->
        EvalSymlinks fs path = Ok q ->
        ~ under q boundary ->
        SearchDockerfile fs opts = Err (NotUnderSource dockerfile boundary)).
Proof.
  intros Hfs Hsrc.
  pose proof (resolveSource_canonical _ _ _ Hfs Hsrc) as Hb.
  rewrite (SearchDockerfile_first_hit _ _ _ Hfs Hsrc). split.
  - intros p. now apply first_hit_contained.
  - intros pre dockerfile path rest q -> Hpre Hq Hout.
    rewrite first_hit_absent by exact Hpre. simpl. rewrite Hq.
    destruct (isRelativeTo q boundary) eqn:Hrel; [|reflexivity].
    exfalso. apply Hout. apply isRelativeTo_sound; eauto.
Qed.

(** C1, at the escape of the design document: the search fails with the
    escape error for [./Dockerfile]. *)
Lemma SearchDockerfile_contained_witness :
  SearchDockerfile fs_escape opts_escape
  = Err (NotUnderSource "./Dockerfile" "/tmp/s").
Proof.
  refine (proj2 (SearchDockerfile_contained fs_escape opts_escape "/tmp/s" _ _)
            [ ("./Containerfile", "/tmp/s/ctx/Containerfile");
              ("./Containerfile", "/tmp/s/Containerfile") ]
            "./Dockerfile" "/tmp/s/ctx/Dockerfile"
            [ ("./Dockerfile", "/tmp/s/Dockerfile") ]
            "/tmp/outside/Dockerfile" _ _ _ _).
  - apply table_fs_canonical. reflexivity.
  - reflexivity.
  - reflexivity.
  - repeat constructor.
  - reflexivity.
  - intros [H|(rest & _ & H)]; discriminate.
Defined.

(** C1 as stated fails on the payload of the error.  In the escape of
    the design document the candidate [/tmp/s/ctx/Dockerfile] resolves to
    [/tmp/outside/Dockerfile], outside [/tmp/s]; the error that comes back
    names [./Dockerfile], the file as it was asked for, and not the
    canonical path. *)
Lemma SearchDockerfile_escape_payload_counterexample :
  resolveSource fs_escape opts_escape = Ok "/tmp/s"
  /\ EvalSymlinks fs_escape "/tmp/s/ctx/Dockerfile" = Ok "/tmp/outside/Dockerfile"
  /\ ~ under "/tmp/outside/Dockerfile" "/tmp/s"
  /\ SearchDockerfile fs_escape opts_escape
     = Err (NotUnderSource "./Dockerfile" "/tmp/s")
  /\ SearchDockerfile fs_escape opts_escape
     <> Err (NotUnderSource "/tmp/outside/Dockerfile" "/tmp/s").
Proof.
  repeat split; try reflexivity.
  - intros [H|(rest & _ & H)]; discriminate.
  - discriminate.
Qed.

Lemma first_hit_decided fs boundary pre dockerfile path rest q :
  Forall (absent fs) pre ->
  EvalSymlinks fs path = Ok q -> isRelativeTo q boundary = true ->
  first_hit fs boundary (pre ++ (dockerfile, path) :: rest) = Ok q.
Proof.
  intros Hpre Hq Hrel. rewrite first_hit_absent by exact Hpre.
  simpl. now rewrite Hq, Hrel.
Qed.

(** C4.  Once the source directory is resolved to [boundary],
    [SearchDockerfile] is the search for the first existing candidate in
    a fixed order: for an explicit file, below the context directory and
    then below the source directory; with no explicit file, those two
    places for [./Containerfile] and then the same two for [./Dockerfile].
    So the first candidate in that order that exists and is contained is
    what is returned, whatever exists at the later ones. *)
Theorem SearchDockerfile_search_order fs opts boundary :
  fs_canonical fs -> resolveSource fs opts = Ok boundary ->
  let contextDir := contextDir_of opts in
  (Dockerfile opts <> "" ->
     SearchDockerfile fs opts
     = first_hit fs boundary
         [ (Dockerfile opts, filepath_Join [boundary; contextDir; Dockerfile opts]);
           (Dockerfile opts, filepath_Join [boundary; Dockerfile opts]) ])
  /\ (Dockerfile opts = "" ->
     SearchDockerfile fs opts
     = first_hit fs boundary
         [ ("./Containerfile", filepath_Join [boundary; contextDir; "./Containerfile"]);
           ("./Containerfile", filepath_Join [boundary; "./Containerfile"]);
           ("./Dockerfile", filepath_Join [boundary; contextDir; "./Dockerfile"]);
           ("./Dockerfile", filepath_Join [boundary; "./Dockerfile"]) ])
  /\ (forall pre dockerfile path rest q,
        candidates opts boundary = (pre ++ (dockerfile, path) :: rest)%list ->
        Forall (absent fs) pre ->
        EvalSymlinks fs path = Ok q -> isRelativeTo q boundary = true ->
        SearchDockerfile fs opts = Ok q).
Proof.
  intros Hfs Hsrc contextDir.
  rewrite (SearchDockerfile_first_hit _ _ _ Hfs Hsrc). unfold candidates.
  split; [|split].
  - intros Hne. apply String.eqb_neq in Hne. unfold is_empty. now rewrite Hne.
  - intros ->. reflexivity.
  - intros pre dockerfile path rest q -> Hpre Hq Hrel.
    now apply first_hit_decided.
Qed.

(** C4, where both names exist in both places: the Containerfile of the
    context directory is returned. *)
Lemma SearchDockerfile_search_order_witness :
  SearchDockerfile fs_both opts_both = Ok "/tmp/s/ctx/Containerfile".
Proof.
  refine (proj2 (proj2 (SearchDockerfile_search_order fs_both opts_both "/tmp/s" _ _))
            [] "./Containerfile" "/tmp/s/ctx/Containerfile"
            [ ("./Containerfile", "/tmp/s/Containerfile");
              ("./Dockerfile", "/tmp/s/ctx/Dockerfile");
              ("./Dockerfile", "/tmp/s/Dockerfile") ]
            "/tmp/s/ctx/Containerfile" _ _ _ _).
  - apply table_fs_canonical. reflexivity.
  - reflexivity.
  - reflexivity.
  - constructor.
  - reflexivity.
  - reflexivity.
Defined.

Lemma first_hit_all_absent fs boundary cands :
  Forall (absent fs) cands -> first_hit fs boundary cands = Ok "".
Proof.
  intros H. rewrite <- (app_nil_r cands). now rewrite first_hit_absent.
Qed.

Lemma first_hit_failure_not_empty fs boundary cands c e :
  fs_canonical fs ->
  In c cands -> EvalSymlinks fs (snd c) = Err e -> IsNotExist e = false ->
  first_hit fs boundary cands <> Ok "".
Proof.
  intros Hfs Hin He Hne. induction cands as [|[n p] cands IH]; [contradiction|].
  simpl. destruct (EvalSymlinks fs p) as [q|[|msg]] eqn:Hq.
  - destruct (isRelativeTo q boundary); [|discriminate].
    intros [= ->]. apply Hfs in Hq. discriminate.
  - destruct Hin as [<-|Hin]; [|now apply IH].
    simpl in He. rewrite Hq in He. injection He as <-. discriminate.
  - discriminate.
Qed.

(** C7.  Once the source directory is resolved: when no candidate
    exists, [SearchDockerfile] returns the empty path and no error; when
    the search comes to a candidate (every candidate before it is absent)
    whose symbolic links cannot be evaluated for another reason than that
    it does not exist, that failure is returned as the error; and a
    candidate failing so never makes the search answer "not found". *)
Theorem SearchDockerfile_not_found fs opts boundary :
  fs_canonical fs -> resolveSource fs opts = Ok boundary ->
  (Forall (absent fs) (candidates opts boundary) ->
     SearchDockerfile fs opts = Ok "")
  /\ (forall pre dockerfile path rest e,
        candidates opts boundary = (pre ++ (dockerfile, path) :: rest)%list ->
        Forall (absent fs) pre ->
        EvalSymlinks fs path = Err e -> IsNotExist e = false ->
        SearchDockerfile fs opts = Err (DockerfileSymlinkError path e))
  /\ (forall c e,
        In c (candidates opts boundary) ->
        EvalSymlinks fs (snd c) = Err e -> IsNotExist e = false ->
        SearchDockerfile fs opts <> Ok "").
Proof.
  intros Hfs Hsrc. rewrite (SearchDockerfile_first_hit _ _ _ Hfs Hsrc).
  split; [|split].
  - apply first_hit_all_absent.
  - intros pre dockerfile path rest e -> Hpre He Hne.
    rewrite first_hit_absent by exact Hpre. simpl. rewrite He.
    destruct e; [discriminate | reflexivity].
  - intros c e. now apply first_hit_failure_not_empty.
Qed.

Lemma fs_denied_canonical : fs_canonical fs_denied.
Proof.
  intros p q. simpl.
  destruct (String.eqb p "/tmp/s/ctx/Containerfile"); [discriminate|].
  now apply table_lookup_canonical.
Qed.

(** C7, on a source tree with no build file, and on one where the first
    candidate cannot be read although a Dockerfile exists further on. *)
Lemma SearchDockerfile_not_found_witness :
  SearchDockerfile fs_bare opts_both = Ok ""
  /\ SearchDockerfile fs_denied opts_both
     = Err (DockerfileSymlinkError "/tmp/s/ctx/Containerfile"
              (EOther "permission denied")).
Proof.
  split.
  - refine (proj1 (SearchDockerfile_not_found fs_bare opts_both "/tmp/s" _ _) _).
    + apply table_fs_canonical. reflexivity.
    + reflexivity.
    + repeat constructor.
  - refine (proj1 (proj2 (SearchDockerfile_not_found fs_denied opts_both "/tmp/s" _ _))
              [] "./Containerfile" "/tmp/s/ctx/Containerfile"
              [ ("./Containerfile", "/tmp/s/Containerfile");
                ("./Dockerfile", "/tmp/s/ctx/Dockerfile");
                ("./Dockerfile", "/tmp/s/Dockerfile") ]
              (EOther "permission denied") _ _ _ _).
    + exact fs_denied_canonical.
    + reflexivity.
    + reflexivity.
    + constructor.
    + reflexivity.
    + reflexivity.
Defined.

(** ** Registry credential selection *)

Example scopes_example :
  scopes "reg.io/foo/bar/baz"
  = ["reg.io/foo/bar/baz"; "reg.io/foo/bar"; "reg.io/foo"; "reg.io"].
Proof. reflexivity. Qed.

Lemma strings_LastIndex_None s :
  strings_LastIndex s slash = None -> no_slash s.
Proof.
  unfold no_slash. induction s as [|c s IH]; simpl; [reflexivity|].
  destruct (strings_LastIndex s slash); [discriminate|].
  destruct (Ascii.eqb c slash); [discriminate|]. intros _. now apply IH.
Qed.

(** Cutting at the last slash removes the last element. *)
Lemma strings_Split_LastIndex s i :
  strings_LastIndex s slash = Some i ->
  strings_Split slash s
  = (strings_Split slash (string_take i s) ++ [string_drop (S i) s])%list.
Proof.
  revert i. induction s as [|c s IH]; intros i; simpl; [discriminate|].
  destruct (strings_LastIndex s slash) as [j|] eqn:Hj.
  - intros [= <-]. rewrite (IH j eq_refl). simpl.
    destruct (Ascii.eqb c slash); [reflexivity|].
    pose proof (strings_Split_nonempty slash (string_take j s)) as Hne.
    destruct (strings_Split slash (string_take j s)); [congruence | reflexivity].
  - destruct (Ascii.eqb c slash) eqn:Hc; [|discriminate].
    intros [= <-]. simpl.
    rewrite (strings_Split_single s (strings_LastIndex_None _ Hj)).
    now destruct s.
Qed.

Lemma scopes_step s i :
  strings_LastIndex s slash = Some i ->
  scopes s = s :: scopes (string_take i s).
Proof.
  intros Hi. unfold scopes.
  pose proof (strings_Split_LastIndex _ _ Hi) as Hs.
  rewrite Hs at 1. rewrite rev_app_distr.
  change (rev [string_drop (S i) s] ++ rev (strings_Split slash (string_take i s)))%list
    with (string_drop (S i) s :: rev (strings_Split slash (string_take i s))).
  cbn [prefix_scopes]. f_equal.
  cbn [rev]. now rewrite rev_involutive, <- Hs, strings_Join_Split.
Qed.

Lemma scopes_single s :
  strings_LastIndex s slash = None -> scopes s = [s].
Proof.
  intros Hi. unfold scopes.
  now rewrite (strings_Split_single s (strings_LastIndex_None _ Hi)).
Qed.

(** The loop of [findAuth] is the first match among the scopes. *)
Lemma findAuth_loop_first_match auths authKey :
  findAuth_loop auths authKey = first_match auths (scopes authKey).
Proof.
  funelim (findAuth_loop auths authKey).
  - destruct (strings_LastIndex authKey slash) as [i|] eqn:Hi.
    + rewrite (scopes_step _ _ Hi). simpl. now rewrite Heq.
    + rewrite (scopes_single _ Hi). simpl. now rewrite Heq.
  - rewrite H, (scopes_step _ _ Hindex). simpl. now rewrite Heq.
  - rewrite (scopes_single _ e). simpl. now rewrite Heq.
Qed.

Lemma scopes_head s : exists shorter, scopes s = s :: shorter.
Proof.
  destruct (strings_LastIndex s slash) as [i|] eqn:Hi.
  - rewrite (scopes_step _ _ Hi). eauto.
  - rewrite (scopes_single _ Hi). eauto.
Qed.

Lemma prefix_scopes_last r e :
  List.last (prefix_scopes (r ++ [e])) "" = e.
Proof.
  induction r as [|x r IH]; [reflexivity|].
  change ((x :: r) ++ [e])%list with (x :: (r ++ [e]))%list.
  cbn [prefix_scopes]. destruct (prefix_scopes (r ++ [e])) eqn:Hp; [|exact IH].
  destruct r; discriminate.
Qed.

Lemma scopes_last s : List.last (scopes s) "" = first_segment s.
Proof.
  unfold scopes, first_segment.
  pose proof (strings_Split_nonempty slash s) as Hne.
  destruct (strings_Split slash s) as [|e l]; [congruence|].
  cbn [rev]. apply prefix_scopes_last.
Qed.

Lemma findAuth_matched registryAuths imageRepo :
  findAuth registryAuths imageRepo
  = default "" (matched_auth (Auths registryAuths) imageRepo).
Proof.
  unfold findAuth, matched_auth. rewrite findAuth_loop_first_match.
  destruct (first_match _ _); [reflexivity|].
  unfold registryDockerIO, registryIndexDockerIO.
  destruct (String.eqb _ _); [|reflexivity].
  now destruct (Auths registryAuths !! _).
Qed.

(** C2.  For an image reference whose repository path [imageRepo] (the
    reference without tag and digest) is not empty and an auth file that
    was loaded: the scopes looked up are [imageRepo] itself first and then
    each time the previous one without its last element, down to the first
    element, the registry; the auth string of the first scope that the
    file has is the match; only when none matches and the registry is
    docker.io is the scope [https://index.docker.io/v1/] tried; with no
    match [SelectRegistryAuth] fails with the error naming [imageRepo];
    and a result has the first element of [imageRepo] as registry and the
    matched auth string as token.  (A matched auth string that is empty is
    reported as not configured.) *)
Theorem SelectRegistryAuth_longest_prefix
    readAuthFile imageRef authFilePath registryAuths :
  let imageRepo := GetImageName imageRef in
  imageRepo <> "" ->
  readAuthFile authFilePath = Ok registryAuths ->
  (exists shorter, scopes imageRepo = imageRepo :: shorter)
  /\ List.last (scopes imageRepo) "" = first_segment imageRepo
  /\ (forall i key next,
        scopes imageRepo !! i = Some key -> scopes imageRepo !! S i = Some next ->
        exists index, strings_LastIndex key slash = Some index
                      /\ next = string_take index key)
  /\ SelectRegistryAuth readAuthFile imageRef authFilePath
     = match
         match first_match (Auths registryAuths) (scopes imageRepo) with
         | Some auth => Some auth
         | None =>
             if String.eqb (first_segment imageRepo) "docker.io"
             then Auth <$> Auths registryAuths !! "https://index.docker.io/v1/"
             else None
         end
       with
       | Some token =>
           if is_empty token then Err (AuthNotConfigured imageRepo)
           else Ok {| Registry := first_segment imageRepo; Token := token |}
       | None => Err (AuthNotConfigured imageRepo)
       end.
Proof.
  intros imageRepo Hrepo Hfile. split; [|split; [|split]].
  - apply scopes_head.
  - apply scopes_last.
  - generalize imageRepo. clear. intros s i. revert s.
    induction i as [|i IH]; intros s key next.
    + destruct (strings_LastIndex s slash) as [j|] eqn:Hj.
      * rewrite (scopes_step _ _ Hj). simpl. intros [= <-].
        destruct (scopes_head (string_take j s)) as (sh & ->).
        intros [= <-]. eauto.
      * rewrite (scopes_single _ Hj). discriminate.
    + destruct (strings_LastIndex s slash) as [j|] eqn:Hj.
      * rewrite (scopes_step _ _ Hj). simpl. apply IH.
      * rewrite (scopes_single _ Hj). discriminate.
  - unfold SelectRegistryAuth. fold imageRepo.
    apply String.eqb_neq in Hrepo. unfold is_empty at 1. rewrite Hrepo, Hfile.
    rewrite findAuth_matched. unfold matched_auth.
    destruct (first_match _ _) as [tok|]; [reflexivity|].
    destruct (String.eqb (first_segment imageRepo) "docker.io"); [|reflexivity].
    now destruct (Auths registryAuths !! "https://index.docker.io/v1/").
Qed.

(** C2, on the auth file with the scopes [reg.io] and [reg.io/foo/bar]:
    the repository scope is chosen for an image below it. *)
Lemma SelectRegistryAuth_longest_prefix_witness :
  SelectRegistryAuth (fun _ => Ok test_auths) "reg.io/foo/bar/baz:tag" "config.json"
  = Ok {| Registry := "reg.io"; Token := "reg.io-foo-bar token" |}.
Proof.
  destruct (SelectRegistryAuth_longest_prefix
              (fun _ => Ok test_auths) "reg.io/foo/bar/baz:tag" "config.json"
              test_auths ltac:(vm_compute; discriminate) eq_refl)
    as (_ & _ & _ & H).
  rewrite H. vm_compute. reflexivity.
Defined.

(** ** Secret directories *)

Lemma union_empty_list (B : gset string) : B = list_to_set [] ∪ B.
Proof. set_solver. Qed.

Lemma union_singleton_comm (A B : gset string) (x : string) :
  A ∪ ({[ x ]} ∪ B) = {[ x ]} ∪ A ∪ B.
Proof. set_solver. Qed.

Lemma union_singleton_list (l : list string) (B : gset string) (x : string) :
  list_to_set l ∪ ({[ x ]} ∪ B) = list_to_set (x :: l) ∪ B.
Proof. set_solver. Qed.

Lemma union_assoc_comm (A B C : gset string) : B ∪ (A ∪ C) = A ∪ B ∪ C.
Proof. set_solver. Qed.

Lemma process_entries_reads_ok fs d entries acc used :
  Forall (fun entry => exists b, isRegular fs entry (src d) = Ok b) entries ->
  let new := map (mapping_of d) (List.filter (is_accepted fs d) entries) in
  process_entries fs (src d) (idPrefix_of d) entries (acc, used)
  = match first_dup used (map Id new) with
    | Some id => Err (DuplicateSecretID id)
    | None => Ok ((acc ++ new)%list, list_to_set (map Id new) ∪ used)
    end.
Proof.
  intros Hok. revert acc used.
  induction entries as [|entry entries IH]; intros acc used.
  - simpl. rewrite app_nil_r. f_equal. f_equal. apply union_empty_list.
  - inversion Hok as [|? ? [b Hb] Hrest]; subst.
    assert (Hacc : is_accepted fs d entry = b).
    { unfold is_accepted. rewrite Hb. now destruct b. }
    cbn [process_entries List.filter]. rewrite Hb, Hacc.
    destruct b; [|apply IH; exact Hrest].
    cbn [map Id mapping_of first_dup fst snd].
    destruct (bool_decide _); [reflexivity|].
    rewrite (IH Hrest). cbv zeta.
    destruct (first_dup _ _); [reflexivity|].
    rewrite <- app_assoc. f_equal. f_equal. apply union_singleton_list.
Qed.

Lemma first_dup_app seen l1 l2 :
  first_dup seen (l1 ++ l2)
  = match first_dup seen l1 with
    | Some id => Some id
    | None => first_dup (list_to_set l1 ∪ seen) l2
    end.
Proof.
  revert seen. induction l1 as [|x l1 IH]; intros seen; simpl.
  - f_equal. apply union_empty_list.
  - destruct (bool_decide _); [reflexivity|]. rewrite IH.
    destruct (first_dup _ l1); [reflexivity|]. f_equal. apply union_singleton_list.
Qed.

Lemma process_dirs_reads_ok fs secretDirs acc used :
  Forall (reads_ok fs) secretDirs ->
  let new := expected_secrets fs secretDirs in
  process_dirs fs secretDirs (acc, used)
  = match first_dup used (map Id new) with
    | Some id => Err (DuplicateSecretID id)
    | None => Ok ((acc ++ new)%list, list_to_set (map Id new) ∪ used)
    end.
Proof.
  intros Hok. revert acc used.
  induction Hok as [|d ds Hd _ IH]; intros acc used; simpl.
  - rewrite app_nil_r. f_equal. f_equal. apply union_empty_list.
  - unfold reads_ok in Hd. unfold expected_secrets. cbn [flat_map].
    fold (expected_secrets fs ds). unfold listed at 1 2 3.
    destruct (ReadDir fs (src d)) as [entries|e].
    + rewrite (process_entries_reads_ok _ _ _ _ _ Hd). cbv zeta.
      rewrite map_app, first_dup_app.
      destruct (first_dup used _); [reflexivity|].
      rewrite IH. cbv zeta. destruct (first_dup _ _); [reflexivity|].
      rewrite <- app_assoc. f_equal. f_equal.
      rewrite list_to_set_app_L. apply union_assoc_comm.
    + destruct Hd as [-> ->]. simpl. apply IH.
Qed.

Lemma process_entries_ok fs d entries acc used acc' used' :
  process_entries fs (src d) (idPrefix_of d) entries (acc, used) = Ok (acc', used') ->
  let new := map (mapping_of d) (List.filter (is_accepted fs d) entries) in
  acc' = (acc ++ new)%list
  /\ used' = list_to_set (map Id new) ∪ used
  /\ first_dup used (map Id new) = None.
Proof.
  revert acc used. induction entries as [|entry entries IH]; intros acc used.
  - simpl. intros [= <- <-]. rewrite app_nil_r.
    split; [reflexivity|]. split; [apply union_empty_list | reflexivity].
  - cbn [process_entries List.filter].
    destruct (isRegular fs entry (src d)) as [b|e] eqn:Hb; [|discriminate].
    assert (Hacc : is_accepted fs d entry = b)
      by (unfold is_accepted; rewrite Hb; now destruct b).
    rewrite Hacc. destruct b; [|apply IH].
    cbn [fst snd]. destruct (bool_decide _) eqn:Hdup; [discriminate|].
    intros H. apply IH in H as (-> & -> & Hnone).
    cbn [map Id mapping_of first_dup]. rewrite Hdup.
    split; [now rewrite <- app_assoc|]. split; [apply union_singleton_list | exact Hnone].
Qed.

Lemma process_dirs_ok fs secretDirs acc used acc' used' :
  process_dirs fs secretDirs (acc, used) = Ok (acc', used') ->
  let new := expected_secrets fs secretDirs in
  acc' = (acc ++ new)%list
  /\ used' = list_to_set (map Id new) ∪ used
  /\ first_dup used (map Id new) = None.
Proof.
  revert acc used. induction secretDirs as [|d ds IH]; intros acc used.
  - simpl. intros [= <- <-]. rewrite app_nil_r.
    split; [reflexivity|]. split; [apply union_empty_list | reflexivity].
  - cbn [process_dirs]. unfold expected_secrets. cbn [flat_map].
    fold (expected_secrets fs ds). unfold listed at 1 2 3.
    destruct (ReadDir fs (src d)) as [entries|e].
    + destruct (process_entries fs (src d) (idPrefix_of d) entries (acc, used))
        as [[acc1 used1]|e] eqn:Hent; [|discriminate].
      apply process_entries_ok in Hent as (-> & -> & Hnone1).
      intros H. apply IH in H as (-> & -> & Hnone2).
      rewrite map_app, first_dup_app, Hnone1.
      split; [now rewrite <- app_assoc|]. split; [|exact Hnone2].
      rewrite list_to_set_app_L. apply union_assoc_comm.
    + destruct (IsNotExist e && optional d); [|discriminate]. apply IH.
Qed.

Lemma first_dup_None seen ids :
  first_dup seen ids = None <->
  NoDup ids /\ (forall id, In id ids -> id ∉ seen).
Proof.
  revert seen. induction ids as [|x ids IH]; intros seen; simpl.
  - split; [intros _; split; [constructor | contradiction] | reflexivity].
  - destruct (bool_decide (x ∈ seen)) eqn:Hx.
    + apply bool_decide_eq_true in Hx. split; [discriminate|].
      intros [_ H]. exfalso. exact (H x (or_introl eq_refl) Hx).
    + apply bool_decide_eq_false in Hx. rewrite IH. split.
      * intros [Hnd Hseen]. split.
        -- apply NoDup_cons. split; [|exact Hnd].
           intros Hin. apply list_elem_of_In in Hin.
           apply (Hseen x Hin). apply elem_of_union_l. now apply elem_of_singleton.
        -- intros id [<-|Hin]; [exact Hx|].
           intros Hs. apply (Hseen id Hin). now apply elem_of_union_r.
      * intros [Hnd Hseen]. apply NoDup_cons in Hnd as [Hx' Hnd]. split; [exact Hnd|].
        intros id Hin Hs. apply elem_of_union in Hs as [Hs|Hs].
        -- apply elem_of_singleton in Hs. subst id. apply Hx'. now apply list_elem_of_In.
        -- exact (Hseen id (or_intror Hin) Hs).
Qed.

Lemma first_dup_Some seen ids id :
  first_dup seen ids = Some id ->
  exists pre post, ids = (pre ++ id :: post)%list
    /\ (id ∈ seen \/ In id pre) /\ first_dup seen pre = None.
Proof.
  revert seen. induction ids as [|x ids IH]; intros seen; simpl; [discriminate|].
  destruct (bool_decide (x ∈ seen)) eqn:Hx.
  - apply bool_decide_eq_true in Hx. intros [= <-].
    exists [], ids. split; [reflexivity|]. split; [now left | reflexivity].
  - intros H. apply IH in H as (pre & post & -> & Hin & Hnone).
    exists (x :: pre), post. split; [reflexivity|]. split.
    + destruct Hin as [Hin|Hin]; [|right; now right].
      apply elem_of_union in Hin as [Hin|Hin]; [|now left].
      apply elem_of_singleton in Hin. subst. right. now left.
    + simpl. now rewrite Hx.
Qed.

Lemma filepath_Base_nonempty path : is_empty (filepath_Base path) = false.
Proof.
  unfold filepath_Base. destruct (is_empty path); [reflexivity|].
  destruct (rev _) as [|e r] eqn:Hrev; [reflexivity|].
  assert (Hin : In e (List.filter (fun e => negb (is_empty e))
                        (strings_Split slash path))).
  { apply in_rev. rewrite Hrev. now left. }
  apply filter_In in Hin as [_ Hne]. now apply negb_true_iff in Hne.
Qed.

Lemma idPrefix_of_nonempty d : is_empty (idPrefix_of d) = false.
Proof.
  unfold idPrefix_of. destruct (is_empty (name d)) eqn:Hn; [|exact Hn].
  apply filepath_Base_nonempty.
Qed.

(** The id is the cleaned form of [idPrefix/filename]. *)
Lemma Id_mapping_of d entry :
  Id (mapping_of d entry)
  = filepath_Clean (idPrefix_of d +:+ "/" +:+ Name entry).
Proof.
  cbn [Id mapping_of filepath_Join]. now rewrite idPrefix_of_nonempty.
Qed.

Lemma filepath_Clean_rooted path :
  filepath_IsAbs path = true -> filepath_IsAbs (filepath_Clean path) = true.
Proof.
  unfold filepath_IsAbs, filepath_Clean. intros H.
  destruct path as [|c path]; [discriminate|].
  change (is_empty (String c path)) with false. cbv iota. now rewrite H.
Qed.

Lemma filepath_Join_abs dir filename :
  filepath_IsAbs dir = true ->
  filepath_IsAbs (filepath_Join [dir; filename]) = true.
Proof.
  intros H. destruct dir as [|c dir]; [discriminate|].
  cbn [filepath_Join]. change (is_empty (String c dir)) with false. cbv iota.
  apply filepath_Clean_rooted.
  unfold filepath_IsAbs in *. simpl in *. exact H.
Qed.

Lemma processSecretDirs_expected fs secretDirs secrets :
  processSecretDirs fs secretDirs = Ok secrets ->
  secrets = expected_secrets fs secretDirs
  /\ first_dup ∅ (map Id (expected_secrets fs secretDirs)) = None.
Proof.
  unfold processSecretDirs.
  destruct (process_dirs fs secretDirs ([], ∅)) as [[acc used]|e] eqn:H; [|discriminate].
  intros [= <-]. apply process_dirs_ok in H as (-> & _ & Hnone). auto.
Qed.

(** C8 (amended).  In a successful resolution the output is, spec after
    spec in the order given and for each spec its accepted entries in the
    order listed, the mapping whose src is the spec's [src] joined with the
    file name and whose id is the id prefix joined with the file name, both
    by [filepath.Join] (so: cleaned); the id prefix is the name alias when
    set and the base name of [src] otherwise.  The src of a mapping is the
    path as the spec gave it, absolute when the spec's [src] is. *)
Theorem processSecretDirs_output fs secretDirs secrets :
  processSecretDirs fs secretDirs = Ok secrets ->
  secrets
  = flat_map
      (fun d =>
         map (fun entry =>
                {| Src := filepath_Join [src d; Name entry];
                   Id := filepath_Join
                           [ if is_empty (name d) then filepath_Base (src d)
                             else name d;
                             Name entry ] |})
             (List.filter (is_accepted fs d) (listed fs d)))
      secretDirs
  /\ (forall d entry,
        filepath_IsAbs (src d) = true ->
        filepath_IsAbs (filepath_Join [src d; Name entry]) = true).
Proof.
  intros H. apply processSecretDirs_expected in H as [-> _].
  split; [reflexivity|]. intros d entry. apply filepath_Join_abs.
Qed.

(** C8, on the secret volume under the alias [custom] followed by a
    plain directory. *)
Lemma processSecretDirs_output_witness :
  [ {| Src := "/run/k8s/token"; Id := "custom/token" |};
    {| Src := "/run/a/secret1/token"; Id := "secret1/token" |} ]
  = expected_secrets fs_secrets [dir_k8s; dir_a].
Proof.
  exact (proj1 (processSecretDirs_output fs_secrets [dir_k8s; dir_a] _ eq_refl)).
Defined.

(** C8 as stated fails for a relative source directory.  For the spec
    [src=.] and a file [token] in it, the claim gives the src
    [/work/token] (the absolute form of [.] is [/work]) and the id
    [./token]; the code returns the src [token], which is not absolute, and
    the id [token]. *)
Lemma processSecretDirs_relative_counterexample :
  processSecretDirs fs_secrets [dir_cwd]
  = Ok [ {| Src := "token"; Id := "token" |} ]
  /\ filepath_IsAbs "token" = false
  /\ filepath_Abs fs_secrets (src dir_cwd) = Ok "/work"
  /\ "token" <> "/work" +:+ "/" +:+ "token"
  /\ idPrefix_of dir_cwd = "."
  /\ "token" <> idPrefix_of dir_cwd +:+ "/" +:+ "token".
Proof. repeat split; try reflexivity; discriminate. Qed.

Lemma first_dup_NoDup ids : first_dup ∅ ids = None <-> NoDup ids.
Proof.
  rewrite first_dup_None. split; [now intros [? _]|].
  intros H. split; [exact H|]. intros id _. apply not_elem_of_empty.
Qed.


Lemma fs_secrets_reads_ok : Forall (reads_ok fs_secrets) [dir_a; dir_b].
Proof.
  repeat constructor; exists true; reflexivity.
Qed.


Example processSecretDirs_duplicate :
  processSecretDirs fs_secrets [dir_a; dir_b]
  = Err (DuplicateSecretID "secret1/token").
Proof. reflexivity. Qed.

Lemma IsDir_not_regular m : IsDir m = true -> IsRegular m = false.
Proof.
  unfold IsDir, IsRegular. intros H. apply negb_true_iff in H.
  apply Z.eqb_neq in H. apply Z.eqb_neq. intros Hz. apply H.
  replace ModeDir with (Z.land ModeType ModeDir) by reflexivity.
  now rewrite Z.land_assoc, Hz.
Qed.

Lemma isRegular_true_iff fs entry dir :
  isRegular fs entry dir = Ok true <->
  IsRegular (Type_ entry) = true
  \/ (Type_ entry = ModeSymlink
      /\ exists stat, Stat fs (filepath_Join [dir; Name entry]) = Ok stat
                      /\ IsRegular stat = true).
Proof.
  unfold isRegular. split.
  - destruct (IsRegular (Type_ entry)); [now left|].
    destruct (Z.eqb_spec (Type_ entry) ModeSymlink) as [Hs|_]; [|discriminate].
    destruct (Stat fs _) as [stat|e]; [|discriminate].
    intros [= Hr]. right. split; [exact Hs|]. now exists stat.
  - intros [->|(Hs & stat & Hstat & Hr)]; [reflexivity|].
    rewrite Hs. change (IsRegular ModeSymlink) with false. cbv iota.
    rewrite Z.eqb_refl, Hstat, Hr. reflexivity.
Qed.

Lemma process_dirs_app fs l1 l2 st :
  process_dirs fs (l1 ++ l2) st
  = match process_dirs fs l1 st with
    | Ok st' => process_dirs fs l2 st'
    | Err e => Err e
    end.
Proof.
  revert st. induction l1 as [|d l1 IH]; intros st; [reflexivity|].
  cbn [app process_dirs].
  destruct (ReadDir fs (src d)) as [entries|e].
  - destruct (process_entries _ _ _ _ _); [apply IH | reflexivity].
  - destruct (IsNotExist e && optional d); [apply IH | reflexivity].
Qed.


(** The secret volume: only [token], the link to a file, is taken. *)
Example processSecretDirs_secret_volume :
  processSecretDirs fs_secrets [dir_k8s; dir_missing true]
  = Ok [ {| Src := "/run/k8s/token"; Id := "custom/token" |} ]
  /\ processSecretDirs fs_secrets [dir_k8s; dir_missing false]
     = Err (ReadSecretDirError "/nonexistent/path" ENOENT).
Proof. split; reflexivity. Qed.


(** ** The prefetch input *)

Lemma json_size_item items item :
  In item items -> (json_size item < json_size (JArr items))%nat.
Proof.
  simpl. induction items as [|x items IH]; [contradiction|].
  intros [->|Hin]; simpl; [lia|]. specialize (IH Hin). lia.
Qed.

Lemma json_size_field fields k v :
  fields !! k = Some v -> (json_size v < json_size (JObj fields))%nat.
Proof.
  intros Hk. simpl.
  rewrite (map_fold_delete_L _ _ k (json_size v) (json_size <$> fields)).
  - lia.
  - intros. lia.
  - now rewrite lookup_fmap, Hk.
Qed.

(** Induction on a value, with the hypothesis for every element of an
    array and every field of an object. *)
Lemma json_induction (P : json -> Prop) :
  P JNull -> (forall b, P (JBool b)) -> (forall bits, P (JNum bits)) ->
  (forall s, P (JStr s)) ->
  (forall items, (forall item, In item items -> P item) -> P (JArr items)) ->
  (forall fields, (forall k v, fields !! k = Some v -> P v) -> P (JObj fields)) ->
  forall input, P input.
Proof.
  intros Hnull Hbool Hnum Hstr Harr Hobj input.
  remember (json_size input) as n eqn:Hn. revert input Hn.
  induction n as [n IH] using lt_wf_ind. intros input ->.
  destruct input as [| | | |items|fields]; auto.
  - apply Harr. intros item Hin. eapply IH; [|reflexivity].
    now apply json_size_item.
  - apply Hobj. intros k v Hk. eapply IH; [|reflexivity].
    exact (json_size_field _ _ _ Hk).
Qed.

(** The object case of [containsRPM], as the source has it. *)
Lemma containsRPM_obj data :
  containsRPM (JObj data)
  = if match packages_of data with
       | Some packages => existsb containsRPM packages
       | None => false
       end
    then true
    else is_rpm_type data.
Proof.
  simpl. unfold packages_of. rewrite lookup_fmap.
  destruct (data !! "packages") as [[]|]; reflexivity.
Qed.

(** The object case of [injectSummaryInSBOMField], as the source has it. *)
Lemma injectSummaryInSBOMField_obj data :
  injectSummaryInSBOMField (JObj data)
  = match packages_of data with
    | Some packages =>
        JObj (<["packages" := JArr (map injectSummaryInSBOMField packages)]> data)
    | None =>
        if is_rpm_type data
        then JObj (<["include_summary_in_sbom" := JBool true]> data)
        else JObj data
    end.
Proof.
  simpl. unfold packages_of. rewrite lookup_fmap.
  destruct (data !! "packages") as [[]|]; reflexivity.
Qed.

(** The object case of [injectSSLOptions], as the source has it. *)
Lemma injectSSLOptions_obj data ssl :
  injectSSLOptions (JObj data) ssl
  = match packages_of data with
    | Some packages =>
        JObj (<["packages" :=
                 JArr (map (fun item => injectSSLOptions item ssl) packages)]> data)
    | None =>
        if is_rpm_type data then JObj (inject_ssl_leaf data ssl) else JObj data
    end.
Proof.
  simpl. unfold packages_of. rewrite lookup_fmap.
  destruct (data !! "packages") as [[]|]; reflexivity.
Qed.

Lemma packages_of_field data packages :
  packages_of data = Some packages -> data !! "packages" = Some (JArr packages).
Proof.
  unfold packages_of. destruct (data !! "packages") as [[]|]; congruence.
Qed.

Lemma containsRPM_found input : containsRPM input = true -> rpm_found input.
Proof.
  induction input as [| | | |items IH|fields IH] using json_induction;
    try discriminate.
  - simpl. intros H. apply existsb_exists in H as (item & Hin & Hitem).
    eapply rpm_found_array; eauto.
  - rewrite containsRPM_obj.
    destruct (packages_of fields) as [packages|] eqn:Hp.
    + destruct (existsb containsRPM packages) eqn:Hex.
      * intros _. apply existsb_exists in Hex as (item & Hin & Hitem).
        apply packages_of_field in Hp as Hfield.
        assert (Hfound : rpm_found (JArr packages)).
        { apply (IH _ _ Hfield). simpl. apply existsb_exists. eauto. }
        inversion Hfound as [? item' Hin' Hitem'| |]; subst.
        eapply rpm_found_packages; eauto.
      * apply rpm_found_type.
    + apply rpm_found_type.
Qed.

Lemma found_containsRPM input : rpm_found input -> containsRPM input = true.
Proof.
  induction 1 as [data item Hin _ IH|data packages item Hp Hin _ IH|data Ht].
  - simpl. apply existsb_exists. eauto.
  - rewrite containsRPM_obj, Hp.
    replace (existsb containsRPM packages) with true; [reflexivity|].
    symmetry. apply existsb_exists. eauto.
  - rewrite containsRPM_obj, Ht.
    destruct (packages_of data) as [packages|]; [|reflexivity].
    now destruct (existsb containsRPM packages).
Qed.

Lemma leaf_match_found input : leaf_match input -> rpm_found input.
Proof.
  induction 1; eauto using rpm_found.
Qed.

(** Where nothing is a leaf match, the injection changes nothing. *)
Lemma injectSummaryInSBOMField_no_match input :
  ~ leaf_match input -> injectSummaryInSBOMField input = input.
Proof.
  induction input as [| | | |items IH|fields IH] using json_induction;
    try reflexivity.
  - intros Hno. simpl. f_equal. rewrite <- (map_id items) at 2.
    apply map_ext_in. intros item Hin. apply IH; [exact Hin|].
    intros Hm. apply Hno. eapply leaf_match_array; eauto.
  - intros Hno. rewrite injectSummaryInSBOMField_obj.
    destruct (packages_of fields) as [packages|] eqn:Hp.
    + apply packages_of_field in Hp as Hfield. f_equal. apply insert_id.
      rewrite Hfield. f_equal.
      assert (Hinj : injectSummaryInSBOMField (JArr packages) = JArr packages).
      { apply (IH _ _ Hfield). intros Hm.
        inversion Hm as [? item Hin Hitem| |]; subst.
        apply Hno. eapply leaf_match_packages; eauto. }
      simpl in Hinj. congruence.
    + destruct (is_rpm_type fields) eqn:Ht; [|reflexivity].
      exfalso. apply Hno. now apply leaf_match_leaf.
Qed.

(** C9 (amended).  [containsRPM] returns true exactly when an object
    whose ["type"] field is ["rpm"] is reached through the elements of
    arrays and of ["packages"] arrays, whether or not that object carries a
    ["packages"] array itself.  Every leaf match of the injection
    functions is such an object, so [containsRPM] is true wherever they
    have a leaf match; where they have none, the injection returns its
    input unchanged. *)
Theorem containsRPM_finds input :
  (containsRPM input = true <-> rpm_found input)
  /\ (leaf_match input -> containsRPM input = true)
  /\ (~ leaf_match input -> injectSummaryInSBOMField input = input).
Proof.
  split; [split; [apply containsRPM_found | apply found_containsRPM]|].
  split.
  - intros H. apply found_containsRPM. now apply leaf_match_found.
  - apply injectSummaryInSBOMField_no_match.
Qed.

(** C9 as stated fails on an object that has the type ["rpm"] and a
    ["packages"] array: [{"type": "rpm", "packages": []}] is no leaf match
    (both injections return it unchanged), and [containsRPM] returns
    true for it. *)
Lemma containsRPM_packages_counterexample :
  containsRPM rpm_with_packages = true
  /\ ~ leaf_match rpm_with_packages
  /\ injectSummaryInSBOMField rpm_with_packages = rpm_with_packages
  /\ injectSSLOptions rpm_with_packages new_ssl = rpm_with_packages.
Proof.
  split; [vm_compute; reflexivity|]. split; [|split; vm_compute; reflexivity].
  intros H. inversion H as [|data packages item Hp Hin _|data Hp _]; subst.
  - vm_compute in Hp. injection Hp as <-. contradiction.
  - vm_compute in Hp. discriminate.
Qed.

(** C10.  For an object of type ["rpm"] with no ["packages"] array:
    when its ["options"] is an object that holds an object under ["ssl"],
    [injectSSLOptions] keeps every other key of ["options"] and puts under
    ["ssl"] the existing map with the new keys written over it; when its
    ["options"] is an object that holds no object under ["ssl"], the whole
    of ["options"] becomes the object with the one key ["ssl"] holding the
    new map, so no other key of the old ["options"] is left.  An
    ["options"] that is no object, or none at all, gives the same
    single-key object.  The other fields of the node stay as they are. *)
Theorem injectSSLOptions_leaf (data ssl : gmap string json) :
  is_rpm_type data = true -> packages_of data = None ->
  (forall existingOptions existingSSL,
     data !! "options" = Some (JObj existingOptions) ->
     existingOptions !! "ssl" = Some (JObj existingSSL) ->
     exists options' ssl',
       injectSSLOptions (JObj data) ssl = JObj (<["options" := JObj options']> data)
       /\ options' !! "ssl" = Some (JObj ssl')
       /\ (forall k, k <> "ssl" -> options' !! k = existingOptions !! k)
       /\ (forall k v, ssl !! k = Some v -> ssl' !! k = Some v)
       /\ (forall k, ssl !! k = None -> ssl' !! k = existingSSL !! k))
  /\ (forall existingOptions,
        data !! "options" = Some (JObj existingOptions) ->
        (forall existingSSL, existingOptions !! "ssl" <> Some (JObj existingSSL)) ->
        exists options',
          injectSSLOptions (JObj data) ssl = JObj (<["options" := JObj options']> data)
          /\ options' !! "ssl" = Some (JObj ssl)
          /\ (forall k, k <> "ssl" -> options' !! k = None))
  /\ ((forall existingOptions, data !! "options" <> Some (JObj existingOptions)) ->
        injectSSLOptions (JObj data) ssl
        = JObj (<["options" := JObj {["ssl" := JObj ssl]}]> data))
  /\ (forall fields' k,
        injectSSLOptions (JObj data) ssl = JObj fields' ->
        k <> "options" -> fields' !! k = data !! k).
Proof.
  intros Ht Hp. rewrite injectSSLOptions_obj, Hp, Ht. unfold inject_ssl_leaf.
  split; [|split; [|split]].
  - intros existingOptions existingSSL -> ->.
    exists (<["ssl" := JObj (ssl ∪ existingSSL)]> existingOptions), (ssl ∪ existingSSL).
    split; [reflexivity|]. split; [apply lookup_insert_eq|]. split; [|split].
    + intros k Hk. now apply lookup_insert_ne.
    + intros k v Hk. now apply lookup_union_Some_l.
    + intros k Hk. now apply lookup_union_r.
  - intros existingOptions -> Hno.
    exists {["ssl" := JObj ssl]}. split.
    + destruct (existingOptions !! "ssl") as [[| | | | |m]|] eqn:Hs; try reflexivity.
      now destruct (Hno m).
    + split; [apply lookup_singleton_eq|].
      intros k Hk. now apply lookup_singleton_ne.
  - intros Hno.
    destruct (data !! "options") as [[| | | | |o]|]; try reflexivity.
    now destruct (Hno o).
  - intros fields' k Heq Hk.
    assert (Hfields : exists o, fields' = <["options" := o]> data).
    { destruct (data !! "options") as [[| | | | |o]|];
        try (injection Heq as <-; solve [eauto]).
      destruct (o !! "ssl") as [[| | | | |m]|]; injection Heq as <-; eauto. }
    destruct Hfields as (o & ->). now apply lookup_insert_ne.
Qed.

(** C10, on an rpm object whose options hold ssl options and one other
    option, and on one whose options hold only the other option. *)
Lemma injectSSLOptions_leaf_witness :
  (exists options' ssl',
     injectSSLOptions (JObj rpm_with_ssl) new_ssl
     = JObj (<["options" := JObj options']> rpm_with_ssl)
     /\ options' !! "ssl" = Some (JObj ssl')
     /\ (forall k, k <> "ssl" -> options' !! k
                                 = (<["ssl" := JObj {["client_key" := JStr "old"]}]>
                                    (<["dnf" := JObj ∅]> ∅) : gmap string json) !! k)
     /\ (forall k v, new_ssl !! k = Some v -> ssl' !! k = Some v)
     /\ (forall k, new_ssl !! k = None ->
                   ssl' !! k = ({["client_key" := JStr "old"]} : gmap string json) !! k))
  /\ (exists options',
        injectSSLOptions (JObj rpm_without_ssl) new_ssl
        = JObj (<["options" := JObj options']> rpm_without_ssl)
        /\ options' !! "ssl" = Some (JObj new_ssl)
        /\ (forall k, k <> "ssl" -> options' !! k = None)).
Proof.
  split.
  - refine (proj1 (injectSSLOptions_leaf rpm_with_ssl new_ssl _ _) _ _ _ _);
      vm_compute; reflexivity.
  - refine (proj1 (proj2 (injectSSLOptions_leaf rpm_without_ssl new_ssl _ _)) _ _ _);
      [vm_compute; reflexivity .. |].
    intros m. vm_compute. discriminate.
Defined.

Example injectSSLOptions_examples :
  injectSSLOptions (JObj rpm_with_ssl) new_ssl
  = JObj (<["type" := JStr "rpm"]>
          (<["options" :=
               JObj (<["ssl" := JObj (<["client_key" := JStr "new"]>
                                      (<["ca_bundle" := JStr "cb"]> ∅))]>
                     (<["dnf" := JObj ∅]> ∅))]> ∅))
  /\ injectSSLOptions (JObj rpm_without_ssl) new_ssl
     = JObj (<["type" := JStr "rpm"]>
             (<["options" := JObj {["ssl" := JObj new_ssl]}]> ∅)).
Proof. split; vm_compute; reflexivity. Qed.

(* ===================================================================== *)
(** * Part III: further properties of the code                            *)
(* ===================================================================== *)

(** ** The containment check, exactly *)

Lemma strip_common_app bs trem : strip_common bs (bs ++ trem) = ([], trem).
Proof.
  induction bs as [|b bs IH]; simpl.
  - now destruct trem.
  - now rewrite String.eqb_refl.
Qed.

Lemma strings_Split_Join_app l s :
  l <> [] -> Forall no_slash l ->
  strings_Split slash (strings_Join l "/" +:+ "/" +:+ s)
  = (l ++ strings_Split slash s)%list.
Proof.
  induction l as [|e l IH]; [congruence|]. intros _ Hall.
  inversion Hall as [|? ? He Hl]; subst. destruct l as [|e' l].
  - cbn [strings_Join app]. now apply strings_Split_app.
  - rewrite strings_Join_cons by discriminate.
    rewrite !string_app_assoc.
    rewrite strings_Split_app by exact He.
    rewrite (IH ltac:(discriminate) Hl). reflexivity.
Qed.

Lemma string_length_app (a b : string) :
  String.length (a +:+ b) = (String.length a + String.length b)%nat.
Proof. induction a as [|c a IH]; simpl; [reflexivity | now rewrite IH]. Qed.

Lemma string_app_nil_r (a : string) : a +:+ "" = a.
Proof. induction a as [|c a IH]; simpl; [reflexivity | now rewrite IH]. Qed.

Lemma string_app_inv_head (a b c : string) : a +:+ b = a +:+ c -> b = c.
Proof.
  induction a as [|x a IH]; simpl; [auto|]. intros [= H]. auto.
Qed.

Lemma string_length_zero (a : string) : String.length a = 0%nat -> a = "".
Proof. destruct a; [reflexivity | discriminate]. Qed.

Lemma dir_prefix_below_neq b rest : rest <> "" -> dir_prefix b +:+ rest <> b.
Proof.
  intros Hrest H. apply (f_equal String.length) in H.
  unfold dir_prefix in H. destruct (String.eqb_spec b "/") as [->|_].
  - simpl in H. injection H as H. now apply string_length_zero in H.
  - rewrite !string_length_app in H. simpl in H. lia.
Qed.

(** What lies below a canonical base has the elements of the base
    first. *)
Lemma below_segs bs ps rest :
  Forall no_slash bs -> forallb is_normal_elem bs = true ->
  Forall no_slash ps ->
  rest <> "" ->
  "/" +:+ strings_Join ps "/" = dir_prefix ("/" +:+ strings_Join bs "/") +:+ rest ->
  ps = (bs ++ strings_Split slash rest)%list.
Proof.
  intros Hbs Hbn Hps Hrest Heq. unfold dir_prefix in Heq.
  destruct bs as [|b0 bs].
  - simpl in Heq. injection Heq as Heq. simpl.
    rewrite <- Heq. symmetry. apply strings_Split_Join; [|exact Hps].
    intros ->. simpl in Heq. congruence.
  - replace (String.eqb ("/" +:+ strings_Join (b0 :: bs) "/") "/") with false in Heq.
    + rewrite !string_app_assoc in Heq.
      change ("/" +:+ strings_Join ps "/"
              = "/" +:+ (strings_Join (b0 :: bs) "/" +:+ "/" +:+ rest)) in Heq.
      apply string_app_inv_head in Heq.
      rewrite <- (strings_Split_Join_app (b0 :: bs) rest) by (discriminate || assumption).
      rewrite <- Heq. symmetry. apply strings_Split_Join; [|exact Hps].
      intros ->. apply (f_equal String.length) in Heq.
      rewrite !string_length_app in Heq. simpl in Heq. lia.
    + symmetry. apply String.eqb_neq. intros H.
      change (String slash (strings_Join (b0 :: bs) "/") = String slash "") in H.
      injection H as H.
      exact (strings_Join_nonempty (b0 :: bs) ltac:(discriminate) Hbn H).
Qed.

Lemma filepath_Rel_below p b rest :
  is_canonical p = true -> is_canonical b = true ->
  rest <> "" -> p = dir_prefix b +:+ rest ->
  filepath_Rel b p = Some rest.
Proof.
  intros Hp Hb Hrest Heq.
  assert (Hneq : p <> b) by (rewrite Heq; now apply dir_prefix_below_neq).
  destruct (canonical_segs _ Hp) as (ps & -> & Hps & Hpn).
  destruct (canonical_segs _ Hb) as (bs & -> & Hbs & Hbn).
  pose proof (below_segs _ _ _ Hbs Hbn Hps Hrest Heq) as ->.
  unfold filepath_Rel. rewrite !Clean_render by assumption.
  apply String.eqb_neq in Hneq. rewrite Hneq.
  change (is_dot ("/" +:+ strings_Join bs "/")) with false. cbv iota.
  change (strings_HasPrefix ("/" +:+ strings_Join bs "/") "/") with true.
  change (strings_HasPrefix
            ("/" +:+ strings_Join (bs ++ strings_Split slash rest) "/") "/") with true.
  cbn [Bool.eqb negb]. rewrite !rel_elems_render by assumption.
  cbn [strip_common String.eqb]. rewrite strip_common_app.
  now rewrite strings_Join_Split.
Qed.

Lemma filepath_Rel_same p : filepath_Rel p p = Some ".".
Proof. unfold filepath_Rel. now rewrite String.eqb_refl. Qed.

(** X1.  For canonical paths the containment check answers true exactly
    for the base itself and for a path below the base whose part below
    the base does not begin with two dots. *)
Theorem isRelativeTo_exact p b :
  is_canonical p = true -> is_canonical b = true ->
  (isRelativeTo p b = true <->
   p = b \/
   exists rest, rest <> "" /\ p = dir_prefix b +:+ rest
                /\ strings_HasPrefix rest ".." = false).
Proof.
  intros Hp Hb. split.
  - intros Hrel. destruct (isRelativeTo_sound _ _ Hp Hb Hrel) as [->|(rest & Hrest & Heq)];
      [now left|]. right. exists rest. split; [exact Hrest|]. split; [exact Heq|].
    unfold isRelativeTo in Hrel.
    rewrite (filepath_Rel_below _ _ _ Hp Hb Hrest Heq) in Hrel.
    now apply negb_true_iff in Hrel.
  - intros [->|(rest & Hrest & Heq & Hpre)]; unfold isRelativeTo.
    + now rewrite filepath_Rel_same.
    + now rewrite (filepath_Rel_below _ _ _ Hp Hb Hrest Heq), Hpre.
Qed.

(** X1, for a Containerfile in the context directory of a source tree. *)
Lemma isRelativeTo_exact_witness :
  isRelativeTo "/tmp/s/ctx/Containerfile" "/tmp/s" = true <->
  "/tmp/s/ctx/Containerfile" = "/tmp/s" \/
  exists rest, rest <> "" /\ "/tmp/s/ctx/Containerfile" = dir_prefix "/tmp/s" +:+ rest
               /\ strings_HasPrefix rest ".." = false.
Proof.
  exact (isRelativeTo_exact "/tmp/s/ctx/Containerfile" "/tmp/s" eq_refl eq_refl).
Defined.

(** ** Image names, tags and digests *)

Example IsImageNameValid_examples :
  IsImageNameValid "quay.io/konflux-ci/foo" = true
  /\ IsImageNameValid "localhost:5000/foo" = true
  /\ IsImageNameValid "localhost:5000" = false
  /\ IsImageNameValid "localhost:70000/foo" = false
  /\ IsImageNameValid "quay.io//foo" = false
  /\ IsImageNameValid "Quay.io/foo" = false
  /\ IsImageNameValid "foo" = true
  /\ IsImageNameValid "" = false
  /\ IsImageNameValid "quay.io/foo:tag" = false.
Proof. repeat split; vm_compute; reflexivity. Qed.

Lemma string_take_drop n s : string_take n s +:+ string_drop n s = s.
Proof.
  revert s. induction n as [|n IH]; intros [|c s]; simpl; try reflexivity.
  now rewrite IH.
Qed.

Lemma string_take_app a b : string_take (String.length a) (a +:+ b) = a.
Proof. induction a as [|c a IH]; simpl; [now destruct b | now rewrite IH]. Qed.

Lemma string_drop_app a b : string_drop (String.length a) (a +:+ b) = b.
Proof. induction a as [|c a IH]; simpl; [now destruct b | exact IH]. Qed.

Lemma string_drop_app_le n a b :
  (n <= String.length a)%nat -> string_drop n (a +:+ b) = string_drop n a +:+ b.
Proof.
  revert a. induction n as [|n IH]; intros a Hn.
  - now destruct a; destruct b.
  - destruct a as [|c a]; simpl in *; [lia|]. apply IH. lia.
Qed.

Lemma string_drop_add a b k :
  string_drop (String.length a + k) (a +:+ b) = string_drop k b.
Proof. induction a as [|c a IH]; simpl; [reflexivity | exact IH]. Qed.

Lemma string_drop_length n s :
  String.length (string_drop n s) = (String.length s - n)%nat.
Proof.
  revert s. induction n as [|n IH]; intros [|c s]; simpl; try reflexivity.
  apply IH.
Qed.

Lemma string_forallb_app p a b :
  string_forallb p (a +:+ b) = string_forallb p a && string_forallb p b.
Proof.
  induction a as [|c a IH]; simpl; [reflexivity|].
  now rewrite IH, andb_assoc.
Qed.

Lemma string_forallb_drop p n s :
  string_forallb p s = true -> string_forallb p (string_drop n s) = true.
Proof.
  revert s. induction n as [|n IH]; intros [|c s]; simpl; auto.
  intros H. apply andb_prop in H as [_ H]. auto.
Qed.

Lemma string_forallb_impl (p q : ascii -> bool) s :
  (forall c, p c = true -> q c = true) ->
  string_forallb p s = true -> string_forallb q s = true.
Proof.
  intros Hpq. induction s as [|c s IH]; simpl; [reflexivity|].
  intros H. apply andb_prop in H as [Hc H]. now rewrite (Hpq _ Hc), IH.
Qed.

Lemma string_forallb_Join p l :
  p slash = true -> Forall (fun e => string_forallb p e = true) l ->
  string_forallb p (strings_Join l "/") = true.
Proof.
  intros Hs. unfold slash in Hs. induction 1 as [|e l He _ IH]; [reflexivity|].
  destruct l as [|e' l]; [exact He|].
  rewrite strings_Join_cons by discriminate.
  rewrite !string_forallb_app, He, IH. simpl. now rewrite Hs.
Qed.

Lemma lacks_LastIndex sep s : lacks sep s -> strings_LastIndex s sep = None.
Proof.
  unfold lacks. induction s as [|c s IH]; simpl; [reflexivity|].
  intros H. apply andb_prop in H as [Hc H]. rewrite (IH H).
  apply negb_true_iff in Hc. now rewrite Hc.
Qed.

Lemma strings_LastIndex_app_lacks sep a b :
  lacks sep b -> strings_LastIndex (a +:+ b) sep = strings_LastIndex a sep.
Proof.
  intros Hb. induction a as [|c a IH]; simpl.
  - now apply lacks_LastIndex.
  - now rewrite IH.
Qed.

Lemma strings_LastIndex_app_sep sep a t :
  lacks sep t ->
  strings_LastIndex (a +:+ String sep t) sep = Some (String.length a).
Proof.
  intros Ht. induction a as [|c a IH]; simpl.
  - rewrite (lacks_LastIndex _ _ Ht). now rewrite Ascii.eqb_refl.
  - now rewrite IH.
Qed.

Lemma strings_Index_drop s sep i :
  strings_Index s sep = Some i ->
  string_drop i s = String sep (string_drop (S i) s)
  /\ lacks sep (string_take i s).
Proof.
  revert i. induction s as [|c s IH]; intros i; simpl; [discriminate|].
  destruct (Ascii.eqb_spec c sep) as [->|Hc].
  - intros [= <-]. split; reflexivity.
  - destruct (strings_Index s sep) as [j|]; [|discriminate].
    intros [= <-]. destruct (IH j eq_refl) as [Hd Ht]. split; [exact Hd|].
    unfold lacks in *. simpl. rewrite Ht.
    destruct (Ascii.eqb_spec c sep); [congruence | reflexivity].
Qed.

Lemma strings_Index_None s sep : strings_Index s sep = None -> lacks sep s.
Proof.
  unfold lacks. induction s as [|c s IH]; simpl; [reflexivity|].
  destruct (Ascii.eqb c sep); [discriminate|].
  destruct (strings_Index s sep); [discriminate|]. intros _. now apply IH.
Qed.

(** *** What [GetImageName] removes *)

Lemma trim_digest_suffix_prefix s :
  exists suffix, s = trim_digest_suffix s +:+ suffix.
Proof.
  unfold trim_digest_suffix. destruct (_ && _).
  - eexists. symmetry. apply string_take_drop.
  - exists "". now rewrite string_app_nil_r.
Qed.

Lemma trim_tag_suffix_prefix s :
  exists suffix, s = trim_tag_suffix s +:+ suffix.
Proof.
  unfold trim_tag_suffix.
  destruct (strings_LastIndex s ":") as [i|];
    [destruct (is_tag _)|]; try (exists ""; now rewrite string_app_nil_r).
  eexists. symmetry. apply string_take_drop.
Qed.

(** X2.  [GetImageName] only ever cuts a suffix off: the image name is a
    prefix of the reference it was taken from. *)
Theorem GetImageName_prefix imageURL :
  exists suffix, imageURL = GetImageName imageURL +:+ suffix.
Proof.
  unfold GetImageName.
  destruct (trim_digest_suffix_prefix imageURL) as (s1 & H1).
  destruct (trim_tag_suffix_prefix (trim_digest_suffix imageURL)) as (s2 & H2).
  exists (s2 +:+ s1). rewrite <- string_app_assoc, <- H2. exact H1.
Qed.

Lemma trim_digest_suffix_lacks_at s : lacks "@" s -> trim_digest_suffix s = s.
Proof.
  intros Hs. unfold trim_digest_suffix.
  destruct (72 <=? String.length s)%nat; [|reflexivity]. cbn [andb].
  pose proof (string_forallb_drop _ (String.length s - 72) _ Hs) as Hd.
  destruct (string_drop (String.length s - 72) s) as [|c d]; [reflexivity|].
  simpl in Hd. apply andb_prop in Hd as [Hc _]. apply negb_true_iff in Hc.
  cbn [string_take String.eqb]. now rewrite Hc.
Qed.

Lemma is_tag_chars t : is_tag t = true -> string_forallb is_tag_char t = true.
Proof.
  destruct t as [|c t]; [discriminate|]. simpl. intros H.
  apply andb_prop in H as [H _]. apply andb_prop in H as [Hc Ht].
  unfold is_tag_char at 1. now rewrite Hc, Ht.
Qed.

Lemma is_tag_char_not c sep :
  is_tag_char sep = false -> is_tag_char c = true -> negb (Ascii.eqb c sep) = true.
Proof.
  intros Hsep Hc. apply negb_true_iff. apply Ascii.eqb_neq. congruence.
Qed.

Lemma is_tag_lacks t sep : is_tag_char sep = false -> is_tag t = true -> lacks sep t.
Proof.
  intros Hsep Ht. apply is_tag_chars in Ht. unfold lacks.
  eapply string_forallb_impl; [|exact Ht]. intros c. now apply is_tag_char_not.
Qed.

Lemma is_part_char_tag_char c : is_part_char c = true -> is_tag_char c = true.
Proof.
  unfold is_part_char, is_tag_char, is_tag_start, is_alnum, is_lower_alnum.
  intros H. repeat (apply orb_prop in H as [H|H]); rewrite H;
    repeat rewrite orb_true_r; reflexivity.
Qed.

Lemma is_digit_tag_char c : is_digit c = true -> is_tag_char c = true.
Proof.
  unfold is_tag_char, is_tag_start, is_alnum. intros ->.
  repeat rewrite orb_true_r; reflexivity.
Qed.

Lemma match_imagePart_chars p :
  match_imagePart p = true -> string_forallb is_part_char p = true.
Proof.
  destruct p as [|c rest]; [discriminate|]. simpl. intros H.
  apply andb_prop in H as [Hc H]. unfold is_part_char at 1. rewrite Hc. simpl.
  apply orb_prop in H as [H|H].
  - apply String.eqb_eq in H. now subst.
  - now apply andb_prop in H as [H _].
Qed.

Lemma match_imagePart_lacks p sep :
  is_tag_char sep = false -> match_imagePart p = true -> lacks sep p.
Proof.
  intros Hsep Hp. apply match_imagePart_chars in Hp. unfold lacks.
  eapply string_forallb_impl; [|exact Hp]. intros c Hc.
  apply (is_tag_char_not _ _ Hsep). now apply is_part_char_tag_char.
Qed.

(** The first element of a valid name: an address, then possibly a colon
    and digits. *)
Lemma match_registry_shape first r :
  match_registry first = Some r ->
  (lacks ":" first /\ match_imagePart first = true)
  \/ exists address port,
       first = address +:+ ":" +:+ port
       /\ match_imagePart address = true
       /\ port <> "" /\ string_forallb is_digit port = true.
Proof.
  unfold match_registry.
  destruct (strings_Index first ":") as [i|] eqn:Hi.
  - destruct (_ && _) eqn:Hm; [|discriminate]. intros _. right.
    apply andb_prop in Hm as [Hm Hdig]. apply andb_prop in Hm as [Ha Hport].
    apply strings_Index_drop in Hi as [Hd _].
    exists (string_take i first), (string_drop (S i) first).
    split; [|split; [exact Ha|split; [|exact Hdig]]].
    + change (string_take i first +:+ ":" +:+ string_drop (S i) first)
        with (string_take i first +:+ String ":" (string_drop (S i) first)).
      rewrite <- Hd. symmetry. apply string_take_drop.
    + apply negb_true_iff in Hport. now apply String.eqb_neq in Hport.
  - destruct (match_imagePart first) eqn:Hm; [|discriminate]. intros _. left.
    split; [now apply strings_Index_None | reflexivity].
Qed.

Lemma IsImageNameValid_parts imageName :
  IsImageNameValid imageName = true ->
  match strings_Split slash imageName with
  | [] => False
  | [part] => match_imagePart part = true
  | first :: rest =>
      (exists r, match_registry first = Some r)
      /\ forallb match_imagePart rest = true
  end.
Proof.
  unfold IsImageNameValid.
  destruct (is_empty imageName); [discriminate|].
  destruct (128 <? String.length imageName)%nat; [discriminate|].
  destruct (_ || _); [discriminate|].
  destruct (strings_Split slash imageName) as [|first [|second rest]];
    [discriminate | auto |].
  destruct (match_registry first) as [[a port]|]; [|discriminate].
  destruct (negb (match_imagePart a)); [discriminate|].
  destruct (_ && _); [discriminate|]. eauto.
Qed.

Lemma lacks_app sep a b : lacks sep a -> lacks sep b -> lacks sep (a +:+ b).
Proof. unfold lacks. intros Ha Hb. now rewrite string_forallb_app, Ha, Hb. Qed.

Lemma lacks_digits sep port :
  is_tag_char sep = false -> string_forallb is_digit port = true -> lacks sep port.
Proof.
  intros Hsep Hp. unfold lacks. eapply string_forallb_impl; [|exact Hp].
  intros c Hc. apply (is_tag_char_not _ _ Hsep). now apply is_digit_tag_char.
Qed.

Lemma lacks_parts_Join sep rest :
  is_tag_char sep = false -> Ascii.eqb slash sep = false ->
  forallb match_imagePart rest = true -> lacks sep (strings_Join rest "/").
Proof.
  intros Hsep Hslash Hrest. unfold lacks. apply string_forallb_Join.
  - now rewrite Hslash.
  - apply Forall_forall. intros e He. rewrite forallb_forall in Hrest.
    apply list_elem_of_In in He. now apply (match_imagePart_lacks e sep Hsep), Hrest.
Qed.

(** A valid image name holds no [@]. *)
Lemma IsImageNameValid_lacks_at imageName :
  IsImageNameValid imageName = true -> lacks "@" imageName.
Proof.
  intros H. apply IsImageNameValid_parts in H.
  rewrite <- (strings_Join_Split imageName).
  destruct (strings_Split slash imageName) as [|first [|second rest]];
    [contradiction | now apply match_imagePart_lacks |].
  destruct H as [[r Hr] Hrest].
  rewrite strings_Join_cons by discriminate.
  apply lacks_app; [|apply lacks_app; [reflexivity|]].
  - apply match_registry_shape in Hr
      as [[_ Hp]|(a & port & -> & Ha & _ & Hdig)].
    + now apply match_imagePart_lacks.
    + apply lacks_app; [now apply match_imagePart_lacks|].
      apply lacks_app; [reflexivity | now apply lacks_digits].
  - now apply lacks_parts_Join.
Qed.

Lemma is_tag_with_slash a b : is_tag (a +:+ "/" +:+ b) = false.
Proof.
  destruct (is_tag (a +:+ "/" +:+ b)) eqn:H; [|reflexivity].
  apply is_tag_chars in H. rewrite !string_forallb_app in H.
  apply andb_prop in H as [_ H]. apply andb_prop in H as [H _]. discriminate.
Qed.

(** The tag expression finds nothing to cut off a valid image name. *)
Lemma trim_tag_suffix_valid imageName :
  IsImageNameValid imageName = true -> trim_tag_suffix imageName = imageName.
Proof.
  intros H. apply IsImageNameValid_parts in H. unfold trim_tag_suffix.
  rewrite <- (strings_Join_Split imageName).
  destruct (strings_Split slash imageName) as [|first [|second rest]];
    [contradiction | |].
  - cbn [strings_Join].
    now rewrite (lacks_LastIndex _ _ (match_imagePart_lacks _ ":" eq_refl H)).
  - destruct H as [_ Hrest].
    rewrite strings_Join_cons by discriminate.
    assert (Htail : lacks ":" ("/" +:+ strings_Join (second :: rest) "/")).
    { apply lacks_app; [reflexivity | now apply lacks_parts_Join]. }
    rewrite (strings_LastIndex_app_lacks _ first _ Htail).
    destruct (strings_LastIndex first ":") as [i|] eqn:Hi; [|reflexivity].
    apply strings_LastIndex_lt in Hi.
    rewrite string_drop_app_le by lia. now rewrite is_tag_with_slash.
Qed.

(** X3.  A valid image name is returned by [GetImageName] as it is:
    nothing in it is taken for a tag (not even a registry port) or a
    digest. *)
Theorem GetImageName_valid_name imageName :
  IsImageNameValid imageName = true -> GetImageName imageName = imageName.
Proof.
  intros H. unfold GetImageName.
  rewrite (trim_digest_suffix_lacks_at _ (IsImageNameValid_lacks_at _ H)).
  now apply trim_tag_suffix_valid.
Qed.

(** X3, on a name whose registry has a port. *)
Lemma GetImageName_valid_name_witness :
  GetImageName "localhost:5000/konflux-ci/foo" = "localhost:5000/konflux-ci/foo".
Proof.
  apply GetImageName_valid_name. vm_compute. reflexivity.
Defined.

Lemma IsImageDigestValid_shape digest :
  IsImageDigestValid digest = true ->
  exists hex, digest = "sha256:" +:+ hex /\ String.length hex = 64%nat
              /\ string_forallb is_lower_hex hex = true.
Proof.
  unfold IsImageDigestValid. intros H.
  apply andb_prop in H as [H Hhex]. apply andb_prop in H as [Hpre Hlen].
  apply String.eqb_eq in Hpre. apply Nat.eqb_eq in Hlen.
  exists (string_drop 7 digest). split; [|auto].
  rewrite <- Hpre. symmetry. apply string_take_drop.
Qed.

Lemma is_lower_hex_is_hex c : is_lower_hex c = true -> is_hex c = true.
Proof.
  unfold is_lower_hex, is_hex. intros H.
  apply orb_prop in H as [H|H]; rewrite H; repeat rewrite orb_true_r; reflexivity.
Qed.

Lemma trim_digest_suffix_digest s digest :
  IsImageDigestValid digest = true ->
  trim_digest_suffix (s +:+ "@" +:+ digest) = s.
Proof.
  intros H. apply IsImageDigestValid_shape in H as (hex & -> & Hlen & Hhex).
  change (s +:+ "@" +:+ "sha256:" +:+ hex) with (s +:+ ("@sha256:" +:+ hex)).
  unfold trim_digest_suffix. rewrite string_length_app.
  assert (Hx : String.length ("@sha256:" +:+ hex) = 72%nat).
  { rewrite string_length_app, Hlen. reflexivity. }
  rewrite Hx.
  replace (String.length s + 72 - 72)%nat with (String.length s) by lia.
  replace (String.length s + 72 - 64)%nat with (String.length s + 8)%nat by lia.
  rewrite string_drop_app, string_drop_add, string_take_app.
  replace (72 <=? String.length s + 72)%nat with true
    by (symmetry; apply Nat.leb_le; lia).
  change (string_take 8 ("@sha256:" +:+ hex)) with "@sha256:".
  change (string_drop 8 ("@sha256:" +:+ hex)) with hex.
  cbn [String.eqb andb].
  replace (String.eqb "@sha256:" "@sha256:") with true by reflexivity.
  now rewrite (string_forallb_impl _ _ _ is_lower_hex_is_hex Hhex).
Qed.

Lemma trim_tag_suffix_tag s tag :
  is_tag tag = true -> trim_tag_suffix (s +:+ ":" +:+ tag) = s.
Proof.
  intros Ht. unfold trim_tag_suffix.
  change (s +:+ ":" +:+ tag) with (s +:+ String ":" tag).
  rewrite (strings_LastIndex_app_sep ":" s tag (is_tag_lacks _ ":" eq_refl Ht)).
  replace (S (String.length s)) with (String.length s + 1)%nat by lia.
  rewrite string_drop_add. cbn [string_drop]. rewrite Ht.
  apply string_take_app.
Qed.

(** X4.  [GetImageName] undoes the forming of a reference: for a valid
    image name, a valid tag and a valid digest, the name comes back from
    the name with the tag, from the name with the digest, and from the name
    with both. *)
Theorem GetImageName_round_trip imageName tag digest :
  IsImageNameValid imageName = true ->
  IsImageTagValid tag = true ->
  IsImageDigestValid digest = true ->
  GetImageName (imageName +:+ ":" +:+ tag) = imageName
  /\ GetImageName (imageName +:+ "@" +:+ digest) = imageName
  /\ GetImageName ((imageName +:+ ":" +:+ tag) +:+ "@" +:+ digest) = imageName.
Proof.
  intros Hname Htag Hdigest. unfold IsImageTagValid in Htag. unfold GetImageName.
  split; [|split].
  - rewrite trim_digest_suffix_lacks_at; [now apply trim_tag_suffix_tag|].
    apply lacks_app; [now apply IsImageNameValid_lacks_at|].
    apply lacks_app; [reflexivity | now apply is_tag_lacks].
  - rewrite trim_digest_suffix_digest by exact Hdigest.
    now apply trim_tag_suffix_valid.
  - rewrite trim_digest_suffix_digest by exact Hdigest.
    now apply trim_tag_suffix_tag.
Qed.

(** X4, on an image of a registry with a port. *)
Lemma GetImageName_round_trip_witness :
  GetImageName ("localhost:5000/foo" +:+ ":" +:+ "v1.2") = "localhost:5000/foo"
  /\ GetImageName ("localhost:5000/foo" +:+ "@"
        +:+ "sha256:0123456789abcdef0123456789abcdef0123456789abcdef0123456789abcdef")
     = "localhost:5000/foo"
  /\ GetImageName (("localhost:5000/foo" +:+ ":" +:+ "v1.2") +:+ "@"
        +:+ "sha256:0123456789abcdef0123456789abcdef0123456789abcdef0123456789abcdef")
     = "localhost:5000/foo".
Proof.
  apply GetImageName_round_trip; vm_compute; reflexivity.
Defined.

(** ** Credentials *)

Lemma strings_Index_app_sep sep a b :
  lacks sep a -> strings_Index (a +:+ String sep b) sep = Some (String.length a).
Proof.
  unfold lacks. induction a as [|c a IH]; simpl.
  - intros _. now rewrite Ascii.eqb_refl.
  - intros H. apply andb_prop in H as [Hc H]. apply negb_true_iff in Hc.
    now rewrite Hc, (IH H).
Qed.

(** X5.  When the token decodes, [ExtractCredentials] returns a user
    name and a password exactly when the decoded text is the user name, a
    colon and the password, with no colon in the user name: the text is
    cut at its first colon, and either part may be empty. *)
Theorem ExtractCredentials_first_colon decode authCred decoded username password :
  decode authCred = Some decoded ->
  (ExtractCredentials decode authCred = Ok (username, password) <->
   decoded = username +:+ ":" +:+ password /\ lacks ":" username).
Proof.
  intros Hdec. unfold ExtractCredentials. rewrite Hdec. split.
  - destruct (strings_Index decoded ":") as [i|] eqn:Hi; [|discriminate].
    intros H.
    assert (Hu : username = string_take i decoded) by congruence.
    assert (Hp : password = string_drop (S i) decoded) by congruence.
    clear H. subst username password.
    apply strings_Index_drop in Hi as [Hd Ht]. split; [|exact Ht].
    change (string_take i decoded +:+ ":" +:+ string_drop (S i) decoded)
      with (string_take i decoded +:+ String ":" (string_drop (S i) decoded)).
    rewrite <- Hd. symmetry. apply string_take_drop.
  - intros [-> Hu].
    change (username +:+ ":" +:+ password) with (username +:+ String ":" password).
    rewrite (strings_Index_app_sep _ _ _ Hu).
    rewrite string_take_app.
    replace (S (String.length username)) with (String.length username + 1)%nat by lia.
    now rewrite string_drop_add.
Qed.

(** X5, for a password that holds a colon itself. *)
Lemma ExtractCredentials_first_colon_witness :
  ExtractCredentials (fun _ => Some "user:pass:word") "dXNlcjpwYXNzOndvcmQ="
  = Ok ("user", "pass:word").
Proof.
  apply (ExtractCredentials_first_colon (fun _ => Some "user:pass:word")
           "dXNlcjpwYXNzOndvcmQ=" "user:pass:word" "user" "pass:word" eq_refl).
  split; reflexivity.
Defined.

(** ** The tag of a pushed Containerfile *)

Lemma is_lower_hex_tag_char c : is_lower_hex c = true -> is_tag_char c = true.
Proof.
  unfold is_lower_hex. intros H. apply orb_prop in H as [H|H].
  - apply is_part_char_tag_char. unfold is_part_char, is_lower_alnum.
    assert (Hr : in_range "a" "z" c = true).
    { unfold in_range in *. apply andb_prop in H as [H1 H2].
      apply Nat.leb_le in H1, H2.
      assert (Hfz : (nat_of_ascii "f" <=? nat_of_ascii "z")%nat = true) by reflexivity.
      apply Nat.leb_le in Hfz. apply andb_true_intro.
      split; apply Nat.leb_le; [exact H1 | lia]. }
    now rewrite Hr.
  - now apply is_digit_tag_char.
Qed.

Lemma validateParams_tag imageName params :
  PushContainerfile.validateParams imageName params = Ok tt ->
  IsImageTagValid (PushContainerfile.generateContainerfileImageTag params) = true
  /\ GetImageName
       (imageName +:+ ":" +:+ PushContainerfile.generateContainerfileImageTag params)
     = imageName.
Proof.
  unfold PushContainerfile.validateParams.
  destruct (IsImageNameValid imageName) eqn:Hname; [|discriminate].
  destruct (IsImageDigestValid _) eqn:Hdigest; [|discriminate].
  destruct (match_tagSuffix _) eqn:Hsuffix; [|discriminate]. intros _.
  assert (Htag : is_tag (PushContainerfile.generateContainerfileImageTag params) = true).
  { unfold PushContainerfile.generateContainerfileImageTag.
    apply IsImageDigestValid_shape in Hdigest as (hex & -> & Hlen & Hhex).
    change (replace_first ":" "-" ("sha256:" +:+ hex)) with ("sha256-" +:+ hex).
    unfold match_tagSuffix in Hsuffix.
    apply andb_prop in Hsuffix as [Hs Hchars]. apply andb_prop in Hs as [_ Hle].
    apply Nat.leb_le in Hle.
    change (("sha256-" +:+ hex) +:+ PushContainerfile.TagSuffix params)
      with (String "s" ("ha256-" +:+ hex +:+ PushContainerfile.TagSuffix params)).
    unfold is_tag. rewrite !string_forallb_app, !string_length_app, Hlen, Hchars.
    rewrite (string_forallb_impl _ _ _ is_lower_hex_tag_char Hhex).
    replace (String.length "ha256-" + (64 + String.length (PushContainerfile.TagSuffix params))
             <=? 127)%nat with true by (symmetry; apply Nat.leb_le; simpl; lia).
    reflexivity. }
  split; [exact Htag|].
  unfold GetImageName.
  rewrite trim_digest_suffix_lacks_at; [now apply trim_tag_suffix_tag|].
  apply lacks_app; [now apply IsImageNameValid_lacks_at|].
  apply lacks_app; [reflexivity | now apply is_tag_lacks].
Qed.

(** X6.  When [validateParams] accepts the parameters, the tag that
    [generateContainerfileImageTag] forms (the digest with its colon made a
    dash, then the suffix) is a valid image tag, and the reference made of
    the image name and that tag has the image name as its name. *)
Theorem generateContainerfileImageTag_valid imageName params :
  PushContainerfile.validateParams imageName params = Ok tt ->
  IsImageTagValid (PushContainerfile.generateContainerfileImageTag params) = true
  /\ GetImageName
       (imageName +:+ ":" +:+ PushContainerfile.generateContainerfileImageTag params)
     = imageName.
Proof. apply validateParams_tag. Qed.

(** X6, for the default suffix [.containerfile]. *)
Lemma generateContainerfileImageTag_valid_witness :
  IsImageTagValid (PushContainerfile.generateContainerfileImageTag push_params) = true
  /\ GetImageName
       ("quay.io/konflux-ci/foo" +:+ ":"
        +:+ PushContainerfile.generateContainerfileImageTag push_params)
     = "quay.io/konflux-ci/foo".
Proof.
  apply (generateContainerfileImageTag_valid "quay.io/konflux-ci/foo" push_params).
  vm_compute. reflexivity.
Defined.

(** ** More on credential selection *)

Lemma first_match_agree (a1 a2 : gmap string AuthEntry) keys :
  (forall k, In k keys -> a1 !! k = a2 !! k) ->
  first_match a1 keys = first_match a2 keys.
Proof.
  induction keys as [|k keys IH]; [reflexivity|]. intros H. simpl.
  rewrite (H k (or_introl eq_refl)).
  destruct (a2 !! k); [reflexivity|]. apply IH. intros k' Hk'. apply H. now right.
Qed.

(** X7.  [findAuth] reads the auth file only at the scopes of the
    repository path and at the scope of the Docker Hub index: two auth files
    that agree there give the same credential. *)
Theorem findAuth_reads_scopes_only (auths1 auths2 : RegistryAuths) imageRepo :
  (forall k, In k (scopes imageRepo) -> Auths auths1 !! k = Auths auths2 !! k) ->
  Auths auths1 !! registryIndexDockerIO = Auths auths2 !! registryIndexDockerIO ->
  findAuth auths1 imageRepo = findAuth auths2 imageRepo.
Proof.
  intros Hscopes Hindex. rewrite !findAuth_matched. unfold matched_auth.
  rewrite (first_match_agree _ _ _ Hscopes).
  unfold registryIndexDockerIO in Hindex. now rewrite Hindex.
Qed.

(** X7, for an auth file that gains a scope of another registry. *)
Lemma findAuth_reads_scopes_only_witness :
  findAuth test_auths_more "reg.io/foo/bar/baz" = findAuth test_auths "reg.io/foo/bar/baz".
Proof.
  apply findAuth_reads_scopes_only; [|reflexivity].
  intros k Hk. unfold test_auths_more. cbn [Auths]. apply lookup_insert_ne.
  intros <-. vm_compute in Hk. intuition discriminate.
Defined.

Lemma strings_LastIndex_drop s sep i :
  strings_LastIndex s sep = Some i ->
  string_drop i s = String sep (string_drop (S i) s).
Proof.
  revert i. induction s as [|c s IH]; intros i; simpl; [discriminate|].
  destruct (strings_LastIndex s sep) as [j|].
  - intros [= <-]. exact (IH j eq_refl).
  - destruct (Ascii.eqb_spec c sep) as [->|_]; [|discriminate].
    now intros [= <-].
Qed.

(** Every scope is the repository path or what is before one of its
    slashes. *)
Lemma scopes_path_prefix imageRepo k :
  In k (scopes imageRepo) ->
  k = imageRepo \/ exists rest, imageRepo = k +:+ "/" +:+ rest.
Proof.
  remember (String.length imageRepo) as n eqn:Hn. revert imageRepo Hn k.
  induction n as [n IH] using lt_wf_ind. intros s -> k.
  destruct (strings_LastIndex s slash) as [i|] eqn:Hi.
  - rewrite (scopes_step _ _ Hi). intros [<-|Hin]; [now left|]. right.
    pose proof (strings_LastIndex_lt _ _ _ Hi) as Hlt.
    pose proof (strings_LastIndex_drop _ _ _ Hi) as Hd.
    assert (Hs : s = string_take i s +:+ "/" +:+ string_drop (S i) s).
    { change (string_take i s +:+ "/" +:+ string_drop (S i) s)
        with (string_take i s +:+ String slash (string_drop (S i) s)).
      rewrite <- Hd. symmetry. apply string_take_drop. }
    assert (Hlen : (String.length (string_take i s) < String.length s)%nat)
      by (rewrite string_take_length; lia).
    destruct (IH _ Hlen (string_take i s) eq_refl k Hin) as [->|(rest & Hrest)].
    + eauto.
    + exists (rest +:+ "/" +:+ string_drop (S i) s).
      rewrite Hs at 1. rewrite Hrest at 1. now rewrite !string_app_assoc.
  - rewrite (scopes_single _ Hi). intros [<-|[]]. now left.
Qed.

(** X8.  A credential that [SelectRegistryAuth] returns is never empty
    and is the auth string that the file holds under a scope which is the
    repository path itself or what precedes one of its slashes, or, for the
    registry docker.io, under the scope of the Docker Hub index; the
    registry returned holds no slash. *)
Theorem SelectRegistryAuth_token_origin
    readAuthFile imageRef authFilePath registryAuths registryAuth :
  readAuthFile authFilePath = Ok registryAuths ->
  SelectRegistryAuth readAuthFile imageRef authFilePath = Ok registryAuth ->
  let imageRepo := GetImageName imageRef in
  Token registryAuth <> ""
  /\ no_slash (Registry registryAuth)
  /\ exists scope authEntry,
       Auths registryAuths !! scope = Some authEntry
       /\ Auth authEntry = Token registryAuth
       /\ (scope = imageRepo
           \/ (exists rest, imageRepo = scope +:+ "/" +:+ rest)
           \/ (scope = "https://index.docker.io/v1/"
               /\ Registry registryAuth = "docker.io")).
Proof.
  intros Hfile. unfold SelectRegistryAuth. rewrite Hfile.
  destruct (is_empty (GetImageName imageRef)); [discriminate|].
  rewrite findAuth_matched.
  destruct (is_empty (default "" _)) eqn:Hempty; [discriminate|].
  intros [= <-]. cbn [Token Registry]. apply String.eqb_neq in Hempty.
  split; [exact Hempty|]. split.
  - unfold first_segment.
    pose proof (strings_Split_no_slash (GetImageName imageRef)) as Hall.
    destruct (strings_Split slash (GetImageName imageRef)); [reflexivity|].
    now inversion Hall.
  - revert Hempty. unfold matched_auth.
    destruct (first_match _ _) as [tok|] eqn:Hfirst.
    + intros _. cbn [default].
      assert (Hex : exists scope authEntry, In scope (scopes (GetImageName imageRef))
                /\ Auths registryAuths !! scope = Some authEntry
                /\ Auth authEntry = tok).
      { revert Hfirst. generalize (scopes (GetImageName imageRef)).
        induction l as [|k l IH]; simpl; [discriminate|].
        destruct (Auths registryAuths !! k) as [e|] eqn:Hk.
        - intros [= <-]. exists k, e. auto.
        - intros H. destruct (IH H) as (scope & e & Hin & Hs & He).
          exists scope, e. auto. }
      destruct Hex as (scope & e & Hin & Hs & He). exists scope, e.
      split; [exact Hs|]. split; [exact He|].
      apply scopes_path_prefix in Hin as [->|H]; [now left | right; now left].
    + destruct (String.eqb_spec (first_segment (GetImageName imageRef)) "docker.io")
        as [Hreg|_]; [|now intros []].
      destruct (Auths registryAuths !! "https://index.docker.io/v1/") as [e|] eqn:He;
        [|now intros []].
      intros _. exists "https://index.docker.io/v1/", e.
      split; [exact He|]. split; [reflexivity|]. right. right. now split.
Qed.

(** X8, for the image below the scope [reg.io/foo/bar]. *)
Lemma SelectRegistryAuth_token_origin_witness :
  Token {| Registry := "reg.io"; Token := "reg.io-foo-bar token" |} <> ""
  /\ no_slash "reg.io"
  /\ exists scope authEntry,
       Auths test_auths !! scope = Some authEntry
       /\ Auth authEntry = "reg.io-foo-bar token"
       /\ (scope = GetImageName "reg.io/foo/bar/baz:tag"
           \/ (exists rest, GetImageName "reg.io/foo/bar/baz:tag" = scope +:+ "/" +:+ rest)
           \/ (scope = "https://index.docker.io/v1/" /\ "reg.io" = "docker.io")).
Proof.
  exact (SelectRegistryAuth_token_origin (fun _ => Ok test_auths)
           "reg.io/foo/bar/baz:tag" "config.json" test_auths
           {| Registry := "reg.io"; Token := "reg.io-foo-bar token" |}
           eq_refl eq_refl).
Defined.

(** ** Parsing secret directories *)

Example parseSecretDirs_examples :
  parseSecretDirs ascii_TrimSpace ["/run/a"; "src=/run/b, name=custom ,optional=true"]
  = Ok [ {| src := "/run/a"; name := ""; optional := false |};
         {| src := "/run/b"; name := "custom"; optional := true |} ]
  /\ parseSecretDirs ascii_TrimSpace ["src=/path,invalid=value"]
     = Err (InvalidAttribute "invalid")
  /\ parseSecretDirs ascii_TrimSpace ["src=/path,optional=maybe"]
     = Err (InvalidOptionalValue "maybe").
Proof. repeat split; reflexivity. Qed.

Lemma strings_Split_sep_nonempty sep s : strings_Split sep s <> [].
Proof.
  destruct s as [|c s]; simpl; [discriminate|].
  destruct (Ascii.eqb c sep); [discriminate|].
  destruct (strings_Split sep s); discriminate.
Qed.

Lemma strings_Split_lacks sep e : lacks sep e -> strings_Split sep e = [e].
Proof.
  unfold lacks. induction e as [|c e IH]; simpl; [reflexivity|].
  intros H. apply andb_prop in H as [Hc He].
  apply negb_true_iff in Hc. now rewrite Hc, (IH He).
Qed.

Lemma strings_Split_app_sep sep e s :
  lacks sep e ->
  strings_Split sep (e +:+ String sep s) = e :: strings_Split sep s.
Proof.
  unfold lacks. induction e as [|c e IH]; simpl.
  - intros _. now rewrite Ascii.eqb_refl.
  - intros H. apply andb_prop in H as [Hc He].
    apply negb_true_iff in Hc. now rewrite Hc, (IH He).
Qed.

(** X9.  An argument written in the full syntax parses back to the spec
    it was written from, provided its directory and alias hold no comma and
    [TrimSpace] leaves them and the keywords as they are. *)
Theorem parseSecretDirs_round_trip (TrimSpace : string -> string) (d : secretDir) :
  Forall (fun w => TrimSpace w = w)
         ["src"; "name"; "optional"; "true"; "false"; src d; name d] ->
  lacks "," (src d) -> lacks "," (name d) ->
  parseSecretDirs TrimSpace [secretDir_arg d] = Ok [d].
Proof.
  intros Htrim Hsrc Hname.
  repeat (apply Forall_cons in Htrim as [? Htrim]).
  assert (Hopt : lacks "," (if optional d then "true" else "false"))
    by (now destruct (optional d)).
  unfold parseSecretDirs, secretDir_arg. cbn [parse_args].
  assert (Hsplit :
    strings_Split ","
      ("src=" +:+ src d +:+ ",name=" +:+ name d
       +:+ ",optional=" +:+ (if optional d then "true" else "false"))
    = [ "src=" +:+ src d; "name=" +:+ name d;
        "optional=" +:+ (if optional d then "true" else "false") ]).
  { change ("src=" +:+ src d +:+ ",name=" +:+ name d
            +:+ ",optional=" +:+ (if optional d then "true" else "false"))
      with (("src=" +:+ src d)
            +:+ String "," (("name=" +:+ name d)
                 +:+ String "," ("optional=" +:+ (if optional d then "true" else "false")))).
    rewrite strings_Split_app_sep by (apply lacks_app; [reflexivity | exact Hsrc]).
    rewrite strings_Split_app_sep by (apply lacks_app; [reflexivity | exact Hname]).
    rewrite strings_Split_lacks by (apply lacks_app; [reflexivity | exact Hopt]).
    reflexivity. }
  rewrite Hsplit. clear Hsplit.
  cbn [parse_keyValues].
  change (strings_Cut ("src=" +:+ src d) "=") with ("src", src d, true).
  change (strings_Cut ("name=" +:+ name d) "=") with ("name", name d, true).
  change (strings_Cut ("optional=" +:+ (if optional d then "true" else "false")) "=")
    with ("optional", if optional d then "true" else "false", true).
  cbv iota beta.
  repeat match goal with H : TrimSpace _ = _ |- _ => rewrite H; clear H end.
  destruct d as [s n o]. cbn. destruct o.
  - repeat match goal with H : TrimSpace _ = _ |- _ => rewrite H end. reflexivity.
  - repeat match goal with H : TrimSpace _ = _ |- _ => rewrite H end. reflexivity.
Qed.

(** X9, for an optional directory under an alias. *)
Lemma parseSecretDirs_round_trip_witness :
  parseSecretDirs ascii_TrimSpace
    [secretDir_arg {| src := "/run/b"; name := "custom"; optional := true |}]
  = Ok [ {| src := "/run/b"; name := "custom"; optional := true |} ].
Proof.
  apply parseSecretDirs_round_trip;
    [repeat constructor | reflexivity | reflexivity].
Defined.

Lemma lacks_Index sep s : lacks sep s -> strings_Index s sep = None.
Proof.
  unfold lacks. induction s as [|c s IH]; simpl; [reflexivity|].
  intros H. apply andb_prop in H as [Hc H]. apply negb_true_iff in Hc.
  now rewrite Hc, (IH H).
Qed.

Lemma lacks_Split_head c sep s h t :
  lacks c s -> strings_Split sep s = h :: t -> lacks c h.
Proof.
  unfold lacks. revert h t. induction s as [|x s IH]; intros h t; simpl.
  - intros _ [= <- <-]. reflexivity.
  - intros H. apply andb_prop in H as [Hx H].
    destruct (Ascii.eqb x sep).
    + intros [= <- <-]. reflexivity.
    + destruct (strings_Split sep s) as [|h' t'] eqn:Hs.
      * intros [= <- <-]. simpl. now rewrite Hx.
      * intros [= <- <-]. simpl. rewrite Hx. exact (IH h' t' H eq_refl).
Qed.

Lemma parse_keyValues_shorthand TrimSpace tok d :
  lacks "=" tok -> TrimSpace "src" = "src" ->
  parse_keyValues TrimSpace (strings_Split "," tok) d
  = parse_keyValues TrimSpace (strings_Split "," ("src=" +:+ tok)) d.
Proof.
  intros Htok Hsrc.
  pose proof (strings_Split_sep_nonempty "," tok) as Hne.
  destruct (strings_Split "," tok) as [|h t] eqn:Hs; [congruence|].
  assert (Hs' : strings_Split "," ("src=" +:+ tok) = ("src=" +:+ h) :: t).
  { cbn [String.append strings_Split Ascii.eqb Bool.eqb]. now rewrite Hs. }
  rewrite Hs'. cbn [parse_keyValues].
  pose proof (lacks_Split_head _ _ _ _ _ Htok Hs) as Hh.
  unfold strings_Cut at 1. rewrite (lacks_Index _ _ Hh).
  change (strings_Cut ("src=" +:+ h) "=") with ("src", h, true).
  cbv iota beta. now rewrite Hsrc.
Qed.



(** ** The buildah wrapper *)

Lemma filepath_Abs_abs fs path abspath :
  getwd_absolute fs -> filepath_Abs fs path = Ok abspath ->
  filepath_IsAbs abspath = true.
Proof.
  intros Hwd. unfold filepath_Abs.
  destruct (filepath_IsAbs path) eqn:Hp.
  - intros [= <-]. now apply filepath_Clean_rooted.
  - destruct (getwd fs) as [wd|e] eqn:Hg; [|discriminate].
    intros [= <-]. apply filepath_Join_abs. now apply Hwd.
Qed.

Lemma ensureAbsolute_abs fs baseDir path abspath :
  getwd_absolute fs -> Buildah.ensureAbsolute fs baseDir path = Ok abspath ->
  filepath_IsAbs abspath = true.
Proof.
  intros Hwd. unfold Buildah.ensureAbsolute.
  destruct (filepath_IsAbs path) eqn:Hp; [now intros [= <-]|].
  destruct (filepath_Abs fs _) as [a|e] eqn:Ha; [|discriminate].
  intros [= <-]. exact (filepath_Abs_abs _ _ _ Hwd Ha).
Qed.

Lemma absolute_secrets_ok fs baseDir secrets secrets' :
  getwd_absolute fs ->
  Buildah.absolute_secrets fs baseDir secrets = (secrets', None) ->
  Forall (fun secret => filepath_IsAbs (Src secret) = true) secrets'
  /\ map Id secrets' = map Id secrets.
Proof.
  intros Hwd. revert secrets'.
  induction secrets as [|secret rest IH]; intros secrets'; simpl.
  - intros [= <-]. split; constructor.
  - destruct (Buildah.ensureAbsolute fs baseDir (Src secret)) as [p|e] eqn:Hp;
      [|discriminate].
    destruct (Buildah.absolute_secrets fs baseDir rest) as [rest' err].
    intros [= <- ->]. destruct (IH rest' eq_refl) as [Hall Hids]. split.
    + constructor; [exact (ensureAbsolute_abs _ _ _ _ Hwd Hp) | exact Hall].
    + simpl. now rewrite Hids.
Qed.

Lemma absolute_volumes_ok fs baseDir volumes volumes' :
  getwd_absolute fs ->
  Buildah.absolute_volumes fs baseDir volumes = (volumes', None) ->
  Forall (fun volume => filepath_IsAbs (Buildah.HostDir volume) = true) volumes'
  /\ map Buildah.ContainerDir volumes' = map Buildah.ContainerDir volumes
  /\ map Buildah.Options volumes' = map Buildah.Options volumes.
Proof.
  intros Hwd. revert volumes'.
  induction volumes as [|volume rest IH]; intros volumes'; simpl.
  - intros [= <-]. repeat split; constructor.
  - destruct (Buildah.ensureAbsolute fs baseDir (Buildah.HostDir volume))
      as [p|e] eqn:Hp; [|discriminate].
    destruct (Buildah.absolute_volumes fs baseDir rest) as [rest' err].
    intros [= <- ->]. destruct (IH rest' eq_refl) as (Hall & Hc & Ho).
    split; [|split].
    + constructor; [exact (ensureAbsolute_abs _ _ _ _ Hwd Hp) | exact Hall].
    + simpl. now rewrite Hc.
    + simpl. now rewrite Ho.
Qed.

Lemma MakePathsAbsolute_ok fs baseDir args args' :
  getwd_absolute fs ->
  Buildah.MakePathsAbsolute fs baseDir args = (args', None) ->
  filepath_IsAbs (Buildah.Containerfile args') = true
  /\ filepath_IsAbs (Buildah.ContextDir args') = true
  /\ Forall (fun secret => filepath_IsAbs (Src secret) = true) (Buildah.Secrets args')
  /\ Forall (fun volume => filepath_IsAbs (Buildah.HostDir volume) = true)
            (Buildah.Volumes args')
  /\ map Id (Buildah.Secrets args') = map Id (Buildah.Secrets args)
  /\ map Buildah.ContainerDir (Buildah.Volumes args')
     = map Buildah.ContainerDir (Buildah.Volumes args)
  /\ map Buildah.Options (Buildah.Volumes args')
     = map Buildah.Options (Buildah.Volumes args)
  /\ Buildah.OutputRef args' = Buildah.OutputRef args
  /\ Buildah.ExtraArgs args' = Buildah.ExtraArgs args.
Proof.
  intros Hwd. unfold Buildah.MakePathsAbsolute.
  destruct (Buildah.ensureAbsolute fs baseDir (Buildah.Containerfile args))
    as [cf|e] eqn:Hcf; [|discriminate].
  cbn [Buildah.ContextDir Buildah.Secrets Buildah.Volumes].
  destruct (Buildah.ensureAbsolute fs baseDir (Buildah.ContextDir args))
    as [cd|e] eqn:Hcd; [|discriminate].
  destruct (Buildah.absolute_secrets fs baseDir (Buildah.Secrets args))
    as [secrets [e|]] eqn:Hs; [discriminate|].
  destruct (Buildah.absolute_volumes fs baseDir (Buildah.Volumes args))
    as [volumes err] eqn:Hv.
  intros [= <- ->]. cbn.
  apply (absolute_secrets_ok _ _ _ _ Hwd) in Hs as [Hs1 Hs2].
  apply (absolute_volumes_ok _ _ _ _ Hwd) in Hv as (Hv1 & Hv2 & Hv3).
  repeat split; try assumption.
  - exact (ensureAbsolute_abs _ _ _ _ Hwd Hcf).
  - exact (ensureAbsolute_abs _ _ _ _ Hwd Hcd).
Qed.

(** X11.  When [MakePathsAbsolute] returns no error (the working
    directory being absolute, as [os.Getwd] gives it), the Containerfile,
    the context directory, the src of every secret and the host directory
    of every volume are absolute paths; the ids of the secrets, the
    container directories and options of the volumes, the output reference
    and the extra arguments are as before. *)
Theorem MakePathsAbsolute_absolute fs baseDir args args' :
  getwd_absolute fs ->
  Buildah.MakePathsAbsolute fs baseDir args = (args', None) ->
  filepath_IsAbs (Buildah.Containerfile args') = true
  /\ filepath_IsAbs (Buildah.ContextDir args') = true
  /\ Forall (fun secret => filepath_IsAbs (Src secret) = true) (Buildah.Secrets args')
  /\ Forall (fun volume => filepath_IsAbs (Buildah.HostDir volume) = true)
            (Buildah.Volumes args')
  /\ map Id (Buildah.Secrets args') = map Id (Buildah.Secrets args)
  /\ map Buildah.ContainerDir (Buildah.Volumes args')
     = map Buildah.ContainerDir (Buildah.Volumes args)
  /\ map Buildah.Options (Buildah.Volumes args')
     = map Buildah.Options (Buildah.Volumes args)
  /\ Buildah.OutputRef args' = Buildah.OutputRef args
  /\ Buildah.ExtraArgs args' = Buildah.ExtraArgs args.
Proof. apply MakePathsAbsolute_ok. Qed.

(** X11, for arguments with relative paths, made absolute below
    [/work]. *)
Lemma MakePathsAbsolute_absolute_witness :
  filepath_IsAbs "/work/Containerfile" = true
  /\ filepath_IsAbs "/work" = true
  /\ Forall (fun secret => filepath_IsAbs (Src secret) = true)
       [ {| Src := "/work/secrets/token"; Id := "secrets/token" |};
         {| Src := "/run/k8s/token"; Id := "custom/token" |} ]
  /\ Forall (fun volume => filepath_IsAbs (Buildah.HostDir volume) = true)
       [ {| Buildah.HostDir := "/work"; Buildah.ContainerDir := "/workdir";
            Buildah.Options := "z" |} ]
  /\ ["secrets/token"; "custom/token"] = map Id (Buildah.Secrets build_args_relative)
  /\ ["/workdir"] = map Buildah.ContainerDir (Buildah.Volumes build_args_relative)
  /\ ["z"] = map Buildah.Options (Buildah.Volumes build_args_relative)
  /\ "quay.io/konflux-ci/foo:latest" = Buildah.OutputRef build_args_relative
  /\ ["--layers"] = Buildah.ExtraArgs build_args_relative.
Proof.
  refine (MakePathsAbsolute_absolute fs_bare "/work" build_args_relative
            {| Buildah.Containerfile := "/work/Containerfile";
               Buildah.ContextDir := "/work";
               Buildah.OutputRef := "quay.io/konflux-ci/foo:latest";
               Buildah.Secrets := [ {| Src := "/work/secrets/token"; Id := "secrets/token" |};
                                    {| Src := "/run/k8s/token"; Id := "custom/token" |} ];
               Buildah.Volumes := [ {| Buildah.HostDir := "/work";
                                       Buildah.ContainerDir := "/workdir";
                                       Buildah.Options := "z" |} ];
               Buildah.ExtraArgs := ["--layers"] |} _ eq_refl).
  intros wd [= <-]. reflexivity.
Defined.

Lemma ensureAbsolute_fixed fs baseDir path :
  filepath_IsAbs path = true -> Buildah.ensureAbsolute fs baseDir path = Ok path.
Proof. intros H. unfold Buildah.ensureAbsolute. now rewrite H. Qed.

Lemma absolute_secrets_fixed fs baseDir secrets :
  Forall (fun secret => filepath_IsAbs (Src secret) = true) secrets ->
  Buildah.absolute_secrets fs baseDir secrets = (secrets, None).
Proof.
  induction 1 as [|[s i] rest Hs _ IH]; [reflexivity|]. simpl in *.
  now rewrite (ensureAbsolute_fixed _ _ _ Hs), IH.
Qed.

Lemma absolute_volumes_fixed fs baseDir volumes :
  Forall (fun volume => filepath_IsAbs (Buildah.HostDir volume) = true) volumes ->
  Buildah.absolute_volumes fs baseDir volumes = (volumes, None).
Proof.
  induction 1 as [|[h c o] rest Hs _ IH]; [reflexivity|]. simpl in *.
  now rewrite (ensureAbsolute_fixed _ _ _ Hs), IH.
Qed.

Lemma MakePathsAbsolute_fixed fs baseDir args :
  filepath_IsAbs (Buildah.Containerfile args) = true ->
  filepath_IsAbs (Buildah.ContextDir args) = true ->
  Forall (fun secret => filepath_IsAbs (Src secret) = true) (Buildah.Secrets args) ->
  Forall (fun volume => filepath_IsAbs (Buildah.HostDir volume) = true)
         (Buildah.Volumes args) ->
  Buildah.MakePathsAbsolute fs baseDir args = (args, None).
Proof.
  intros Hcf Hcd Hs Hv. destruct args as [cf cd ref secrets volumes extra].
  unfold Buildah.MakePathsAbsolute. cbn in *.
  rewrite (ensureAbsolute_fixed _ _ _ Hcf), (ensureAbsolute_fixed _ _ _ Hcd).
  now rewrite (absolute_secrets_fixed _ _ _ Hs), (absolute_volumes_fixed _ _ _ Hv).
Qed.

(** X12.  [MakePathsAbsolute] is idempotent: arguments it has made
    absolute without error are returned unchanged, without error, by
    another call, whatever the base directory and the working directory
    then are. *)
Theorem MakePathsAbsolute_idempotent fs baseDir args args' fs' baseDir' :
  getwd_absolute fs ->
  Buildah.MakePathsAbsolute fs baseDir args = (args', None) ->
  Buildah.MakePathsAbsolute fs' baseDir' args' = (args', None).
Proof.
  intros Hwd H.
  destruct (MakePathsAbsolute_ok _ _ _ _ Hwd H) as (H1 & H2 & H3 & H4 & _).
  now apply MakePathsAbsolute_fixed.
Qed.

(** X12, for the arguments with relative paths: what the first call made
    of them below [/work] is left alone by a call with another base and
    another working directory. *)
Lemma MakePathsAbsolute_idempotent_witness :
  Buildah.MakePathsAbsolute fs_denied "/elsewhere"
    (fst (Buildah.MakePathsAbsolute fs_bare "/work" build_args_relative))
  = (fst (Buildah.MakePathsAbsolute fs_bare "/work" build_args_relative), None).
Proof.
  refine (MakePathsAbsolute_idempotent fs_bare "/work" build_args_relative _
            fs_denied "/elsewhere" _ eq_refl).
  intros wd [= <-]. reflexivity.
Defined.

Lemma has_colon_false s : Buildah.has_colon s = false -> lacks ":" s.
Proof.
  unfold Buildah.has_colon. intros H. apply strings_Index_None.
  now destruct (strings_Index s ":").
Qed.

Lemma validate_volumes_lacks volumes volume :
  Buildah.validate_volumes volumes = None -> In volume volumes ->
  lacks ":" (Buildah.HostDir volume) /\ lacks ":" (Buildah.ContainerDir volume).
Proof.
  induction volumes as [|v rest IH]; simpl; [intros _ []|].
  destruct (Buildah.has_colon (Buildah.HostDir v)) eqn:Hh; [discriminate|].
  destruct (Buildah.has_colon (Buildah.ContainerDir v)) eqn:Hc; [discriminate|].
  intros Hrest [<-|Hin]; [|now apply IH].
  split; now apply has_colon_false.
Qed.

Lemma volumeArg_Split volume :
  lacks ":" (Buildah.HostDir volume) -> lacks ":" (Buildah.ContainerDir volume) ->
  strings_Split ":" (Buildah.volumeArg volume)
  = Buildah.HostDir volume :: Buildah.ContainerDir volume
    :: (if is_empty (Buildah.Options volume) then []
        else strings_Split ":" (Buildah.Options volume)).
Proof.
  intros Hh Hc. unfold Buildah.volumeArg.
  destruct (is_empty (Buildah.Options volume)); simpl.
  - rewrite (strings_Split_app_sep _ _ _ Hh). f_equal.
    now apply strings_Split_lacks.
  - rewrite string_app_assoc. simpl.
    rewrite (strings_Split_app_sep _ _ _ Hh). f_equal.
    now rewrite (strings_Split_app_sep _ _ _ Hc).
Qed.



(** ** The injections of the prefetch command *)

Lemma map_leaves_obj f data :
  map_leaves f (JObj data)
  = match packages_of data with
    | Some packages => JObj (<["packages" := JArr (map (map_leaves f) packages)]> data)
    | None => if is_rpm_type data then JObj (f data) else JObj data
    end.
Proof.
  simpl. unfold packages_of. rewrite lookup_fmap.
  destruct (data !! "packages") as [[]|]; reflexivity.
Qed.

Lemma injectSummaryInSBOMField_map_leaves input :
  injectSummaryInSBOMField input = map_leaves set_summary_flag input.
Proof.
  induction input as [| | | |items IH|fields IH] using json_induction;
    try reflexivity.
  - simpl. f_equal. now apply map_ext_in.
  - rewrite injectSummaryInSBOMField_obj, map_leaves_obj.
    destruct (packages_of fields) as [packages|] eqn:Hp; [|reflexivity].
    apply packages_of_field in Hp. specialize (IH _ _ Hp). simpl in IH.
    congruence.
Qed.

Lemma injectSSLOptions_map_leaves input ssl :
  injectSSLOptions input ssl = map_leaves (fun data => inject_ssl_leaf data ssl) input.
Proof.
  induction input as [| | | |items IH|fields IH] using json_induction;
    try reflexivity.
  - simpl. f_equal. now apply map_ext_in.
  - rewrite injectSSLOptions_obj, map_leaves_obj.
    destruct (packages_of fields) as [packages|] eqn:Hp; [|reflexivity].
    apply packages_of_field in Hp. specialize (IH _ _ Hp). simpl in IH.
    congruence.
Qed.

Lemma packages_of_insert_packages data packages :
  packages_of (<["packages" := JArr packages]> data) = Some packages.
Proof. unfold packages_of. now rewrite lookup_insert_eq. Qed.

Lemma packages_of_insert_ne k v data :
  k <> "packages" -> packages_of (<[k := v]> data) = packages_of data.
Proof. intros Hk. unfold packages_of. now rewrite lookup_insert_ne. Qed.

Lemma is_rpm_type_insert_ne k v data :
  k <> "type" -> is_rpm_type (<[k := v]> data) = is_rpm_type data.
Proof. intros Hk. unfold is_rpm_type. now rewrite lookup_insert_ne. Qed.

Lemma keeps_leaf_set_summary_flag : keeps_leaf set_summary_flag.
Proof.
  intros data Hp Ht. unfold set_summary_flag.
  now rewrite packages_of_insert_ne, is_rpm_type_insert_ne.
Qed.

Lemma inject_ssl_leaf_insert data ssl :
  exists options, inject_ssl_leaf data ssl = <["options" := options]> data.
Proof.
  unfold inject_ssl_leaf.
  destruct (data !! "options") as [[| | | | |o]|]; eauto.
  destruct (o !! "ssl") as [[| | | | |m]|]; eauto.
Qed.

Lemma keeps_leaf_inject_ssl_leaf ssl :
  keeps_leaf (fun data => inject_ssl_leaf data ssl).
Proof.
  intros data Hp Ht. destruct (inject_ssl_leaf_insert data ssl) as [o ->].
  now rewrite packages_of_insert_ne, is_rpm_type_insert_ne.
Qed.

Lemma leaf_of_arr items leaf :
  leaf_of (JArr items) leaf <-> exists item, In item items /\ leaf_of item leaf.
Proof.
  split.
  - inversion 1; subst; eauto.
  - intros (item & Hin & Hl). eapply leaf_of_array; eauto.
Qed.

Lemma leaf_of_obj_packages data packages leaf :
  packages_of data = Some packages ->
  leaf_of (JObj data) leaf <-> leaf_of (JArr packages) leaf.
Proof.
  intros Hp. split.
  - inversion 1; subst; [|congruence].
    eapply leaf_of_array; eauto. congruence.
  - inversion 1; subst. eapply leaf_of_packages; eauto.
Qed.

Lemma leaf_of_obj_leaf data leaf :
  packages_of data = None ->
  leaf_of (JObj data) leaf <-> is_rpm_type data = true /\ leaf = data.
Proof.
  intros Hp. split.
  - inversion 1; subst; [congruence|]. now split.
  - intros [Ht ->]. now apply leaf_of_leaf.
Qed.

Lemma map_leaves_leaves f input leaf :
  keeps_leaf f ->
  leaf_of (map_leaves f input) leaf
  <-> exists leaf0, leaf_of input leaf0 /\ leaf = f leaf0.
Proof.
  intros Hf. revert leaf.
  induction input as [| | | |items IH|fields IH] using json_induction; intros leaf;
    try solve [split; [inversion 1 | intros (? & H & _); inversion H]].
  - simpl. rewrite leaf_of_arr. split.
    + intros (item' & Hin & Hl). apply in_map_iff in Hin as (item & <- & Hin).
      apply (IH _ Hin) in Hl as (leaf0 & Hl & ->).
      exists leaf0. split; [|reflexivity]. eapply leaf_of_array; eauto.
    + intros (leaf0 & Hl & ->). apply leaf_of_arr in Hl as (item & Hin & Hl).
      exists (map_leaves f item). split; [now apply in_map|].
      apply (IH _ Hin). eauto.
  - rewrite map_leaves_obj.
    destruct (packages_of fields) as [packages|] eqn:Hp.
    + rewrite (leaf_of_obj_packages _ _ _ (packages_of_insert_packages _ _)).
      apply packages_of_field in Hp as Hfield.
      rewrite (IH _ _ Hfield leaf : leaf_of (JArr (map _ _)) leaf <-> _).
      split; intros (leaf0 & Hl & ->); exists leaf0; (split; [|reflexivity]);
        now apply (leaf_of_obj_packages _ _ _ Hp).
    + destruct (is_rpm_type fields) eqn:Ht.
      * destruct (Hf _ Hp Ht) as [Hp' Ht'].
        rewrite (leaf_of_obj_leaf _ _ Hp'). split.
        -- intros [_ ->]. exists fields. split; [now apply leaf_of_leaf|reflexivity].
        -- intros (leaf0 & Hl & ->).
           apply (leaf_of_obj_leaf _ _ Hp) in Hl as [_ ->]. now split.
      * split.
        -- intros Hl. apply (leaf_of_obj_leaf _ _ Hp) in Hl as [Hl _]. congruence.
        -- intros (leaf0 & Hl & _).
           apply (leaf_of_obj_leaf _ _ Hp) in Hl as [Hl _]. congruence.
Qed.

Lemma map_leaves_ext f g input :
  (forall data, packages_of data = None -> is_rpm_type data = true -> f data = g data) ->
  map_leaves f input = map_leaves g input.
Proof.
  intros Hfg.
  induction input as [| | | |items IH|fields IH] using json_induction;
    try reflexivity.
  - simpl. f_equal. now apply map_ext_in.
  - rewrite !map_leaves_obj.
    destruct (packages_of fields) as [packages|] eqn:Hp.
    + apply packages_of_field in Hp. specialize (IH _ _ Hp). simpl in IH.
      congruence.
    + destruct (is_rpm_type fields) eqn:Ht; [|reflexivity].
      now rewrite (Hfg _ Hp Ht).
Qed.

Lemma map_leaves_compose f g input :
  keeps_leaf g ->
  map_leaves f (map_leaves g input) = map_leaves (fun data => f (g data)) input.
Proof.
  intros Hg.
  induction input as [| | | |items IH|fields IH] using json_induction;
    try reflexivity.
  - simpl. f_equal. rewrite map_map. now apply map_ext_in.
  - rewrite (map_leaves_obj g), (map_leaves_obj (fun data => f (g data))).
    destruct (packages_of fields) as [packages|] eqn:Hp.
    + rewrite map_leaves_obj, packages_of_insert_packages, insert_insert_eq.
      apply packages_of_field in Hp. specialize (IH _ _ Hp). simpl in IH.
      congruence.
    + destruct (is_rpm_type fields) eqn:Ht.
      * destruct (Hg _ Hp Ht) as [Hp' Ht'].
        now rewrite map_leaves_obj, Hp', Ht'.
      * now rewrite map_leaves_obj, Hp, Ht.
Qed.

Lemma containsRPM_map_leaves f input :
  keeps_leaf f -> containsRPM (map_leaves f input) = containsRPM input.
Proof.
  intros Hf.
  induction input as [| | | |items IH|fields IH] using json_induction;
    try reflexivity.
  - simpl. induction items as [|item items IHitems]; [reflexivity|].
    simpl. rewrite (IH item (or_introl eq_refl)). f_equal.
    apply IHitems. intros item' Hin. apply IH. now right.
  - rewrite map_leaves_obj, (containsRPM_obj fields).
    destruct (packages_of fields) as [packages|] eqn:Hp.
    + rewrite containsRPM_obj, packages_of_insert_packages.
      rewrite is_rpm_type_insert_ne by discriminate.
      apply packages_of_field in Hp. specialize (IH _ _ Hp). simpl in IH.
      now rewrite IH.
    + destruct (is_rpm_type fields) eqn:Ht.
      * destruct (Hf _ Hp Ht) as [Hp' Ht'].
        now rewrite containsRPM_obj, Hp', Ht'.
      * now rewrite containsRPM_obj, Hp, Ht.
Qed.

Lemma set_summary_flag_idemp data :
  set_summary_flag (set_summary_flag data) = set_summary_flag data.
Proof. unfold set_summary_flag. apply insert_insert_eq. Qed.

Lemma inject_ssl_leaf_idemp data ssl :
  inject_ssl_leaf (inject_ssl_leaf data ssl) ssl = inject_ssl_leaf data ssl.
Proof.
  assert (Hfresh : forall d : gmap string json,
             inject_ssl_leaf (<["options" := JObj {["ssl" := JObj ssl]}]> d) ssl
             = <["options" := JObj {["ssl" := JObj ssl]}]> d).
  { intros d. unfold inject_ssl_leaf.
    rewrite lookup_insert_eq, lookup_singleton_eq, insert_insert_eq.
    now rewrite (idemp_L (∪) ssl), insert_singleton_eq. }
  assert (Hcases :
            inject_ssl_leaf data ssl = <["options" := JObj {["ssl" := JObj ssl]}]> data
            \/ exists o m, o !! "ssl" = Some (JObj m)
                 /\ inject_ssl_leaf data ssl
                    = <["options" := JObj (<["ssl" := JObj (ssl ∪ m)]> o)]> data).
  { unfold inject_ssl_leaf.
    destruct (data !! "options") as [[| | | | |o]|]; auto.
    destruct (o !! "ssl") as [[| | | | |m]|] eqn:Hm; eauto. }
  destruct Hcases as [->|(o & m & Hm & ->)]; [apply Hfresh|].
  unfold inject_ssl_leaf.
  rewrite lookup_insert_eq, lookup_insert_eq, !insert_insert_eq.
  now rewrite (assoc_L (∪)), (idemp_L (∪) ssl).
Qed.


(** X15.  Both injections are idempotent: injecting the summary flag, or
    the same SSL options, a second time changes nothing. *)
Theorem injections_idempotent input ssl :
  injectSummaryInSBOMField (injectSummaryInSBOMField input)
  = injectSummaryInSBOMField input
  /\ injectSSLOptions (injectSSLOptions input ssl) ssl = injectSSLOptions input ssl.
Proof.
  split.
  - rewrite !injectSummaryInSBOMField_map_leaves.
    rewrite (map_leaves_compose _ _ _ keeps_leaf_set_summary_flag).
    apply map_leaves_ext. intros data _ _. apply set_summary_flag_idemp.
  - rewrite !injectSSLOptions_map_leaves.
    rewrite (map_leaves_compose _ _ _ (keeps_leaf_inject_ssl_leaf ssl)).
    apply map_leaves_ext. intros data _ _. apply inject_ssl_leaf_idemp.
Qed.

(** X16.  The injections neither add nor remove an rpm package as
    [containsRPM] sees it: [containsRPM] gives the same answer on the
    input and on what either injection returns. *)
Theorem containsRPM_injected input ssl :
  containsRPM (injectSummaryInSBOMField input) = containsRPM input
  /\ containsRPM (injectSSLOptions input ssl) = containsRPM input.
Proof.
  rewrite injectSummaryInSBOMField_map_leaves, injectSSLOptions_map_leaves.
  split; apply containsRPM_map_leaves.
  - apply keeps_leaf_set_summary_flag.
  - apply keeps_leaf_inject_ssl_leaf.
Qed.

Lemma inject_ssl_leaf_options data ssl :
  exists options sslm,
    inject_ssl_leaf data ssl !! "options" = Some (JObj options)
    /\ options !! "ssl" = Some (JObj sslm)
    /\ (forall k v, ssl !! k = Some v -> sslm !! k = Some v)
    /\ (forall k, k <> "options" -> inject_ssl_leaf data ssl !! k = data !! k).
Proof.
  unfold inject_ssl_leaf.
  assert (Hfresh : exists options sslm,
             (<["options" := JObj {["ssl" := JObj ssl]}]> data : gmap string json)
               !! "options" = Some (JObj options)
             /\ options !! "ssl" = Some (JObj sslm)
             /\ (forall k v, ssl !! k = Some v -> sslm !! k = Some v)
             /\ (forall k, k <> "options" ->
                   (<["options" := JObj {["ssl" := JObj ssl]}]> data : gmap string json)
                     !! k = data !! k)).
  { exists {["ssl" := JObj ssl]}, ssl. rewrite lookup_insert_eq, lookup_singleton_eq.
    repeat split; auto. intros k Hk. now apply lookup_insert_ne. }
  destruct (data !! "options") as [[| | | | |o]|]; try exact Hfresh.
  destruct (o !! "ssl") as [[| | | | |m]|]; try exact Hfresh.
  exists (<["ssl" := JObj (ssl ∪ m)]> o), (ssl ∪ m).
  rewrite !lookup_insert_eq. repeat split; auto.
  - intros k v Hk. now apply lookup_union_Some_l.
  - intros k Hk. now apply lookup_insert_ne.
Qed.

Lemma entitlement_paths_origin files k0 c0 :
  let '(k, c) :=
    fold_left
      (fun '(clientKeyPath, clientCertPath) file =>
         if strings_HasSuffix file "-key.pem" then (file, clientCertPath)
         else (clientKeyPath, file))
      files (k0, c0) in
  (k = k0 \/ In k files /\ strings_HasSuffix k "-key.pem" = true)
  /\ (c = c0 \/ In c files /\ strings_HasSuffix c "-key.pem" = false).
Proof.
  revert k0 c0. induction files as [|file files IH]; intros k0 c0; simpl; [auto|].
  destruct (strings_HasSuffix file "-key.pem") eqn:Hs.
  - specialize (IH file c0). destruct (fold_left _ files (file, c0)) as [k c].
    destruct IH as [[->|[Hin Hk]] [->|[Hin' Hc]]]; auto 6.
  - specialize (IH k0 file). destruct (fold_left _ files (k0, file)) as [k c].
    destruct IH as [[->|[Hin Hk]] [->|[Hin' Hc]]]; auto 6.
Qed.



(** ** The configuration file of the prefetch command *)

Lemma strings_Split_all_lack sep s : Forall (lacks sep) (strings_Split sep s).
Proof.
  unfold lacks. induction s as [|c s IH]; simpl; [now repeat constructor|].
  destruct (Ascii.eqb c sep) eqn:Hc; [now constructor|].
  pose proof (strings_Split_sep_nonempty sep s) as Hne.
  destruct (strings_Split sep s) as [|h t]; [congruence|].
  inversion IH as [|? ? Hh Ht]; subst. constructor; [|exact Ht].
  simpl. now rewrite Hc.
Qed.

Lemma strings_Split_Join_sep sep l :
  l <> [] -> Forall (lacks sep) l ->
  strings_Split sep (strings_Join l (String sep "")) = l.
Proof.
  induction l as [|e l IH]; [congruence|]. intros _ Hall.
  inversion Hall as [|? ? He Hl]; subst. destruct l as [|e' l].
  - simpl. now apply strings_Split_lacks.
  - change (strings_Join (e :: e' :: l) (String sep ""))
      with (e +:+ String sep "" +:+ strings_Join (e' :: l) (String sep "")).
    simpl. rewrite (strings_Split_app_sep _ _ _ He). f_equal.
    now apply IH.
Qed.

Lemma dropGoProxy_loop_cons TrimSpace inGomodBlock line rest :
  PrefetchDependencies.dropGoProxy_loop TrimSpace inGomodBlock (line :: rest)
  = if strings_HasPrefix (TrimSpace line) "goproxy_url:"
    then PrefetchDependencies.dropGoProxy_loop TrimSpace inGomodBlock rest
    else if strings_HasPrefix (TrimSpace line) "gomod:"
    then line :: PrefetchDependencies.dropGoProxy_loop TrimSpace true rest
    else if inGomodBlock then
      if negb (strings_HasPrefix line " ")
         && negb (strings_HasPrefix line PrefetchDependencies.tab)
      then line :: PrefetchDependencies.dropGoProxy_loop TrimSpace false rest
      else if strings_HasPrefix (TrimSpace line) "proxy_url:"
      then PrefetchDependencies.dropGoProxy_loop TrimSpace inGomodBlock rest
      else line :: PrefetchDependencies.dropGoProxy_loop TrimSpace inGomodBlock rest
    else line :: PrefetchDependencies.dropGoProxy_loop TrimSpace inGomodBlock rest.
Proof. reflexivity. Qed.

Ltac loop_cases :=
  rewrite dropGoProxy_loop_cons;
  repeat match goal with
         | |- context [if ?c then _ else _] => destruct c eqn:?
         end.

Lemma dropGoProxy_loop_sublist TrimSpace inGomodBlock lines :
  sublist (PrefetchDependencies.dropGoProxy_loop TrimSpace inGomodBlock lines) lines.
Proof.
  revert inGomodBlock. induction lines as [|line rest IH]; intros b;
    [constructor|].
  loop_cases; solve [apply sublist_cons, IH | apply sublist_skip, IH].
Qed.

Lemma dropGoProxy_loop_kept TrimSpace inGomodBlock lines line :
  In line (PrefetchDependencies.dropGoProxy_loop TrimSpace inGomodBlock lines) ->
  strings_HasPrefix (TrimSpace line) "goproxy_url:" = false.
Proof.
  revert inGomodBlock. induction lines as [|l rest IH]; intros b; [intros []|].
  loop_cases;
    solve [apply IH | intros [<-|Hin]; [assumption | exact (IH _ Hin)]].
Qed.

Lemma dropGoProxy_loop_keeps TrimSpace inGomodBlock lines line :
  In line lines ->
  strings_HasPrefix (TrimSpace line) "goproxy_url:" = false ->
  strings_HasPrefix (TrimSpace line) "proxy_url:" = false ->
  In line (PrefetchDependencies.dropGoProxy_loop TrimSpace inGomodBlock lines).
Proof.
  intros Hin Hg Hp. revert inGomodBlock Hin.
  induction lines as [|l rest IH]; intros b; [intros []|].
  intros [->|Hin].
  - rewrite dropGoProxy_loop_cons, Hg, Hp.
    repeat match goal with
           | |- context [if ?c then _ else _] => destruct c
           end; now left.
  - loop_cases; solve [apply IH, Hin | right; apply IH, Hin].
Qed.

Lemma dropGoProxy_loop_idemp TrimSpace inGomodBlock lines :
  PrefetchDependencies.dropGoProxy_loop TrimSpace inGomodBlock
    (PrefetchDependencies.dropGoProxy_loop TrimSpace inGomodBlock lines)
  = PrefetchDependencies.dropGoProxy_loop TrimSpace inGomodBlock lines.
Proof.
  revert inGomodBlock. induction lines as [|line rest IH]; intros b; [reflexivity|].
  rewrite dropGoProxy_loop_cons.
  destruct (strings_HasPrefix (TrimSpace line) "goproxy_url:") eqn:Hg; [apply IH|].
  destruct (strings_HasPrefix (TrimSpace line) "gomod:") eqn:Hm.
  { rewrite dropGoProxy_loop_cons, Hg, Hm. f_equal. apply IH. }
  destruct b.
  - destruct (negb (strings_HasPrefix line " ")
              && negb (strings_HasPrefix line PrefetchDependencies.tab)) eqn:Hi.
    { rewrite dropGoProxy_loop_cons, Hg, Hm, Hi. f_equal. apply IH. }
    destruct (strings_HasPrefix (TrimSpace line) "proxy_url:") eqn:Hp; [apply IH|].
    rewrite dropGoProxy_loop_cons, Hg, Hm, Hi, Hp. f_equal. apply IH.
  - rewrite dropGoProxy_loop_cons, Hg, Hm. f_equal. apply IH.
Qed.

Lemma dropGoProxy_content_idemp TrimSpace content :
  TrimSpace "" = "" ->
  PrefetchDependencies.dropGoProxy_content TrimSpace
    (PrefetchDependencies.dropGoProxy_content TrimSpace content)
  = PrefetchDependencies.dropGoProxy_content TrimSpace content.
Proof.
  intros Hempty. unfold PrefetchDependencies.dropGoProxy_content.
  pose proof (dropGoProxy_loop_sublist TrimSpace false
                (strings_Split PrefetchDependencies.newline content)) as Hsub.
  pose proof (strings_Split_all_lack PrefetchDependencies.newline content) as Hall.
  destruct (PrefetchDependencies.dropGoProxy_loop TrimSpace false
              (strings_Split PrefetchDependencies.newline content))
    as [|line kept] eqn:Hkept.
  - simpl. now rewrite Hempty.
  - rewrite strings_Split_Join_sep; [| discriminate |].
    + now rewrite <- Hkept, dropGoProxy_loop_idemp.
    + apply Forall_forall. intros l Hl.
      apply (proj1 (Forall_forall _ _) Hall).
      eapply elem_of_sublist; [exact Hl | exact Hsub].
Qed.

(** X18.  When [dropGoProxyFrom] succeeds on a named file, the file then
    holds lines of its old content, in their old order, joined by line
    feeds: no kept line reads [goproxy_url:] after trimming, and every line
    that reads neither [goproxy_url:] nor [proxy_url:] after trimming is
    kept.  No other file is touched. *)
Theorem dropGoProxyFrom_lines TrimSpace write_error files configFile files' :
  configFile <> "" ->
  PrefetchDependencies.dropGoProxyFrom TrimSpace write_error files configFile
  = (files', None) ->
  exists content kept,
    files !! configFile = Some content
    /\ files' = <[configFile := strings_Join kept (String PrefetchDependencies.newline "")]>
                  files
    /\ sublist kept (strings_Split PrefetchDependencies.newline content)
    /\ (forall line, In line kept ->
          strings_HasPrefix (TrimSpace line) "goproxy_url:" = false)
    /\ (forall line,
          In line (strings_Split PrefetchDependencies.newline content) ->
          strings_HasPrefix (TrimSpace line) "goproxy_url:" = false ->
          strings_HasPrefix (TrimSpace line) "proxy_url:" = false ->
          In line kept).
Proof.
  intros Hne. unfold PrefetchDependencies.dropGoProxyFrom.
  destruct (is_empty configFile) eqn:He.
  { apply String.eqb_eq in He. contradiction. }
  destruct (files !! configFile) as [content|]; [|discriminate].
  destruct (write_error configFile); [discriminate|].
  intros [= <-].
  exists content,
    (PrefetchDependencies.dropGoProxy_loop TrimSpace false
       (strings_Split PrefetchDependencies.newline content)).
  split; [reflexivity|]. split; [reflexivity|]. split; [|split].
  - apply dropGoProxy_loop_sublist.
  - intros line. apply dropGoProxy_loop_kept.
  - intros line. apply dropGoProxy_loop_keeps.
Qed.

(** X18, for a configuration file with both proxy settings. *)
Lemma dropGoProxyFrom_lines_witness :
  exists content kept,
    config_files !! "/config.yaml" = Some content
    /\ config_files_dropped
       = <["/config.yaml" := strings_Join kept (String PrefetchDependencies.newline "")]>
           config_files
    /\ sublist kept (strings_Split PrefetchDependencies.newline content)
    /\ (forall line, In line kept ->
          strings_HasPrefix (ascii_TrimSpace line) "goproxy_url:" = false)
    /\ (forall line,
          In line (strings_Split PrefetchDependencies.newline content) ->
          strings_HasPrefix (ascii_TrimSpace line) "goproxy_url:" = false ->
          strings_HasPrefix (ascii_TrimSpace line) "proxy_url:" = false ->
          In line kept).
Proof.
  apply (dropGoProxyFrom_lines ascii_TrimSpace write_ok config_files "/config.yaml").
  - discriminate.
  - vm_compute. reflexivity.
Defined.

(** X19.  [dropGoProxyFrom] is idempotent: after a call that succeeded,
    another call, for which the file is as writable as for the first,
    succeeds and leaves every file as it is, given that trimming the
    empty line gives the empty line. *)
Theorem dropGoProxyFrom_idempotent TrimSpace write_error files configFile files' :
  TrimSpace "" = "" ->
  PrefetchDependencies.dropGoProxyFrom TrimSpace write_error files configFile
  = (files', None) ->
  PrefetchDependencies.dropGoProxyFrom TrimSpace write_error files' configFile
  = (files', None).
Proof.
  intros Hempty. unfold PrefetchDependencies.dropGoProxyFrom.
  destruct (is_empty configFile); [now intros [= <-]|].
  destruct (files !! configFile) as [content|]; [|discriminate].
  destruct (write_error configFile); [discriminate|].
  intros [= <-]. rewrite lookup_insert_eq, insert_insert_eq.
  now rewrite (dropGoProxy_content_idemp _ _ Hempty).
Qed.

(** X19, for the configuration file with both proxy settings. *)
Lemma dropGoProxyFrom_idempotent_witness :
  PrefetchDependencies.dropGoProxyFrom ascii_TrimSpace write_ok config_files_dropped
    "/config.yaml"
  = (config_files_dropped, None).
Proof.
  apply (dropGoProxyFrom_idempotent ascii_TrimSpace write_ok config_files).
  - reflexivity.
  - vm_compute. reflexivity.
Defined.

(** ** The parameters of the build command *)

Lemma string_drop_drop a b s :
  string_drop a (string_drop b s) = string_drop (b + a) s.
Proof.
  revert s. induction b as [|b IH]; intros s; [reflexivity|].
  destruct s as [|c s]; simpl; [now destruct a | apply IH].
Qed.

Lemma trim_digest_suffix_parts s :
  s = trim_digest_suffix s
  \/ exists hex, s = trim_digest_suffix s +:+ "@sha256:" +:+ hex
       /\ String.length hex = 64%nat /\ string_forallb is_hex hex = true.
Proof.
  unfold trim_digest_suffix.
  destruct (72 <=? String.length s)%nat eqn:Hlen; [|now left].
  destruct (String.eqb (string_take 8 (string_drop (String.length s - 72) s))
              "@sha256:") eqn:Hat; [|now left].
  destruct (string_forallb is_hex (string_drop (String.length s - 64) s)) eqn:Hhex;
    [|now left].
  cbn [andb]. right. exists (string_drop (String.length s - 64) s).
  apply Nat.leb_le in Hlen. apply String.eqb_eq in Hat.
  split; [|split; [rewrite string_drop_length; lia | exact Hhex]].
  rewrite <- Hat.
  replace (String.length s - 64)%nat with (String.length s - 72 + 8)%nat by lia.
  rewrite <- string_drop_drop, string_take_drop.
  symmetry. apply string_take_drop.
Qed.

Lemma trim_tag_suffix_parts s :
  s = trim_tag_suffix s
  \/ exists tag, s = trim_tag_suffix s +:+ ":" +:+ tag /\ is_tag tag = true.
Proof.
  unfold trim_tag_suffix.
  destruct (strings_LastIndex s ":") as [i|] eqn:Hi; [|now left].
  destruct (is_tag (string_drop (S i) s)) eqn:Ht; [|now left].
  right. exists (string_drop (S i) s). split; [|exact Ht].
  change (":" +:+ string_drop (S i) s) with (String ":" (string_drop (S i) s)).
  rewrite <- (strings_LastIndex_drop _ _ _ Hi).
  symmetry. apply string_take_drop.
Qed.

(** X20.  An output reference that the build command's [validateParams]
    accepts is a valid image name, followed by nothing, by a colon and a
    valid tag, by [@sha256:] and 64 hexadecimal digits, or by both in this
    order; and the context is then an existing directory. *)
Theorem Build_validateParams_accepts fs OutputRef Context :
  Build.validateParams fs OutputRef Context = None ->
  (exists imageName tagPart digestPart,
     OutputRef = imageName +:+ tagPart +:+ digestPart
     /\ IsImageNameValid imageName = true
     /\ (tagPart = "" \/ exists tag, tagPart = ":" +:+ tag /\ IsImageTagValid tag = true)
     /\ (digestPart = ""
         \/ exists hex, digestPart = "@sha256:" +:+ hex
              /\ String.length hex = 64%nat /\ string_forallb is_hex hex = true))
  /\ exists stat, Stat fs Context = Ok stat /\ IsDir stat = true.
Proof.
  unfold Build.validateParams.
  destruct (IsImageNameValid (GetImageName OutputRef)) eqn:Hname; [|discriminate].
  simpl negb. cbv iota.
  destruct (Stat fs Context) as [stat|e]; [|destruct (IsNotExist e); discriminate].
  destruct (IsDir stat) eqn:Hdir; [|discriminate]. intros _.
  split; [|now exists stat].
  unfold GetImageName in Hname. cbv zeta in Hname.
  exists (trim_tag_suffix (trim_digest_suffix OutputRef)).
  destruct (trim_tag_suffix_parts (trim_digest_suffix OutputRef))
    as [Ht|(tag & Ht & Htag)];
    destruct (trim_digest_suffix_parts OutputRef) as [Hd|(hex & Hd & Hlen & Hhex)].
  - exists "", "". rewrite !string_app_nil_r. repeat split; auto. congruence.
  - exists "", ("@sha256:" +:+ hex). repeat split; eauto.
    rewrite <- Ht. exact Hd.
  - exists (":" +:+ tag), "". repeat split; eauto.
    rewrite string_app_nil_r. congruence.
  - exists (":" +:+ tag), ("@sha256:" +:+ hex). repeat split; eauto.
    rewrite Hd at 1. rewrite Ht at 1. now rewrite !string_app_assoc.
Qed.

(** X20, for a tagged output reference. *)
Lemma Build_validateParams_accepts_witness :
  (exists imageName tagPart digestPart,
     "quay.io/konflux-ci/foo:latest" = imageName +:+ tagPart +:+ digestPart
     /\ IsImageNameValid imageName = true
     /\ (tagPart = "" \/ exists tag, tagPart = ":" +:+ tag /\ IsImageTagValid tag = true)
     /\ (digestPart = ""
         \/ exists hex, digestPart = "@sha256:" +:+ hex
              /\ String.length hex = 64%nat /\ string_forallb is_hex hex = true))
  /\ exists stat, Stat fs_context "app" = Ok stat /\ IsDir stat = true.
Proof.
  apply (Build_validateParams_accepts fs_context "quay.io/konflux-ci/foo:latest" "app").
  vm_compute. reflexivity.
Defined.

(** ** The apply-tags command *)

Lemma applyTags_copies {E : Type} (Copy : string -> string -> option E)
    imageName imageByDigest tags copies err :
  ApplyTags.applyTags Copy imageName imageByDigest tags = (copies, err) ->
  (forall source destination, In (source, destination) copies ->
     source = imageByDigest
     /\ exists tag, In tag tags /\ destination = imageName +:+ ":" +:+ tag)
  /\ (err = None ->
      copies = map (fun tag => (imageByDigest, imageName +:+ ":" +:+ tag)) tags).
Proof.
  revert copies err. induction tags as [|tag rest IH]; intros copies err.
  - intros [= <- <-]. split; [intros ? ? []|reflexivity].
  - cbn [ApplyTags.applyTags]. cbv zeta.
    destruct (Copy imageByDigest (imageName +:+ ":" +:+ tag)) as [e|].
    + intros [= <- <-]. split; [|discriminate].
      intros source destination [[= <- <-]|[]]. split; [reflexivity|].
      exists tag. split; [now left | reflexivity].
    + destruct (ApplyTags.applyTags Copy imageName imageByDigest rest)
        as [copies' err'].
      intros [= <- <-]. destruct (IH _ _ eq_refl) as [IH1 IH2]. split.
      * intros source destination [[= <- <-]|Hin].
        -- split; [reflexivity|]. exists tag. split; [now left | reflexivity].
        -- destruct (IH1 _ _ Hin) as (Hs & t & Ht & Hd).
           split; [exact Hs|]. exists t. split; [now right | exact Hd].
      * intros Herr. cbn [map]. now rewrite (IH2 Herr).
Qed.

Lemma find_invalid_None tags :
  find (fun tag => negb (IsImageTagValid tag)) tags = None ->
  forall tag, In tag tags -> IsImageTagValid tag = true.
Proof.
  intros Hfind tag Hin. pose proof (find_none _ _ Hfind tag Hin) as H.
  now apply negb_false_iff in H.
Qed.



Lemma is_tag_char_not_separator c :
  is_tag_char c = true -> ApplyTags.is_tag_separator c = false.
Proof.
  intros Hc. unfold ApplyTags.is_tag_separator.
  repeat match goal with
         | |- context [Ascii.eqb c ?sep] =>
             rewrite (proj1 (negb_true_iff _) (is_tag_char_not c sep eq_refl Hc))
         end.
  reflexivity.
Qed.

Lemma tagSeparator_Split_piece t :
  string_forallb is_tag_char t = true -> ApplyTags.tagSeparator_Split false t = [t].
Proof.
  induction t as [|c t IH]; [reflexivity|]. simpl. intros H.
  apply andb_prop in H as [Hc Ht].
  now rewrite (is_tag_char_not_separator _ Hc), (IH Ht).
Qed.

Lemma tagSeparator_Split_piece_sep t c s :
  string_forallb is_tag_char t = true -> ApplyTags.is_tag_separator c = true ->
  ApplyTags.tagSeparator_Split false (t +:+ String c s)
  = t :: ApplyTags.tagSeparator_Split true s.
Proof.
  intros Ht Hc. induction t as [|x t IH]; simpl.
  - now rewrite Hc.
  - simpl in Ht. apply andb_prop in Ht as [Hx Ht].
    now rewrite (is_tag_char_not_separator _ Hx), (IH Ht).
Qed.

Lemma tagSeparator_Split_run seps s :
  string_forallb ApplyTags.is_tag_separator seps = true ->
  ApplyTags.tagSeparator_Split true (seps +:+ s) = ApplyTags.tagSeparator_Split true s.
Proof.
  induction seps as [|c seps IH]; [reflexivity|]. simpl. intros H.
  apply andb_prop in H as [Hc Hs]. now rewrite Hc, (IH Hs).
Qed.

Lemma tagSeparator_Split_start c s :
  ApplyTags.is_tag_separator c = false ->
  ApplyTags.tagSeparator_Split true (String c s)
  = ApplyTags.tagSeparator_Split false (String c s).
Proof. intros Hc. simpl. now rewrite Hc. Qed.

Lemma is_tag_start_char c : is_tag_start c = true -> is_tag_char c = true.
Proof. unfold is_tag_char. intros ->. reflexivity. Qed.

Lemma tagSeparator_Split_Join tags c seps :
  tags <> [] -> Forall (fun tag => IsImageTagValid tag = true) tags ->
  ApplyTags.is_tag_separator c = true ->
  string_forallb ApplyTags.is_tag_separator seps = true ->
  ApplyTags.tagSeparator_Split false (strings_Join tags (String c seps)) = tags.
Proof.
  intros Hne Hall Hc Hseps. induction tags as [|tag rest IH]; [congruence|].
  inversion Hall as [|? ? Htag Hrest]; subst. unfold IsImageTagValid in Htag.
  pose proof (is_tag_chars _ Htag) as Hchars.
  destruct rest as [|tag' rest].
  - now apply tagSeparator_Split_piece.
  - change (strings_Join (tag :: tag' :: rest) (String c seps))
      with (tag +:+ String c seps +:+ strings_Join (tag' :: rest) (String c seps)).
    change (tag +:+ String c seps +:+ strings_Join (tag' :: rest) (String c seps))
      with (tag +:+ String c (seps +:+ strings_Join (tag' :: rest) (String c seps))).
    rewrite (tagSeparator_Split_piece_sep _ _ _ Hchars Hc).
    rewrite (tagSeparator_Split_run _ _ Hseps). f_equal.
    transitivity (ApplyTags.tagSeparator_Split false
                    (strings_Join (tag' :: rest) (String c seps)));
      [|apply IH; [discriminate | assumption]].
    inversion Hrest as [|? ? Htag' _]; subst. unfold IsImageTagValid in Htag'.
    destruct tag' as [|x tag']; [discriminate|].
    assert (Hx : ApplyTags.is_tag_separator x = false).
    { apply is_tag_char_not_separator, is_tag_start_char.
      simpl in Htag'. apply andb_prop in Htag' as [Htag' _].
      now apply andb_prop in Htag' as [Htag' _]. }
    destruct rest as [|tag'' rest].
    + cbn [strings_Join]. now apply tagSeparator_Split_start.
    + change (strings_Join (String x tag' :: tag'' :: rest) (String c seps))
        with (String x (tag' +:+ String c seps
                        +:+ strings_Join (tag'' :: rest) (String c seps))).
      now apply tagSeparator_Split_start.
Qed.

(** X22.  When the value of the label, trimmed, is a list of valid tags
    joined by a separator made of commas and white space, the tags that
    [retrieveTagsFromImageLabel] returns are these tags, in this order. *)
Theorem retrieveTagsFromImageLabel_round_trip {E : Type}
    (Inspect : string -> string -> result E string) (TrimSpace : string -> string)
    imageByDigest labelName tagsLabelValue tags separator :
  Inspect imageByDigest labelName = Ok tagsLabelValue ->
  TrimSpace tagsLabelValue = strings_Join tags separator ->
  tags <> [] -> Forall (fun tag => IsImageTagValid tag = true) tags ->
  separator <> "" -> string_forallb ApplyTags.is_tag_separator separator = true ->
  ApplyTags.retrieveTagsFromImageLabel Inspect TrimSpace imageByDigest labelName
  = Ok tags.
Proof.
  intros Hinspect Htrim Hne Hall Hsep Hseps.
  unfold ApplyTags.retrieveTagsFromImageLabel. rewrite Hinspect. cbv zeta.
  rewrite Htrim. destruct separator as [|c seps]; [congruence|].
  simpl in Hseps. apply andb_prop in Hseps as [Hc Hseps].
  rewrite (tagSeparator_Split_Join _ _ _ Hne Hall Hc Hseps).
  destruct tags as [|tag rest]; [congruence|].
  inversion Hall as [|? ? Htag _]; subst.
  destruct tag as [|x tag]; [discriminate|].
  now destruct rest.
Qed.

(** X22, for a label that lists two tags. *)
Lemma retrieveTagsFromImageLabel_round_trip_witness :
  ApplyTags.retrieveTagsFromImageLabel (E := unit) (fun _ _ => Ok " v2, latest ")
    ascii_TrimSpace "quay.io/konflux-ci/foo" "konflux.additional-tags"
  = Ok ["v2"; "latest"].
Proof.
  apply (retrieveTagsFromImageLabel_round_trip (E := unit) _ _ _ _
           " v2, latest " ["v2"; "latest"] ", ").
  - reflexivity.
  - vm_compute. reflexivity.
  - discriminate.
  - repeat constructor.
  - discriminate.
  - reflexivity.
Defined.

(** ** The run of the push of a Containerfile *)

(** X23.  When [Run] calls the oras client, the repository is the image
    name of the image URL and is valid; the tag is a valid tag, and the
    reference made of the repository and the tag has the repository as its
    name; the file is the absolute path of the non-empty path that
    [SearchDockerfile] returned, and is absolute when the working directory
    is; the user name and the password are the two sides of the first
    colon of the decoded token of the registry authentication selected
    for the image URL in the default auth file.  When [Run] then returns
    no error, the image reference of the results is the repository, an
    [@] and the digest that the push returned. *)
Theorem PushContainerfile_Run_push {E : Type} (fs : FileSys)
    (readAuthFile : string -> result oserr RegistryAuths) (defaultAuthFile : string)
    (decode : string -> option string) (Push : PushCall -> result E string)
    (CreateResultJson : string -> result E string)
    (WriteResultString : string -> string -> option E) params call ImageRef err :
  PushContainerfile_Run fs readAuthFile defaultAuthFile decode Push CreateResultJson
    WriteResultString params = (Some call, ImageRef, err) ->
  push_imageRepo call = GetImageName (PushContainerfile.ImageUrl params)
  /\ IsImageNameValid (push_imageRepo call) = true
  /\ IsImageTagValid (push_tag call) = true
  /\ GetImageName (push_imageRepo call +:+ ":" +:+ push_tag call) = push_imageRepo call
  /\ push_artifactType call = PushContainerfile.ArtifactType params
  /\ (exists containerfilePath,
        SearchDockerfile fs
          {| SourceDir := PushContainerfile.Source params;
             ContextDir := PushContainerfile.Context params;
             Dockerfile := PushContainerfile.Containerfile params |}
        = Ok containerfilePath
        /\ containerfilePath <> ""
        /\ filepath_Abs fs containerfilePath = Ok (push_localFilePath call))
  /\ (getwd_absolute fs -> filepath_IsAbs (push_localFilePath call) = true)
  /\ (exists registryAuth decoded,
        SelectRegistryAuth readAuthFile (PushContainerfile.ImageUrl params)
          defaultAuthFile = Ok registryAuth
        /\ decode (Token registryAuth) = Some decoded
        /\ decoded = push_username call +:+ ":" +:+ push_password call
        /\ lacks ":" (push_username call))
  /\ (err = None ->
      exists digest, Push call = Ok digest
                     /\ ImageRef = push_imageRepo call +:+ "@" +:+ digest).
Proof.
  unfold PushContainerfile_Run. cbv zeta.
  set (imageName := GetImageName (PushContainerfile.ImageUrl params)).
  destruct (PushContainerfile.validateParams imageName params) as [[]|e] eqn:Hvalid;
    [|discriminate].
  destruct (getwd fs) as [curDir|e]; [|discriminate].
  destruct (SearchDockerfile fs _) as [containerfilePath|e] eqn:Hsearch;
    [|discriminate].
  destruct (is_empty containerfilePath) eqn:Hempty; [discriminate|].
  destruct (SelectRegistryAuth readAuthFile _ defaultAuthFile)
    as [registryAuth|e] eqn:Hauth; [|discriminate].
  destruct (ExtractCredentials decode (Token registryAuth))
    as [[username password]|e] eqn:Hcred; [|discriminate].
  destruct (filepath_Abs fs containerfilePath) as [absContainerfilePath|e] eqn:Habs;
    [|discriminate].
  set (c := {| push_imageRepo := imageName |}).
  intros Hrun.
  assert (Hcall : call = c).
  { destruct (Push c); [|congruence].
    destruct (CreateResultJson _); [|congruence].
    destruct (negb _); [destruct (WriteResultString _ _)|]; congruence. }
  subst call. subst c. cbn [push_imageRepo push_tag push_localFilePath
                              push_artifactType push_username push_password] in *.
  destruct (validateParams_tag _ _ Hvalid) as [Htag Hname].
  assert (Hvalidname : IsImageNameValid imageName = true).
  { unfold PushContainerfile.validateParams in Hvalid.
    destruct (IsImageNameValid imageName); [reflexivity | discriminate]. }
  repeat (split; [solve [auto]|]).
  split; [|split; [|split]].
  - exists containerfilePath. repeat split; auto.
    intros ->. discriminate.
  - intros Hwd. exact (filepath_Abs_abs _ _ _ Hwd Habs).
  - unfold ExtractCredentials in Hcred.
    destruct (decode (Token registryAuth)) as [decoded|] eqn:Hdec; [|discriminate].
    destruct (strings_Index decoded ":") as [i|] eqn:Hi; [|discriminate].
    exists registryAuth, decoded.
    destruct (strings_Index_drop _ _ _ Hi) as [Hdrop Hlacks].
    assert (Hu : username = string_take i decoded) by congruence.
    assert (Hp : password = string_drop (S i) decoded) by congruence.
    subst username password. repeat split; auto.
    change (":" +:+ string_drop (S i) decoded)
      with (String ":" (string_drop (S i) decoded)).
    rewrite <- Hdrop. symmetry. apply string_take_drop.
  - intros ->. destruct (Push _) as [digest|e]; [|discriminate].
    exists digest. split; [reflexivity|].
    destruct (CreateResultJson _); [|discriminate].
    destruct (negb _); [destruct (WriteResultString _ _)|]; congruence.
Qed.

(** X23, for the push of the Containerfile of [fs_both]. *)
Lemma PushContainerfile_Run_push_witness :
  IsImageNameValid (push_imageRepo push_run_call) = true
  /\ IsImageTagValid (push_tag push_run_call) = true
  /\ GetImageName (push_imageRepo push_run_call +:+ ":" +:+ push_tag push_run_call)
     = push_imageRepo push_run_call
  /\ filepath_IsAbs (push_localFilePath push_run_call) = true
  /\ (exists registryAuth decoded,
        SelectRegistryAuth (fun _ => Ok test_auths) "reg.io/foo/bar:latest"
          "/home/user/.docker/config.json" = Ok registryAuth
        /\ (fun _ : string => Some "user:pass:word") (Token registryAuth) = Some decoded
        /\ decoded = "user" +:+ ":" +:+ "pass:word"
        /\ lacks ":" "user")
  /\ exists digest,
       (fun _ : PushCall => Ok "sha256:feed" : result unit string) push_run_call
       = Ok digest
       /\ "reg.io/foo/bar@sha256:feed" = push_imageRepo push_run_call +:+ "@" +:+ digest.
Proof.
  destruct (PushContainerfile_Run_push (E := unit) fs_both (fun _ => Ok test_auths)
              "/home/user/.docker/config.json" (fun _ => Some "user:pass:word")
              (fun _ => Ok "sha256:feed") (fun _ => Ok "{}") (fun _ _ => None)
              push_run_params push_run_call "reg.io/foo/bar@sha256:feed" None)
    as (_ & Hname & Htag & Href & _ & _ & Habs & Hcred & Hres).
  - vm_compute. reflexivity.
  - split; [exact Hname|]. split; [exact Htag|]. split; [exact Href|].
    split; [|split; [exact Hcred | exact (Hres eq_refl)]].
    apply Habs. intros wd [= <-]. reflexivity.
Defined.

(** ** The build args of the build command *)

Lemma strings_Cut_pair sep key value :
  lacks sep key -> strings_Cut (key +:+ String sep value) sep = (key, value, true).
Proof.
  intros Hk. unfold strings_Cut. rewrite (strings_Index_app_sep _ _ _ Hk).
  rewrite string_take_app.
  replace (S (String.length key)) with (String.length key + 1)%nat by lia.
  now rewrite string_drop_add.
Qed.

Lemma strings_Cut_plain sep key : lacks sep key -> strings_Cut key sep = (key, "", false).
Proof. intros Hk. unfold strings_Cut. now rewrite (lacks_Index _ _ Hk). Qed.

Lemma set_build_arg_other LookupEnv args arg word :
  Build.build_arg_key arg <> word ->
  Build.set_build_arg LookupEnv args arg !! word = args !! word.
Proof.
  unfold Build.build_arg_key, Build.set_build_arg.
  destruct (strings_Cut arg "=") as [[key value] hasValue]. cbn [fst].
  intros Hne. destruct hasValue; [now apply lookup_insert_ne|].
  destruct (LookupEnv key); [now apply lookup_insert_ne | reflexivity].
Qed.

Lemma fold_set_build_arg_other LookupEnv BuildArgs args word :
  Forall (fun arg => Build.build_arg_key arg <> word) BuildArgs ->
  fold_left (Build.set_build_arg LookupEnv) BuildArgs args !! word = args !! word.
Proof.
  intros Hall. revert args.
  induction Hall as [|arg rest Harg _ IH]; intros args; [reflexivity|].
  cbn [fold_left]. rewrite IH. now apply set_build_arg_other.
Qed.

Lemma fold_set_build_arg_last LookupEnv pre arg post args key value :
  (forall args', Build.set_build_arg LookupEnv args' arg = <[key := value]> args') ->
  Forall (fun arg' => Build.build_arg_key arg' <> key) post ->
  fold_left (Build.set_build_arg LookupEnv) (pre ++ arg :: post) args !! key
  = Some value.
Proof.
  intros Hset Hpost. rewrite fold_left_app. cbn [fold_left].
  rewrite (fold_set_build_arg_other _ _ _ _ Hpost), Hset.
  apply lookup_insert_eq.
Qed.

(** X24.  The expander that [createBuildArgExpander] returns gives, for a
    name, the value of the last [--build-args] entry for that name: what
    follows the first [=] of the entry, or the value of the environment
    variable of that name when the entry has no [=] and the variable is
    set.  For a name that no entry has, it gives the value of the build
    args file if the file defines the name, or else the built-in value, or
    else reports the name as not defined. *)
Theorem createBuildArgExpander_precedence {E : Type} (Format : Build.Platform -> string)
    (platform : Build.Platform)
    (ParseBuildArgFile : string -> result E (gmap string string))
    (LookupEnv : string -> option string) BuildArgsFile BuildArgs expander :
  Build.createBuildArgExpander Format platform ParseBuildArgFile LookupEnv BuildArgsFile
    BuildArgs = Ok expander ->
  (forall pre post key value,
     BuildArgs = (pre ++ (key +:+ "=" +:+ value) :: post)%list ->
     lacks "=" key ->
     Forall (fun arg => Build.build_arg_key arg <> key) post ->
     expander key = Ok value)
  /\ (forall pre post key value,
        BuildArgs = (pre ++ key :: post)%list ->
        lacks "=" key -> LookupEnv key = Some value ->
        Forall (fun arg => Build.build_arg_key arg <> key) post ->
        expander key = Ok value)
  /\ (forall word,
        Forall (fun arg => Build.build_arg_key arg <> word) BuildArgs ->
        expander word
        = match (if is_empty BuildArgsFile then None
                 else match ParseBuildArgFile BuildArgsFile with
                      | Ok fileArgs => fileArgs !! word
                      | Err _ => None
                      end) with
          | Some value => Ok value
          | None => Build.argExp (Build.builtin_args Format platform) word
          end).
Proof.
  unfold Build.createBuildArgExpander, Build.build_arg_map. cbv zeta.
  set (builtin := Build.builtin_args Format platform).
  destruct (is_empty BuildArgsFile) eqn:Hfile; cbn [negb].
  - intros [= <-]. split; [|split].
    + intros pre post key value -> Hkey Hpost. unfold Build.argExp.
      rewrite (fold_set_build_arg_last _ _ _ _ _ key value); [reflexivity| |exact Hpost].
      intros args'. unfold Build.set_build_arg.
      change (key +:+ "=" +:+ value) with (key +:+ String "=" value).
      now rewrite (strings_Cut_pair _ _ _ Hkey).
    + intros pre post key value -> Hkey Henv Hpost. unfold Build.argExp.
      rewrite (fold_set_build_arg_last _ _ _ _ _ key value); [reflexivity| |exact Hpost].
      intros args'. unfold Build.set_build_arg.
      now rewrite (strings_Cut_plain _ _ Hkey), Henv.
    + intros word Hall. unfold Build.argExp.
      now rewrite (fold_set_build_arg_other _ _ _ _ Hall).
  - destruct (ParseBuildArgFile BuildArgsFile) as [fileArgs|e]; [|discriminate].
    intros [= <-]. split; [|split].
    + intros pre post key value -> Hkey Hpost. unfold Build.argExp.
      rewrite (fold_set_build_arg_last _ _ _ _ _ key value); [reflexivity| |exact Hpost].
      intros args'. unfold Build.set_build_arg.
      change (key +:+ "=" +:+ value) with (key +:+ String "=" value).
      now rewrite (strings_Cut_pair _ _ _ Hkey).
    + intros pre post key value -> Hkey Henv Hpost. unfold Build.argExp.
      rewrite (fold_set_build_arg_last _ _ _ _ _ key value); [reflexivity| |exact Hpost].
      intros args'. unfold Build.set_build_arg.
      now rewrite (strings_Cut_plain _ _ Hkey), Henv.
    + intros word Hall. unfold Build.argExp.
      rewrite (fold_set_build_arg_other _ _ _ _ Hall), lookup_union.
      destruct (fileArgs !! word) as [v|]; [now destruct (builtin !! word)|].
      now destruct (builtin !! word).
Qed.

(** X24, for build args from a file, the command line and the
    environment. *)
Lemma createBuildArgExpander_precedence_witness :
  build_expander "VERSION" = Ok "3=x"
  /\ build_expander "HOME" = Ok "/root"
  /\ build_expander "TARGETOS" = Ok "plan9"
  /\ build_expander "TARGETARCH" = Ok "amd64"
  /\ build_expander "UNSET" = Err "UNSET".
Proof.
  destruct (createBuildArgExpander_precedence
              (fun p => Build.OS p +:+ "/" +:+ Build.Architecture p)
              build_platform build_args_file build_env "build-args.conf"
              ["VERSION=2"; "HOME"; "VERSION=3=x"] build_expander eq_refl)
    as (Hcli & Henv & Hrest).
  split; [|split; [|split; [|split]]].
  - apply (Hcli ["VERSION=2"; "HOME"] [] "VERSION" "3=x"); [reflexivity..|constructor].
  - apply (Henv ["VERSION=2"] ["VERSION=3=x"] "HOME" "/root"); [reflexivity..|].
    repeat constructor. discriminate.
  - rewrite Hrest; [reflexivity|]. repeat constructor; discriminate.
  - rewrite Hrest; [reflexivity|]. repeat constructor; discriminate.
  - rewrite Hrest; [reflexivity|]. repeat constructor; discriminate.
Defined.

(** ** The containerfile of the build command *)

(** X25.  [detectContainerfile] sets the first place, in the order of
    [containerfile_places], that exists and is not a directory: the named
    containerfile as it is given, then below the context directory; or,
    when none is named, [Containerfile], then [Dockerfile], below the
    context directory.  It fails exactly when no place is such a file. *)
Theorem detectContainerfile_first fs Containerfile Context :
  (forall path,
     Build.detectContainerfile fs Containerfile Context = Ok path <->
     exists pre post,
       Build.containerfile_places Containerfile Context = (pre ++ path :: post)%list
       /\ Build.is_file fs path = true
       /\ Forall (fun place => Build.is_file fs place = false) pre)
  /\ ((exists e, Build.detectContainerfile fs Containerfile Context = Err e) <->
      Forall (fun place => Build.is_file fs place = false)
        (Build.containerfile_places Containerfile Context)).
Proof.
  assert (Hfirst : forall a b : string,
             let found := if Build.is_file fs a then Some a
                          else if Build.is_file fs b then Some b else None in
             (forall path, found = Some path <->
                exists pre post, [a; b] = (pre ++ path :: post)%list
                  /\ Build.is_file fs path = true
                  /\ Forall (fun place => Build.is_file fs place = false) pre)
             /\ (found = None <->
                 Forall (fun place => Build.is_file fs place = false) [a; b])).
  { intros a b found. subst found. split.
    - intros path. split.
      + destruct (Build.is_file fs a) eqn:Ha.
        * intros [= <-]. exists [], [b]. repeat split; auto.
        * destruct (Build.is_file fs b) eqn:Hb; [|discriminate].
          intros [= <-]. exists [a], []. repeat split; auto.
      + intros (pre & post & Heq & Hfile & Hpre).
        destruct pre as [|x [|y pre]].
        * injection Heq as <- _. now rewrite Hfile.
        * injection Heq as <- <- _. inversion Hpre as [|? ? Hx _]; subst.
          now rewrite Hx, Hfile.
        * exfalso. injection Heq as _ _ Heq. now destruct pre.
    - destruct (Build.is_file fs a) eqn:Ha.
      + split; [discriminate|]. intros H. inversion H; subst. congruence.
      + destruct (Build.is_file fs b) eqn:Hb.
        * split; [discriminate|]. intros H. inversion H as [|? ? _ H']; subst.
          inversion H'; subst. congruence.
        * split; auto. }
  unfold Build.detectContainerfile, Build.containerfile_places.
  destruct (is_empty Containerfile); cbn [negb].
  - cbn [Build.detect_candidates].
    specialize (Hfirst (filepath_Join [Context; "Containerfile"])
                       (filepath_Join [Context; "Dockerfile"])).
    cbv zeta in Hfirst. destruct Hfirst as [H1 H2]. split.
    + intros path. rewrite <- H1.
      destruct (Build.is_file fs (filepath_Join [Context; "Containerfile"]));
        [|destruct (Build.is_file fs (filepath_Join [Context; "Dockerfile"]))];
        split; congruence.
    + rewrite <- H2.
      destruct (Build.is_file fs (filepath_Join [Context; "Containerfile"]));
        [|destruct (Build.is_file fs (filepath_Join [Context; "Dockerfile"]))];
        split; try discriminate; eauto; intros [e He]; discriminate.
  - specialize (Hfirst Containerfile (filepath_Join [Context; Containerfile])).
    cbv zeta in Hfirst. destruct Hfirst as [H1 H2]. split.
    + intros path. rewrite <- H1.
      destruct (Build.is_file fs Containerfile);
        [|destruct (Build.is_file fs (filepath_Join [Context; Containerfile]))];
        split; congruence.
    + rewrite <- H2.
      destruct (Build.is_file fs Containerfile);
        [|destruct (Build.is_file fs (filepath_Join [Context; Containerfile]))];
        split; try discriminate; eauto; intros [e He]; discriminate.
Qed.
